(** * A coroutine thread pool: model and verification

    Shallow embedding of [main.cpp]: a fixed pool of worker threads that
    drain one FIFO queue of work items ([thread_pool]), coroutine tasks
    whose first suspension hands them to the pool ([task_scheduler],
    [task<T>::coroutine_promise]) and a shared, write-once result slot
    per task ([task<T>::state]).

    The program is concurrent, so it is modelled as an interleaving
    transition system: every thread has a program counter that names the
    source line it is about to run, [step] runs one such line of one
    thread atomically, and the properties are invariants of the states
    reachable from [init]. *)

From Stdlib Require Import ZArith Lia.
From stdpp Require Import base tactics option list numbers.

Local Open Scope Z_scope.

(** ** Values *)

(** [task<int>] is the only instance the program uses.  [a + b] on [int]
    is written with its 32-bit wrap-around (the overflow itself is
    undefined in C++; nothing proved below depends on it). *)
Definition wrap_int (z : Z) : Z := (z + 2 ^ 31) mod 2 ^ 32 - 2 ^ 31.
Definition int_add (a b : Z) : Z := wrap_int (a + b).

(** [std::future_errc], as far as [std::promise] raises it here. *)
Inductive future_errc := promise_already_satisfied.

(** What [std::current_exception ()] captures: an exception of the task
    body, or the [std::future_error] of the standard library. *)
Inductive exn :=
| user_exception (id : nat)
| future_error (c : future_errc).

(** The content of a satisfied [std::promise<int>]. *)
Inductive outcome :=
| Value (v : Z)
| Failure (e : exn).

#[global] Instance future_errc_eq_dec : EqDecision future_errc.
Proof. solve_decision. Defined.
#[global] Instance exn_eq_dec : EqDecision exn.
Proof. solve_decision. Defined.
#[global] Instance outcome_eq_dec : EqDecision outcome.
Proof. solve_decision. Defined.

(** ** [std::promise<T>] and [std::shared_future<T>]

    The shared state of a promise is empty or holds one outcome.
    [set_value] and [set_exception] throw
    [future_error (promise_already_satisfied)] on a satisfied promise;
    [shared_future::get] blocks while the state is empty ([None] here)
    and otherwise returns the value or rethrows the stored exception,
    leaving the state as it is. *)
Module Promise.

Definition cell := option outcome.

Definition set_value (v : Z) (c : cell) : exn + cell :=
  match c with
  | None => inr (Some (Value v))
  | Some _ => inl (future_error promise_already_satisfied)
  end.

Definition set_exception (e : exn) (c : cell) : exn + cell :=
  match c with
  | None => inr (Some (Failure e))
  | Some _ => inl (future_error promise_already_satisfied)
  end.

Definition get (c : cell) : option outcome := c.

End Promise.

(** ** Task bodies

    A coroutine body (and [main]) is a tree of the actions it can take on
    the runtime.  A task handle is the index of its state in the task
    table.  Destructors of handles are written out as [Drop]. *)
Abbreviation tid := nat (only parsing).

Inductive prog :=
| Ret (v : Z)                                   (* co_return v *)
| Throw (e : exn)                               (* an exception leaves the body *)
| Call (body : prog) (k : tid → prog)           (* auto c{ f(args) } *)
| Get (h : tid) (kv : Z → prog) (ke : exn → prog) (* h.get_result() *)
| Drop (h : tid) (k : prog)                     (* h goes out of scope *)
| Printf (args : list Z) (k : prog).            (* printf of integers *)

(** [task<T>::state], with the coroutine frame its [handle_] points to
    and the strong count of the [shared_ptr]s that own it. *)
Inductive frame_state :=
| FSuspended (body : prog)   (* at the initial suspension point *)
| FRunning                   (* resumed, not yet finished *)
| FDestroyed.                (* ran past final_suspend *)

Record task_state := TaskState {
  handle_ : bool;                   (* false: nullptr *)
  result_ : Promise.cell;           (* result_ and shared_future_ *)
  frame : frame_state;              (* the frame behind handle_ *)
  use_count : nat;                  (* shared_ptr strong count *)
  owners : nat                      (* live task<T> objects in user code *)
}.

(** ** Threads *)

(** Where a thread is inside [thread_pool::schedule], called from
    [task_scheduler::await_suspend] for the task it has just created. *)
Inductive sched_phase :=
| SGetState    (* line 85: handle.promise().get_state() *)
| SLock        (* line 37: lock_guard lock{ mutex_ } *)
| SPush        (* line 38: queue_.push(std::move(task)) *)
| SUnlock      (* line 39: end of the lock_guard's scope *)
| SNotify.     (* line 40: cva_.notify_one() *)

(** Code running on a thread: a body, or a call of a coroutine function
    that has created task [t] and returns to [k] once it is scheduled. *)
Inductive activity :=
| Run (p : prog)
| Sched (ph : sched_phase) (t : tid) (k : prog).

(** Program counter of [thread_pool::run_thread]. *)
Inductive wphase :=
| WTop                       (* line 54: unique_lock lock{ mutex_ } *)
| WLocked                    (* line 55: if (queue_.empty()) *)
| WWaitEntry                 (* line 56: cva_.wait, mutex held, tests stop and predicate *)
| WBlocked                   (* line 56: cva_.wait, mutex released, blocked *)
| WWoken                     (* line 56: cva_.wait, woken, re-acquires the mutex *)
| WAfterWait                 (* line 59: if (stoken.stop_requested()) *)
| WPop                       (* lines 63-64: front, pop *)
| WUnlock (next : tid)       (* line 65: lock.unlock() *)
| WExecute (next : tid)      (* line 66: next->execute(), i.e. handle_.resume() *)
| WRunning (next : tid) (a : activity)  (* inside the resumed coroutine *)
| WFinalSuspend (next : tid) (* line 141: final_suspend *)
| WRelease (next : tid)      (* line 67: end of the iteration, next is destroyed *)
| WExited.                   (* left the loop through break *)

Inductive thread :=
| Client (a : activity)                 (* main, or another caller thread *)
| Worker (stop : bool) (ph : wphase).   (* a jthread of the pool and its stop state *)

(** ** Global state *)

(** What cannot happen in a run of the program without leaving defined
    behaviour; [step] records it instead of continuing. *)
Inductive fault :=
| ResumeInvalid      (* handle_.resume() on a null or not suspended handle *)
| AssertState        (* assert(state) in get_state fails *)
| FrontEmpty         (* queue_.front() on an empty queue *)
| Terminate.         (* an exception leaves the noexcept execute() *)

(** History of the run, oldest event first. *)
Inductive event :=
| EvLock (i : nat)
| EvUnlock (i : nat)
| EvSubmit (i : nat) (t : tid)
| EvNotifyOne (i : nat)
| EvWait (w : nat)
| EvPop (w : nat) (t : tid)
| EvResume (w : nat) (t : tid)
| EvWrite (t : tid) (o : outcome)
| EvInvalidate (t : tid)
| EvRead (i : nat) (t : tid) (o : outcome)
| EvExit (w : nat).

#[global] Instance event_eq_dec : EqDecision event.
Proof. solve_decision. Defined.

Record state := State {
  tasks : list task_state;
  queue_ : list tid;            (* front of the queue first *)
  mutex_ : option nat;          (* the thread that holds mutex_ *)
  threads : list thread;
  out : list (list Z);          (* what printf has printed *)
  log : list event;
  failed : option fault
}.

Definition set_tasks (ts : list task_state) (s : state) : state :=
  State ts (queue_ s) (mutex_ s) (threads s) (out s) (log s) (failed s).
Definition set_queue (q : list tid) (s : state) : state :=
  State (tasks s) q (mutex_ s) (threads s) (out s) (log s) (failed s).
Definition set_mutex (m : option nat) (s : state) : state :=
  State (tasks s) (queue_ s) m (threads s) (out s) (log s) (failed s).
Definition set_thread (i : nat) (th : thread) (s : state) : state :=
  State (tasks s) (queue_ s) (mutex_ s) (<[i:=th]> (threads s)) (out s) (log s) (failed s).
Definition add_out (l : list Z) (s : state) : state :=
  State (tasks s) (queue_ s) (mutex_ s) (threads s) (out s ++ [l]) (log s) (failed s).
Definition add_log (e : event) (s : state) : state :=
  State (tasks s) (queue_ s) (mutex_ s) (threads s) (out s) (log s ++ [e]) (failed s).
Definition set_failed (f : fault) (s : state) : state :=
  State (tasks s) (queue_ s) (mutex_ s) (threads s) (out s) (log s) (Some f).
Definition set_task (t : tid) (ts : task_state) (s : state) : state :=
  set_tasks (<[t:=ts]> (tasks s)) s.

(** ** The operations of the source *)

(** [task (handle_type handle)] through [std::make_shared<state>], lines
    101-113: the frame is suspended at its start, the promise is empty
    and the new [task] object (the return object of the coroutine) is its
    only owner.  The object belongs to the call until the call returns,
    so it is not yet counted in [owners]. *)
Definition new_task (body : prog) : task_state :=
  TaskState true None (FSuspended body) 1 0.

(** [coroutine_promise::get_state], lines 151-155: [lock ()] on the weak
    pointer gives a null pointer exactly when no [shared_ptr] owns the
    state any more, and then the assertion fails. *)
Definition get_state (t : tid) (s : state) : option task_state :=
  ts ← tasks s !! t;
  if decide (use_count ts = 0)%nat then None else Some ts.

(** [queue_.push (std::move (task))], line 38. *)
Definition schedule_push (i : nat) (t : tid) (s : state) : state :=
  add_log (EvSubmit i t) (set_queue (queue_ s ++ [t]) s).

Definition is_blocked (th : thread) : bool :=
  match th with Worker _ WBlocked => true | _ => false end.

Definition wake (th : thread) : thread :=
  match th with Worker stop WBlocked => Worker stop WWoken | _ => th end.

(** [cva_.notify_one ()], line 40: wakes one of the threads blocked in
    [cva_.wait], here the one [c] names, and does nothing when none is. *)
Definition notify_one (i c : nat) (s : state) : option state :=
  match threads s !! c with
  | Some (Worker stop WBlocked) =>
      Some (add_log (EvNotifyOne i) (set_thread c (Worker stop WWoken) s))
  | _ => if existsb is_blocked (threads s) then None
         else Some (add_log (EvNotifyOne i) s)
  end.

(** One step of code that runs the same on a caller thread and inside a
    resumed coroutine.  [co_return] and an escaping exception are left to
    the thread, which knows whether it runs a coroutine. *)
Definition act_step (i c : nat) (a : activity) (s : state) : option (activity * state) :=
  match a with
  | Run (Ret _) | Run (Throw _) => None
  | Run (Call body k) =>
      (* get_return_object, lines 133-137 *)
      let t := length (tasks s) in
      Some (Sched SGetState t (k t), set_tasks (tasks s ++ [new_task body]) s)
  | Sched SGetState t k =>
      match get_state t s with
      | Some ts =>
          Some (Sched SLock t k,
                set_task t (TaskState (handle_ ts) (result_ ts) (frame ts)
                                      (S (use_count ts)) (owners ts)) s)
      | None => Some (a, set_failed AssertState s)
      end
  | Sched SLock t k =>
      match mutex_ s with
      | None => Some (Sched SPush t k, add_log (EvLock i) (set_mutex (Some i) s))
      | Some _ => None
      end
  | Sched SPush t k => Some (Sched SUnlock t k, schedule_push i t s)
  | Sched SUnlock t k => Some (Sched SNotify t k, add_log (EvUnlock i) (set_mutex None s))
  | Sched SNotify t k =>
      s' ← notify_one i c s;
      ts ← tasks s' !! t;
      (* the call returns: the task object is the caller's from here on *)
      Some (Run k, set_task t (TaskState (handle_ ts) (result_ ts) (frame ts)
                                         (use_count ts) (S (owners ts))) s')
  | Run (Get h kv ke) =>
      (* task::get_result, lines 94-96: shared_future::get *)
      ts ← tasks s !! h;
      if decide (owners ts = 0)%nat then None else
      match Promise.get (result_ ts) with
      | None => None
      | Some (Value v) => Some (Run (kv v), add_log (EvRead i h (Value v)) s)
      | Some (Failure e) => Some (Run (ke e), add_log (EvRead i h (Failure e)) s)
      end
  | Run (Drop h k) =>
      ts ← tasks s !! h;
      if decide (owners ts = 0)%nat then None else
      Some (Run k, set_task h (TaskState (handle_ ts) (result_ ts) (frame ts)
                                         (pred (use_count ts)) (pred (owners ts))) s)
  | Run (Printf args k) => Some (Run k, add_out args s)
  end.

(** [coroutine_promise::return_value] and [state::set_result], lines
    145-147 and 120-122.  When [set_value] throws, the exception is
    raised inside the coroutine body and reaches [unhandled_exception]. *)
Definition return_value (w : nat) (stop : bool) (t : tid) (v : Z) (s : state) : state :=
  match get_state t s with
  | None => set_failed AssertState s
  | Some ts =>
      match Promise.set_value v (result_ ts) with
      | inr c =>
          add_log (EvWrite t (Value v))
            (set_thread w (Worker stop (WFinalSuspend t))
               (set_task t (TaskState (handle_ ts) c (frame ts) (use_count ts) (owners ts)) s))
      | inl e => set_thread w (Worker stop (WRunning t (Run (Throw e)))) s
      end
  end.

(** [coroutine_promise::unhandled_exception], lines 148-150.  An
    exception of [set_exception] leaves [resume] and the [noexcept]
    [execute]. *)
Definition unhandled_exception (w : nat) (stop : bool) (t : tid) (e : exn) (s : state) : state :=
  match get_state t s with
  | None => set_failed AssertState s
  | Some ts =>
      match Promise.set_exception e (result_ ts) with
      | inr c =>
          add_log (EvWrite t (Failure e))
            (set_thread w (Worker stop (WFinalSuspend t))
               (set_task t (TaskState (handle_ ts) c (frame ts) (use_count ts) (owners ts)) s))
      | inl _ => set_failed Terminate s
      end
  end.

(** [coroutine_promise::final_suspend], lines 141-144: the handle is
    nulled and, as [suspend_never] does not suspend, the frame is
    destroyed and [resume] returns. *)
Definition final_suspend (w : nat) (stop : bool) (t : tid) (s : state) : state :=
  match get_state t s with
  | None => set_failed AssertState s
  | Some ts =>
      add_log (EvInvalidate t)
        (set_thread w (Worker stop (WRelease t))
           (set_task t (TaskState false (result_ ts) FDestroyed (use_count ts) (owners ts)) s))
  end.

(** [state::execute], lines 114-116. *)
Definition execute (w : nat) (stop : bool) (t : tid) (s : state) : state :=
  match tasks s !! t with
  | Some (TaskState true r (FSuspended body) u o) =>
      add_log (EvResume w t)
        (set_thread w (Worker stop (WRunning t (Run body)))
           (set_task t (TaskState true r FRunning u o) s))
  | _ => set_failed ResumeInvalid s
  end.

(** One step of [thread_pool::run_thread], lines 52-68, for worker [w]. *)
Definition worker_step (w c : nat) (stop : bool) (ph : wphase) (s : state) : option state :=
  match ph with
  | WTop =>
      match mutex_ s with
      | None => Some (add_log (EvLock w) (set_thread w (Worker stop WLocked) (set_mutex (Some w) s)))
      | Some _ => None
      end
  | WLocked =>
      Some (set_thread w (Worker stop (if queue_ s is [] then WWaitEntry else WPop)) s)
  | WWaitEntry =>
      (* cva_.wait (lock, stoken, pred) returns once stop is requested or
         the predicate holds, and else releases the mutex and blocks *)
      if stop then Some (set_thread w (Worker stop WAfterWait) s)
      else if queue_ s is [] then
        Some (add_log (EvWait w) (set_thread w (Worker stop WBlocked) (set_mutex None s)))
      else Some (set_thread w (Worker stop WAfterWait) s)
  | WBlocked => None
  | WWoken =>
      match mutex_ s with
      | None => Some (set_thread w (Worker stop WWaitEntry) (set_mutex (Some w) s))
      | Some _ => None
      end
  | WAfterWait =>
      if stop then
        (* break: the unique_lock is destroyed and releases the mutex *)
        Some (add_log (EvExit w) (set_thread w (Worker stop WExited) (set_mutex None s)))
      else Some (set_thread w (Worker stop WPop) s)
  | WPop =>
      match queue_ s with
      | [] => Some (set_failed FrontEmpty s)
      | t :: q => Some (add_log (EvPop w t) (set_thread w (Worker stop (WUnlock t)) (set_queue q s)))
      end
  | WUnlock t =>
      Some (add_log (EvUnlock w) (set_thread w (Worker stop (WExecute t)) (set_mutex None s)))
  | WExecute t => Some (execute w stop t s)
  | WRunning t (Run (Ret v)) => Some (return_value w stop t v s)
  | WRunning t (Run (Throw e)) => Some (unhandled_exception w stop t e s)
  | WRunning t a =>
      '(a', s') ← act_step w c a s;
      Some (set_thread w (Worker stop (WRunning t a')) s')
  | WFinalSuspend t => Some (final_suspend w stop t s)
  | WRelease t =>
      ts ← tasks s !! t;
      Some (set_thread w (Worker stop WTop)
              (set_task t (TaskState (handle_ ts) (result_ ts) (frame ts)
                                     (pred (use_count ts)) (owners ts)) s))
  | WExited => None
  end.

(** What can happen next: thread [i] runs its next line ([c] chooses the
    thread a [notify_one] wakes), a blocked worker wakes spuriously, or a
    stop is requested for worker [w] (by [~thread_pool], line 49); the
    stop callback of a blocked [wait] wakes it. *)
Inductive label :=
| Step (i c : nat)
| Spurious (w : nat)
| RequestStop (w : nat).

Definition step (l : label) (s : state) : option state :=
  if failed s is Some _ then None else
  match l with
  | Step i c =>
      th ← threads s !! i;
      match th with
      | Client a =>
          '(a', s') ← act_step i c a s;
          Some (set_thread i (Client a') s')
      | Worker stop ph => worker_step i c stop ph s
      end
  | Spurious w =>
      match threads s !! w with
      | Some (Worker stop WBlocked) => Some (set_thread w (Worker stop WWoken) s)
      | _ => None
      end
  | RequestStop w =>
      match threads s !! w with
      | Some (Worker false ph) => Some (set_thread w (wake (Worker true ph)) s)
      | _ => None
      end
  end.

(** The pool has [n] workers (the constructor, lines 43-47) and the
    caller threads run [mains]; nothing is queued. *)
Definition init (n : nat) (mains : list prog) : state :=
  State [] [] None ((Client ∘ Run <$> mains) ++ replicate n (Worker false WTop)) [] [] None.

Inductive reachable (s0 : state) : state → Prop :=
| reachable_refl : reachable s0 s0
| reachable_step s l s' : reachable s0 s → step l s = Some s' → reachable s0 s'.

Fixpoint exec (ls : list label) (s : state) : option state :=
  match ls with
  | [] => Some s
  | l :: ls => s' ← step l s; exec ls s'
  end.

(** ** The programs of the source *)

Definition DEFAULT_CONCURRENCY_LEVEL : nat := 8.

(** [async_add], lines 158-162 (the debug output is left out). *)
Definition async_add (a b : Z) : prog := Ret (int_add a b).

(** The loop of [async_fib], lines 176-180, with [iters] iterations to
    go; [c] is destroyed at the end of each iteration, also when
    [get_result] throws. *)
Fixpoint fib_loop (iters : nat) (a b : Z) : prog :=
  match iters with
  | O => Ret b
  | S m => Call (async_add a b) (λ c,
             Get c (λ r, Drop c (fib_loop m b r)) (λ e, Drop c (Throw e)))
  end.

(** [async_fib], lines 164-184. *)
Definition async_fib (n : Z) : prog :=
  if n <=? 2 then Ret 1 else fib_loop (Z.to_nat (n - 2)) 1 1.

(** The loop of [test_async_fib], lines 187-190, from [i] on. *)
Fixpoint test_loop (iters : nat) (i : Z) : prog :=
  match iters with
  | O => Ret 0
  | S m => Call (async_fib i) (λ fib_task,
             Get fib_task (λ r, Printf [i; r] (Drop fib_task (test_loop m (i + 1))))
                          (λ e, Drop fib_task (Throw e)))
  end.

Definition test_async_fib : prog := test_loop 9 1.

(** A scheduler for running the model: the thread of lowest index that
    can move does, and [notify_one] wakes the blocked worker of lowest
    index. *)
Fixpoint first_blocked (ths : list thread) : nat :=
  match ths with
  | [] => 0
  | th :: ths => if is_blocked th then 0 else S (first_blocked ths)
  end.

Fixpoint first_enabled (n : nat) (i : nat) (s : state) : option (label * state) :=
  match n with
  | O => None
  | S n =>
      let l := Step i (first_blocked (threads s)) in
      match step l s with
      | Some s' => Some (l, s')
      | None => first_enabled n (S i) s
      end
  end.

Fixpoint run (fuel : nat) (s : state) : state :=
  match fuel with
  | O => s
  | S fuel =>
      match first_enabled (length (threads s)) 0 s with
      | Some (_, s') => run fuel s'
      | None => s
      end
  end.

(** ** Census of a state

    Where the references to task [t] are: every counter is the number of
    threads, queue entries or log events of one kind that name [t]. *)
Definition tsum {A} (f : A → nat) (l : list A) : nat := sum_list_with f l.

Definition ind (P : Prop) `{!Decision P} : nat := if decide P then 1%nat else 0%nat.

Definition act_of (th : thread) : option activity :=
  match th with
  | Client a => Some a
  | Worker _ (WRunning _ a) => Some a
  | Worker _ _ => None
  end.

(** The thread has created [t] and not yet taken the reference that goes to the queue. *)
Definition c_s0 (t : tid) (th : thread) : nat :=
  match act_of th with Some (Sched SGetState t' _) => ind (t' = t) | _ => 0%nat end.
(** It holds that reference and has not pushed it. *)
Definition c_s1 (t : tid) (th : thread) : nat :=
  match act_of th with Some (Sched (SLock | SPush) t' _) => ind (t' = t) | _ => 0%nat end.
(** It has pushed it and not yet returned to its caller. *)
Definition c_s2 (t : tid) (th : thread) : nat :=
  match act_of th with Some (Sched (SUnlock | SNotify) t' _) => ind (t' = t) | _ => 0%nat end.
(** The worker has popped [t] and not resumed it. *)
Definition c_next (t : tid) (th : thread) : nat :=
  match th with Worker _ (WUnlock t' | WExecute t') => ind (t' = t) | _ => 0%nat end.
(** The worker is inside the body of [t]. *)
Definition c_run (t : tid) (th : thread) : nat :=
  match th with Worker _ (WRunning t' _) => ind (t' = t) | _ => 0%nat end.
(** The body of [t] has stored its outcome and is at final_suspend. *)
Definition c_fin (t : tid) (th : thread) : nat :=
  match th with Worker _ (WFinalSuspend t') => ind (t' = t) | _ => 0%nat end.
(** [execute] has returned and [next] still owns [t]. *)
Definition c_rel (t : tid) (th : thread) : nat :=
  match th with Worker _ (WRelease t') => ind (t' = t) | _ => 0%nat end.

Definition q_occ (t : tid) (q : list tid) : nat := tsum (λ t', ind (t' = t)) q.

Definition is_submit (t : tid) (e : event) : nat :=
  match e with EvSubmit _ t' => ind (t' = t) | _ => 0%nat end.
Definition is_resume (t : tid) (e : event) : nat :=
  match e with EvResume _ t' => ind (t' = t) | _ => 0%nat end.
Definition is_invalidate (t : tid) (e : event) : nat :=
  match e with EvInvalidate t' => ind (t' = t) | _ => 0%nat end.
Definition is_write (t : tid) (e : event) : nat :=
  match e with EvWrite t' _ => ind (t' = t) | _ => 0%nat end.

Definition f_sus (o : option task_state) : nat :=
  match frame <$> o with Some (FSuspended _) => 1%nat | _ => 0%nat end.
Definition f_run (o : option task_state) : nat :=
  match frame <$> o with Some FRunning => 1%nat | _ => 0%nat end.
Definition f_des (o : option task_state) : nat :=
  match frame <$> o with Some FDestroyed => 1%nat | _ => 0%nat end.
Definition r_set (o : option task_state) : nat :=
  match o ≫= result_ with Some _ => 1%nat | None => 0%nat end.
Definition h_set (o : option task_state) : nat :=
  match handle_ <$> o with Some true => 1%nat | _ => 0%nat end.
Definition n_use (o : option task_state) : nat :=
  match o with Some ts => use_count ts | None => 0%nat end.
Definition n_own (o : option task_state) : nat :=
  match o with Some ts => owners ts | None => 0%nat end.

(** The invariant of one task: a suspended frame is referenced by exactly
    one of its creator (before the push), the queue and a worker that has
    popped it; a running frame by exactly one worker; the outcome is
    stored from the end of the body on; the handle is null exactly when
    the frame is destroyed; the strong count is the number of owners; and
    the log has one submission, resumption, invalidation and write for
    the stages the task has passed. *)
Definition task_inv (s : state) (t : tid) : Prop :=
  let o := tasks s !! t in
  let T f := tsum (f t) (threads s) in
  (T c_s0 + T c_s1 + q_occ t (queue_ s) + T c_next = f_sus o
   ∧ T c_run + T c_fin = f_run o
   ∧ r_set o = T c_fin + f_des o
   ∧ h_set o = f_sus o + f_run o
   ∧ n_use o = n_own o + T c_s0 + T c_s1 + T c_s1 + T c_s2 + q_occ t (queue_ s)
               + T c_next + T c_run + T c_fin + T c_rel
   ∧ tsum (is_submit t) (log s) + T c_s0 + T c_s1 = f_sus o + f_run o + f_des o
   ∧ tsum (is_resume t) (log s) = f_run o + f_des o
   ∧ tsum (is_invalidate t) (log s) = f_des o
   ∧ tsum (is_write t) (log s) = r_set o)%nat.

(** The thread holds [mutex_]. *)
Definition holds (th : thread) : bool :=
  match th with
  | Worker _ (WLocked | WWaitEntry | WAfterWait | WPop | WUnlock _) => true
  | _ => match act_of th with Some (Sched (SPush | SUnlock) _ _) => true | _ => false end
  end.

Definition mutex_inv (s : state) : Prop :=
  ∀ j th, threads s !! j = Some th → holds th = true ↔ mutex_ s = Some j.

(** What the worker knows about the queue while it holds the mutex. *)
Definition queue_inv (s : state) : Prop :=
  ∀ w stop ph, threads s !! w = Some (Worker stop ph) →
    match ph with
    | WPop => queue_ s ≠ []
    | WAfterWait => stop = true ∨ queue_ s ≠ []
    | _ => True
    end.

Definition submitted (l : list event) : list tid :=
  omap (λ e, match e with EvSubmit _ t => Some t | _ => None end) l.
Definition popped (l : list event) : list tid :=
  omap (λ e, match e with EvPop _ t => Some t | _ => None end) l.
Definition written (t : tid) (l : list event) : list outcome :=
  omap (λ e, match e with EvWrite t' o => if decide (t' = t) then Some o else None | _ => None end) l.

Definition slot (s : state) (t : tid) : Promise.cell := tasks s !! t ≫= result_.

(** The log against the state: the queue is what was submitted and not
    popped, in order, and the writes of a slot are its content. *)
Definition log_inv (s : state) : Prop :=
  submitted (log s) = popped (log s) ++ queue_ s
  ∧ ∀ t, written t (log s) = option_list (slot s t).

Definition inv (s : state) : Prop :=
  failed s = None ∧ mutex_inv s ∧ queue_inv s ∧ log_inv s ∧ ∀ t, task_inv s t.

(** The two places a body runs in: on a caller thread, or inside the
    coroutine a worker has resumed. *)
Definition is_ctx (ctx : activity → thread) : Prop :=
  ctx = Client ∨ ∃ stop t, ctx = (λ a, Worker stop (WRunning t a)).

(** The labels the scheduler of [run] takes. *)
Fixpoint run_trace (fuel : nat) (s : state) : list label :=
  match fuel with
  | O => []
  | S fuel =>
      match first_enabled (length (threads s)) 0 s with
      | Some (l, s') => l :: run_trace fuel s'
      | None => []
      end
  end.

(** The task whose coroutine the worker is inside of. *)
Definition resumed_task (ph : wphase) : option tid :=
  match ph with
  | WRunning t _ | WFinalSuspend t => Some t
  | _ => None
  end.

(** What the step that logs [e] does, from state [s] to state [s']. *)
Definition event_sem (s : state) (e : event) (s' : state) : Prop :=
  match e with
  | EvLock i => mutex_ s = None ∧ mutex_ s' = Some i
  | EvUnlock i => mutex_ s' = None
  | EvSubmit i t =>
      queue_ s' = queue_ s ++ [t] ∧ tasks s' = tasks s
      ∧ ∃ th, threads s !! i = Some th ∧ holds th = true
  | EvNotifyOne i => queue_ s' = queue_ s ∧ mutex_ s' = mutex_ s
  | EvWait w => queue_ s = [] ∧ mutex_ s' = None
  | EvPop w t =>
      queue_ s = t :: queue_ s' ∧ ∃ th, threads s !! w = Some th ∧ holds th = true
  | EvResume w t => ∃ stop, threads s !! w = Some (Worker stop (WExecute t))
  | EvWrite t o =>
      slot s t = None ∧ slot s' t = Some o
      ∧ ∀ t', t' ≠ t → tasks s' !! t' = tasks s !! t'
  | EvInvalidate t => ∃ w stop, threads s !! w = Some (Worker stop (WFinalSuspend t))
  | EvRead i t o => slot s t = Some o ∧ tasks s' = tasks s
  | EvExit w => threads s !! w = Some (Worker true WAfterWait) ∧ mutex_ s' = None
  end.

(** Every read in the log returned what the slot holds. *)
Definition reads_inv (s : state) : Prop :=
  ∀ i t o, EvRead i t o ∈ log s → slot s t = Some o.

(** After the handle of [t] is nulled, [t] is not resumed. *)
Definition order_inv (s : state) (t : tid) : Prop :=
  ∀ pre post w, log s = pre ++ EvInvalidate t :: post → EvResume w t ∉ post.

(** Small callers used to run the model: one [async_add (3, 4)] whose
    result is printed, and one task whose body throws. *)
Definition add_main : prog :=
  Call (async_add 3 4) (λ c,
    Get c (λ r, Printf [r] (Drop c (Ret 0))) (λ e, Drop c (Throw e))).

Definition throw_main : prog :=
  Call (Throw (user_exception 1)) (λ c,
    Get c (λ r, Drop c (Ret r)) (λ e, Drop c (Ret (-1)))).

(** ** The worker loop, as a specification of one step per program point *)

Definition stop_requested (w : nat) (s : state) : bool :=
  match threads s !! w with Some (Worker stop _) => stop | _ => false end.

(** Worker [w] leaves its loop in the step from [s] to [s']. *)
Definition exits_loop (w : nat) (s s' : state) : Prop :=
  (∃ stop ph, threads s !! w = Some (Worker stop ph) ∧ ph ≠ WExited)
  ∧ ∃ stop, threads s' !! w = Some (Worker stop WExited).

(** The step of worker [w] from [s] ends in [s'] with the worker at [ph']. *)
Definition moves_to (w c : nat) (stop : bool) (s : state) (ph' : wphase) (s' : state) : Prop :=
  step (Step w c) s = Some s' ∧ threads s' !! w = Some (Worker stop ph').

Definition worker_loop_spec (w c : nat) (stop : bool) (ph : wphase) (s : state) : Prop :=
  match ph with
  | WTop =>
      (* (a) acquire the mutex, waiting while another thread holds it *)
      (mutex_ s ≠ None → step (Step w c) s = None)
      ∧ (mutex_ s = None →
         ∃ s', moves_to w c stop s WLocked s' ∧ mutex_ s' = Some w ∧ queue_ s' = queue_ s)
  | WLocked =>
      (* (b) wait only if the queue is empty *)
      mutex_ s = Some w
      ∧ ∃ s', moves_to w c stop s (if queue_ s is [] then WWaitEntry else WPop) s'
              ∧ mutex_ s' = Some w ∧ queue_ s' = queue_ s
  | WWaitEntry =>
      (* the wait returns on stop or on an item, and else releases the mutex and blocks *)
      mutex_ s = Some w
      ∧ ∃ s', (if stop || (if queue_ s is [] then false else true)
               then moves_to w c stop s WAfterWait s' ∧ mutex_ s' = Some w
               else moves_to w c stop s WBlocked s' ∧ mutex_ s' = None)
              ∧ queue_ s' = queue_ s
  | WBlocked =>
      (* blocked: only a notification, a spurious wake-up or a stop request moves it *)
      step (Step w c) s = None ∧ mutex_ s ≠ Some w
  | WWoken =>
      (mutex_ s ≠ None → step (Step w c) s = None)
      ∧ (mutex_ s = None →
         ∃ s', moves_to w c stop s WWaitEntry s' ∧ mutex_ s' = Some w ∧ queue_ s' = queue_ s)
  | WAfterWait =>
      (* (c) after the wait: leave the loop if stop is requested, whatever the queue holds *)
      mutex_ s = Some w ∧ (stop = true ∨ queue_ s ≠ [])
      ∧ ∃ s', (if stop then moves_to w c stop s WExited s' ∧ mutex_ s' = None
               else moves_to w c stop s WPop s' ∧ mutex_ s' = Some w)
              ∧ queue_ s' = queue_ s
  | WPop =>
      (* (d) dequeue exactly the front item, with the mutex held *)
      mutex_ s = Some w
      ∧ ∃ t q s', queue_ s = t :: q ∧ moves_to w c stop s (WUnlock t) s'
                  ∧ queue_ s' = q ∧ mutex_ s' = Some w
  | WUnlock t =>
      mutex_ s = Some w
      ∧ ∃ s', moves_to w c stop s (WExecute t) s' ∧ mutex_ s' = None ∧ queue_ s' = queue_ s
  | WExecute t =>
      (* execute outside the lock *)
      mutex_ s ≠ Some w
      ∧ ∃ body s', tasks s !! t ≫= (Some ∘ frame) = Some (FSuspended body)
                   ∧ moves_to w c stop s (WRunning t (Run body)) s'
                   ∧ mutex_ s' = mutex_ s ∧ queue_ s' = queue_ s
  | WRunning t _ | WFinalSuspend t => True
  | WRelease t =>
      (* and repeat *)
      mutex_ s ≠ Some w
      ∧ ∃ s', moves_to w c stop s WTop s' ∧ mutex_ s' = mutex_ s ∧ queue_ s' = queue_ s
  | WExited => step (Step w c) s = None
  end.

(** A caller that starts one task and returns without waiting for it; a
    run in which the only worker is woken for that task and by the stop
    request of the pool's destructor, in this order. *)
Definition forget_main : prog := Call (async_add 1 2) (λ c, Drop c (Ret 0)).

Definition stop_trace : list label :=
  [Step 1 0; Step 1 0; Step 1 0;
   Step 0 1; Step 0 1; Step 0 1; Step 0 1; Step 0 1; Step 0 1; Step 0 1;
   RequestStop 1;
   Step 1 0; Step 1 0].

Definition stop_state : state := default (init 1 [forget_main]) (exec stop_trace (init 1 [forget_main])).

(** ** FIFO service *)

(** The task the worker has popped and not yet run to completion. *)
Definition current_task (ph : wphase) : option tid :=
  match ph with
  | WUnlock t | WExecute t | WRunning t _ | WFinalSuspend t => Some t
  | _ => None
  end.

(** The task has run to completion: its frame went past final_suspend. *)
Definition destroyed (s : state) (t : tid) : Prop :=
  ∃ ts, tasks s !! t = Some ts ∧ frame ts = FDestroyed.

(** The task has begun to run. *)
Definition started (s : state) (t : tid) : Prop :=
  ∃ ts, tasks s !! t = Some ts ∧ ∀ body, frame ts ≠ FSuspended body.

Definition single_worker (s : state) (w : nat) : Prop :=
  ∀ j stop ph, threads s !! j = Some (Worker stop ph) → j = w.

(** With one worker, everything popped has run to completion, but for
    the item the worker is busy with, which is the last one popped. *)
Definition fifo_inv (w : nat) (s : state) : Prop :=
  single_worker s w
  ∧ ∃ stop ph, threads s !! w = Some (Worker stop ph)
      ∧ match current_task ph with
        | Some t => ∃ pre, popped (log s) = pre ++ [t] ∧ Forall (destroyed s) pre
        | None => Forall (destroyed s) (popped (log s))
        end.

(** [a] occurs before [b] in [l]. *)
Definition before {A} (a b : A) (l : list A) : Prop :=
  ∃ l1 l2 l3, l = l1 ++ a :: l2 ++ b :: l3.

(** A caller that starts two tasks and then waits for both. *)
Definition two_main : prog :=
  Call (async_add 1 2) (λ a,
    Call (async_add 3 4) (λ b,
      Get a (λ x, Get b (λ y, Printf [x; y] (Drop b (Drop a (Ret 0))))
                        (λ e, Drop b (Drop a (Throw e))))
            (λ e, Drop b (Drop a (Throw e))))).


(** ** What a body computes, whatever the schedule

    [yields Q p Π outs o]: when the tasks created so far end with the
    outcomes [Π] (task [t] with [Π !! t]), the thread that runs [p]
    prints [outs] and ends with [o], and the tasks it creates print
    nothing and end with an outcome in [Q].  A new task can get any
    handle, and more tasks can have been created by then. *)
Fixpoint yields (Q : outcome → Prop) (p : prog) (Π : list outcome)
    (outs : list (list Z)) (o : outcome) : Prop :=
  match p with
  | Ret v => outs = [] ∧ o = Value v
  | Throw e => outs = [] ∧ o = Failure e
  | Call body k =>
      ∃ ob, Q ob ∧ yields Q body Π [] ob
            ∧ ∀ Π' t, Π `prefix_of` Π' → Π' !! t = Some ob → yields Q (k t) Π' outs o
  | Get h kv ke =>
      ∃ oh, Π !! h = Some oh
            ∧ match oh with
              | Value v => yields Q (kv v) Π outs o
              | Failure e => yields Q (ke e) Π outs o
              end
  | Drop h k => yields Q k Π outs o
  | Printf args k => ∃ outs', outs = args :: outs' ∧ yields Q k Π outs' o
  end.

Definition act_yields (Q : outcome → Prop) (a : activity) (Π : list outcome)
    (outs : list (list Z)) (o : outcome) : Prop :=
  match a with
  | Run p => yields Q p Π outs o
  | Sched _ _ k => yields Q k Π outs o
  end.

(** The outcome [Π] gives to task [t] is the one its body computes and
    the one in its slot, once written. *)
Definition task_sem (Q : outcome → Prop) (Π : list outcome) (t : tid) (ts : task_state) : Prop :=
  ∃ o, Π !! t = Some o
       ∧ (∀ body, frame ts = FSuspended body → yields Q body Π [] o)
       ∧ (∀ o', result_ ts = Some o' → o' = o).

(** The caller has printed [printed] of [total] and goes on to print the
    rest and to end with [om]; a resumed coroutine computes the outcome
    of its task. *)
Definition thread_sem (Q : outcome → Prop) (Π : list outcome) (printed total : list (list Z))
    (om : outcome) (th : thread) : Prop :=
  match th with
  | Client a => ∃ rest, total = printed ++ rest ∧ act_yields Q a Π rest om
  | Worker _ (WRunning t a) => ∃ o, Π !! t = Some o ∧ act_yields Q a Π [] o
  | Worker _ _ => True
  end.

Definition sem_inv (Q : outcome → Prop) (total : list (list Z)) (om : outcome)
    (s : state) : Prop :=
  ∃ Π, length Π = length (tasks s)
       ∧ Forall Q Π
       ∧ (∀ t ts, tasks s !! t = Some ts → task_sem Q Π t ts)
       ∧ (∀ i th, threads s !! i = Some th → thread_sem Q Π (out s) total om th)
       ∧ (∀ i a, threads s !! i = Some (Client a) → i = 0%nat).

(** What the loops of the example compute: the value of [b] after
    [iters] more iterations of the loop of [async_fib], the result of
    [async_fib n], and the lines [test_async_fib] prints from [i] on. *)
Fixpoint fib_iter (iters : nat) (a b : Z) : Z :=
  match iters with
  | O => b
  | S m => fib_iter m b (int_add a b)
  end.

Definition fib_value (n : Z) : Z :=
  if n <=? 2 then 1 else fib_iter (Z.to_nat (n - 2)) 1 1.

Fixpoint fib_lines (iters : nat) (i : Z) : list (list Z) :=
  match iters with
  | O => []
  | S m => [i; fib_value i] :: fib_lines m (i + 1)
  end.

(** No task of the example ends with an exception. *)
Definition is_value (o : outcome) : Prop := ∃ v, o = Value v.


(** ** More of the pool: wake-ups, starvation, shutdown *)

(** A thread that will see to a queued item: a worker that is not blocked
    in [cva_.wait], or a caller between its push and its
    [cva_.notify_one ()] (lines 39-40). *)
Definition attending (th : thread) : bool :=
  match th with
  | Worker _ WBlocked => false
  | Worker _ _ => true
  | Client (Sched (SUnlock | SNotify) _ _) => true
  | Client _ => false
  end.

(** A pool has a worker, a worker leaves its loop only when its stop is
    requested, and an item in the queue has a thread attending to it. *)
Definition wake_inv (s : state) : Prop :=
  (∃ w stop ph, threads s !! w = Some (Worker stop ph))
  ∧ (∀ w stop, threads s !! w = Some (Worker stop WExited) → stop = true)
  ∧ (queue_ s ≠ [] → ∃ i th, threads s !! i = Some th ∧ attending th = true).

(** The thread cannot move before a slot that is empty now is written:
    a worker inside a coroutine that is in [get_result] on an empty slot
    (lines 94-96, [shared_future::get] blocks), or a worker that has left
    [run_thread]; callers do not write slots. *)
Definition waiting (s : state) (th : thread) : bool :=
  match th with
  | Worker _ WExited => true
  | Worker _ (WRunning _ (Run (Get c _ _))) => if slot s c is None then true else false
  | Worker _ _ => false
  | Client _ => true
  end.

Definition starved (s : state) : bool := forallb (waiting s) (threads s).

(** [~thread_pool], lines 48-51: [request_stop] on every thread, then the
    joins; each worker [w] of [ws] is blocked in [cva_.wait] and runs its
    remaining lines while it is joined: it re-acquires the mutex, the
    wait returns, and it breaks out of the loop. *)
Definition request_stops (ws : list nat) : list label := RequestStop <$> ws.

Definition joins (ws : list nat) : list label :=
  ws ≫= λ w, [Step w 0; Step w 0; Step w 0]%nat.

Definition destructor (ws : list nat) : list label := request_stops ws ++ joins ws.

(** The Fibonacci numbers, 0, 1, 1, 2, 3, 5, ... *)
Fixpoint fibonacci (n : nat) : Z :=
  match n with
  | O => 0
  | S m => match m with O => 1 | S k => fibonacci k + fibonacci m end
  end.

(** A caller of [async_add (a, b)] that prints the result. *)
Definition add_caller (a b : Z) : prog :=
  Call (async_add a b) (λ c,
    Get c (λ r, Printf [r] (Drop c (Ret 0))) (λ e, Drop c (Throw e))).

Local Close Scope Z_scope.


Lemma tsum_nil {A} (f : A → nat) : tsum f [] = 0.
Proof. done. Qed.
Lemma tsum_cons {A} (f : A → nat) x l : tsum f (x :: l) = f x + tsum f l.
Proof. done. Qed.
Lemma tsum_app {A} (f : A → nat) l k : tsum f (l ++ k) = tsum f l + tsum f k.
Proof. apply sum_list_with_app. Qed.
Lemma tsum_snoc {A} (f : A → nat) l x : tsum f (l ++ [x]) = tsum f l + f x.
Proof. rewrite tsum_app. unfold tsum. simpl. lia. Qed.

Lemma tsum_delete {A} (f : A → nat) l i x :
  l !! i = Some x → tsum f l = f x + tsum f (delete i l).
Proof.
  revert i. induction l as [|z l IH]; intros [|i] H; simplify_eq/=; [done|].
  specialize (IH i H). unfold tsum in *. simpl. lia.
Qed.

Lemma tsum_insert_delete {A} (f : A → nat) l i x y :
  l !! i = Some x → tsum f (<[i:=y]> l) = f y + tsum f (delete i l).
Proof.
  revert i. induction l as [|z l IH]; intros [|i] H; simplify_eq/=; [done|].
  specialize (IH i H). unfold tsum in *. simpl. lia.
Qed.

Lemma tsum_insert_same {A} (f : A → nat) l i x y :
  l !! i = Some x → f y = f x → tsum f (<[i:=y]> l) = tsum f l.
Proof.
  intros H E. by rewrite (tsum_insert_delete f l i x y H), (tsum_delete f l i x H), E.
Qed.

Arguments tsum : simpl never.
Arguments q_occ : simpl never.

Lemma lookup_snoc_decide {A} (l : list A) x i :
  (l ++ [x]) !! i = if decide (i = length l) then Some x else l !! i.
Proof.
  case_decide as H.
  - subst. by rewrite lookup_app_r, Nat.sub_diag.
  - destruct (decide (i < length l)).
    + by rewrite lookup_app_l.
    + rewrite !lookup_ge_None_2; [done|lia|rewrite length_app; simpl; lia].
Qed.

Lemma q_occ_snoc t q x : q_occ t (q ++ [x]) = q_occ t q + ind (x = t).
Proof. unfold q_occ. by rewrite tsum_snoc. Qed.
Lemma q_occ_cons t q x : q_occ t (x :: q) = ind (x = t) + q_occ t q.
Proof. done. Qed.


Ltac norm :=
  unfold schedule_push, set_task in *;
  unfold set_thread, set_tasks, set_queue, set_mutex, add_log, add_out, set_failed in *;
  cbn [tasks queue_ mutex_ threads out log failed] in *.

Ltac red_census :=
  cbn [c_s0 c_s1 c_s2 c_next c_run c_fin c_rel act_of is_submit is_resume
       is_invalidate is_write holds] in *.

Ltac red_task :=
  unfold f_sus, f_run, f_des, r_set, h_set, n_use, n_own, slot, new_task in *;
  cbn [fmap option_fmap option_map mbind option_bind default frame result_ handle_
       use_count owners] in *.

(** Rewrites the census of the threads before and after thread [i] has
    moved over the other threads. *)
Ltac split_census Hth H0 :=
  rewrite ?(tsum_insert_delete _ _ _ _ _ Hth);
  rewrite ?(tsum_delete _ _ _ _ Hth) in H0.

Ltac split_fields :=
  repeat match goal with
  | H : result_ ?ts = _, H' : context [result_ ?ts] |- _ =>
      lazymatch H' with H => fail | _ => rewrite H in H' end
  | H : result_ ?ts = _ |- context [result_ ?ts] => rewrite H
  end;
  repeat match goal with
  | |- context [match frame ?ts with _ => _ end] => destruct (frame ts)
  | H : context [match frame ?ts with _ => _ end] |- _ => destruct (frame ts)
  | |- context [match result_ ?ts with _ => _ end] => destruct (result_ ts)
  | H : context [match result_ ?ts with _ => _ end] |- _ => destruct (result_ ts)
  end.

Ltac arith := unfold ind in *; repeat case_decide; simplify_eq; try lia; split_fields; try lia.


Lemma ctx_lookup ctx a : is_ctx ctx → act_of (ctx a) = Some a.
Proof. by intros [-> | (? & ? & ->)]. Qed.

(** Uses the equations on the queue and the mutex everywhere. *)
Ltac use_eqs :=
  repeat match goal with
  | H : queue_ ?s = _ |- context [queue_ ?s] => rewrite H
  | H : queue_ ?s = _, H' : context [queue_ ?s] |- _ =>
      lazymatch H' with H => fail | _ => rewrite H in H' end
  | H : mutex_ ?s = _ |- context [mutex_ ?s] => rewrite H
  | H : mutex_ ?s = _, H' : context [mutex_ ?s] |- _ =>
      lazymatch H' with H => fail | _ => rewrite H in H' end
  end.

Ltac lookup_thread Hth Hj tac_eq tac_ne :=
  let Hlen := fresh "Hlen" in
  pose proof (lookup_lt_Some _ _ _ Hth) as Hlen;
  match type of Hj with
  | <[?i:=_]> _ !! ?j = _ =>
      destruct (decide (j = i)) as [->|?];
      [rewrite list_lookup_insert_eq in Hj by done; simplify_eq; tac_eq
      |rewrite list_lookup_insert_ne in Hj by done; tac_ne]
  end.

Ltac solve_mutex Hm Hth :=
  let j := fresh "j" in let thj := fresh "thj" in let Hj := fresh "Hj" in
  let Hmi := fresh "Hmi" in let Hmj := fresh "Hmj" in
  intros j thj Hj; norm;
  pose proof (Hm _ _ Hth) as Hmi;
  lookup_thread Hth Hj ltac:(idtac) ltac:(pose proof (Hm _ _ Hj) as Hmj);
  clear Hm; red_census;
  destruct Hmi as [Hmi ?]; try specialize (Hmi eq_refl);
  use_eqs;
  try match goal with |- context [mutex_ ?s] => destruct (mutex_ s) end;
  try (intuition congruence).

Ltac solve_queue Hm Hq Hth :=
  let w := fresh "w" in let st := fresh "st" in let ph := fresh "ph" in
  let Hw := fresh "Hw" in let Hmi := fresh "Hmi" in
  let Hqw := fresh "Hqw" in let Hmw := fresh "Hmw" in
  let Hqi := fresh "Hqi" in
  intros w st ph Hw; norm;
  pose proof (Hm _ _ Hth) as Hmi;
  first [pose proof (Hq _ _ _ Hth) as Hqi; cbn beta iota in Hqi | pose proof I as Hqi];
  lookup_thread Hth Hw
    ltac:(try done;
          try match goal with H : queue_ ?s = _ |- _ => rewrite H end;
          first [done | by left | by right | by destruct Hqi | idtac])
    ltac:(pose proof (Hq _ _ _ Hw) as Hqw; pose proof (Hm _ _ Hw) as Hmw; clear Hm Hq;
          destruct ph; try done; red_census;
          destruct Hmi as [Hmi ?]; try specialize (Hmi eq_refl);
          use_eqs;
          try match goal with |- _ ++ [_] ≠ [] => by destruct (queue_ _) end;
          try (intuition congruence)).

Lemma submitted_snoc l e :
  submitted (l ++ [e]) = submitted l ++ match e with EvSubmit _ t => [t] | _ => [] end.
Proof. unfold submitted. rewrite omap_app. by destruct e. Qed.
Lemma popped_snoc l e :
  popped (l ++ [e]) = popped l ++ match e with EvPop _ t => [t] | _ => [] end.
Proof. unfold popped. rewrite omap_app. by destruct e. Qed.
Lemma written_snoc t l e :
  written t (l ++ [e]) =
  written t l ++ match e with EvWrite t' o => if decide (t' = t) then [o] else [] | _ => [] end.
Proof. unfold written. rewrite omap_app. destruct e; try done. simpl. by case_decide. Qed.

Ltac solve_log Hl :=
  let Hl1 := fresh "Hl1" in let Hl2 := fresh "Hl2" in
  destruct Hl as [Hl1 Hl2];
  split; [|intros ?]; norm; use_eqs;
  rewrite ?submitted_snoc, ?popped_snoc, ?written_snoc, ?app_nil_r;
  unfold slot in *; norm;
  [ try (rewrite Hl1; first [done | by rewrite <- app_assoc | by rewrite ?app_nil_r | idtac])
  | try rewrite Hl2;
    rewrite ?list_lookup_insert, ?lookup_snoc_decide;
    try match goal with H : tasks ?s !! ?t = Some _ |- _ =>
      pose proof (lookup_lt_Some _ _ _ H) end;
    repeat case_decide; destruct_and?; simplify_eq;
    repeat match goal with H : tasks ?s !! ?t = _ |- context [tasks ?s !! ?t] => rewrite H end;
    cbn [mbind option_bind result_ option_list];
    repeat match goal with H : result_ ?ts = _ |- context [result_ ?ts] => rewrite H end;
    cbn [option_list app]; rewrite ?app_nil_r;
    first [done | lia | by rewrite lookup_ge_None_2 | idtac] ].

Ltac solve_task Hth Ht t0 :=
  let H0 := fresh "H0" in
  pose proof (Ht t0) as H0; clear Ht;
  unfold task_inv in *; norm; split_census Hth H0;
  use_eqs; rewrite ?q_occ_cons in H0; rewrite ?q_occ_cons;
  rewrite ?q_occ_snoc, ?tsum_snoc, ?lookup_snoc_decide, ?list_lookup_insert.


Ltac inv_split := split; [norm; try done|split; [|split; [|split]]].

Ltac on_ctx Hctx tac :=
  let stop := fresh "stop" in let t' := fresh "t'" in
  destruct Hctx as [-> | (stop & t' & ->)]; tac.

Ltac task_close Hctx :=
  try match goal with H : tasks ?s !! ?t = Some _ |- _ =>
    pose proof (lookup_lt_Some _ _ _ H) end;
  repeat case_decide; destruct_and?; simplify_eq;
  repeat match goal with
  | H : tasks ?s !! ?t = _, H0 : context [tasks ?s !! ?t] |- _ => rewrite H in H0
  | H : tasks ?s !! ?t = _ |- context [tasks ?s !! ?t] => rewrite H
  end;
  repeat match goal with
  | |- context [tasks ?s !! ?t] => destruct (tasks s !! t)
  end;
  on_ctx Hctx ltac:(red_census; red_task; arith).


Lemma get_state_ok s t i th :
  task_inv s t → threads s !! i = Some th →
  0 < c_s0 t th + c_s1 t th + c_s2 t th + c_next t th + c_run t th + c_fin t th + c_rel t th →
  ∃ ts, tasks s !! t = Some ts ∧ get_state t s = Some ts.
Proof.
  intros H0 Hth Hpos. unfold task_inv in H0. split_census Hth H0.
  unfold get_state. destruct (tasks s !! t) as [ts|]; red_task.
  - exists ts. split; [done|]. simpl. case_decide; [lia|done].
  - lia.
Qed.


Lemma notify_one_inv s i c s' :
  inv s → notify_one i c s = Some s' →
  inv s' ∧ ∀ j th, threads s !! j = Some th → is_blocked th = false → threads s' !! j = Some th.
Proof.
  intros (Hf & Hm & Hq & Hl & Ht) Hstep. unfold notify_one in Hstep.
  destruct (threads s !! c) as [[a|stop ph]|] eqn:Hc.
  1,3: destruct (existsb is_blocked (threads s)); simplify_eq;
       (split; [|by intros]); inv_split; [done|done|solve_log Hl|];
       intros t0; pose proof (Ht t0) as H0; unfold task_inv in *; norm;
       rewrite !tsum_snoc; red_census; arith.
  assert (∀ s0, (if existsb is_blocked (threads s) then None
                 else Some (add_log (EvNotifyOne i) s)) = Some s0 →
                inv s0 ∧ ∀ j th, threads s !! j = Some th → is_blocked th = false →
                                threads s0 !! j = Some th) as Hnop.
  { intros s0 E. destruct (existsb is_blocked (threads s)); simplify_eq.
    (split; [|by intros]); inv_split; [done|done|solve_log Hl|].
    intros t0; pose proof (Ht t0) as H0; unfold task_inv in *; norm.
    rewrite !tsum_snoc; red_census; arith. }
  destruct ph; try (by apply Hnop). simplify_eq. clear Hnop. split.
  - inv_split.
    + solve_mutex Hm Hc.
    + solve_queue Hm Hq Hc.
    + solve_log Hl.
    + intros t0. solve_task Hc Ht t0. red_census. arith.
  - intros j th Hj Hb. norm. rewrite list_lookup_insert_ne; [done|].
    intros ->. rewrite Hc in Hj. by simplify_eq.
Qed.

Lemma act_step_inv s i c ctx a a' s1 :
  is_ctx ctx → inv s → threads s !! i = Some (ctx a) →
  act_step i c a s = Some (a', s1) → inv (set_thread i (ctx a') s1).
Proof.
  intros Hctx (Hf & Hm & Hq & Hl & Ht) Hth Hstep.
  destruct a as [p|ph t k]; [destruct p|destruct ph]; simplify_eq/=.
  - (* Call *)
    inv_split.
    + on_ctx Hctx ltac:(solve_mutex Hm Hth).
    + on_ctx Hctx ltac:(solve_queue Hm Hq Hth).
    + solve_log Hl.
    + intros t0. solve_task Hth Ht t0.
      case_decide as Ht0.
      * assert (tasks s !! t0 = None) as E by (apply lookup_ge_None_2; lia).
        rewrite E in *. 
        destruct Hctx as [-> | (stop & t' & ->)]; red_census; red_task; arith.
      * destruct (tasks s !! t0) as [ts|];
          destruct Hctx as [-> | (stop & t' & ->)]; red_census; red_task; arith.
  - (* Get *)
    destruct (tasks s !! h) as [ts|] eqn:Hts; simplify_eq/=.
    case_decide; [done|].
    destruct (result_ ts) as [[v|e]|] eqn:Hr; simplify_eq/=.
    all: inv_split;
      [ on_ctx Hctx ltac:(solve_mutex Hm Hth)
      | on_ctx Hctx ltac:(solve_queue Hm Hq Hth)
      | solve_log Hl
      | intros t0; solve_task Hth Ht t0; task_close Hctx ].
  - (* Drop *)
    destruct (tasks s !! h) as [ts|] eqn:Hts; simplify_eq/=.
    case_decide; [done|]. simplify_eq.
    inv_split.
    + on_ctx Hctx ltac:(solve_mutex Hm Hth).
    + on_ctx Hctx ltac:(solve_queue Hm Hq Hth).
    + solve_log Hl.
    + intros t0; solve_task Hth Ht t0; task_close Hctx.
  - (* Printf *)
    inv_split;
      [ on_ctx Hctx ltac:(solve_mutex Hm Hth)
      | on_ctx Hctx ltac:(solve_queue Hm Hq Hth)
      | solve_log Hl
      | intros t0; solve_task Hth Ht t0; task_close Hctx ].
  - (* SGetState *)
    destruct (get_state_ok s t i _ (Ht t) Hth) as (ts & Hts & Hgs).
    { on_ctx Hctx ltac:(red_census; arith). }
    rewrite Hgs in Hstep. simplify_eq. inv_split.
    + on_ctx Hctx ltac:(solve_mutex Hm Hth).
    + on_ctx Hctx ltac:(solve_queue Hm Hq Hth).
    + solve_log Hl.
    + intros t0; solve_task Hth Ht t0; task_close Hctx.
  - (* SLock *)
    destruct (mutex_ s) eqn:Hmx; simplify_eq. inv_split.
    + on_ctx Hctx ltac:(solve_mutex Hm Hth).
    + on_ctx Hctx ltac:(solve_queue Hm Hq Hth).
    + solve_log Hl. 
    + intros t0; solve_task Hth Ht t0; task_close Hctx.
  - (* SPush *)
    inv_split.
    + on_ctx Hctx ltac:(solve_mutex Hm Hth).
    + on_ctx Hctx ltac:(solve_queue Hm Hq Hth).
    + solve_log Hl.
    + intros t0; solve_task Hth Ht t0; task_close Hctx.
  - (* SUnlock *)
    inv_split.
    + on_ctx Hctx ltac:(solve_mutex Hm Hth).
    + on_ctx Hctx ltac:(solve_queue Hm Hq Hth).
    + solve_log Hl. 
    + intros t0; solve_task Hth Ht t0; task_close Hctx.
  - (* SNotify *)
    destruct (notify_one i c s) as [s2|] eqn:Hn; simplify_eq/=.
    destruct (notify_one_inv _ _ _ _ (conj Hf (conj Hm (conj Hq (conj Hl Ht)))) Hn)
      as [(Hf2 & Hm2 & Hq2 & Hl2 & Ht2) Hsame].
    apply Hsame in Hth; [|by on_ctx Hctx ltac:(idtac)].
    clear Hf Hm Hq Hl Ht Hsame Hn.
    destruct (tasks s2 !! t) as [ts|] eqn:Hts; simplify_eq/=.
    inv_split.
    + on_ctx Hctx ltac:(solve_mutex Hm2 Hth).
    + on_ctx Hctx ltac:(solve_queue Hm2 Hq2 Hth).
    + solve_log Hl2.
    + intros t0; solve_task Hth Ht2 t0; task_close Hctx.
Qed.


Lemma execute_ok s t w stop :
  task_inv s t → threads s !! w = Some (Worker stop (WExecute t)) →
  ∃ r body u o, tasks s !! t = Some (TaskState true r (FSuspended body) u o).
Proof.
  intros H0 Hth. unfold task_inv in H0. split_census Hth H0. red_census.
  destruct (tasks s !! t) as [[[] r [body| |] u o]|]; red_task; arith.
  by exists r, body, u, o.
Qed.

Lemma running_ok s t w stop a :
  task_inv s t → threads s !! w = Some (Worker stop (WRunning t a)) →
  ∃ ts, tasks s !! t = Some ts ∧ get_state t s = Some ts ∧ result_ ts = None.
Proof.
  intros H0 Hth.
  destruct (get_state_ok s t w _ H0 Hth) as (ts & Hts & Hgs); [red_census; arith|].
  exists ts. split; [done|]. split; [done|].
  unfold task_inv in H0. split_census Hth H0. red_census. rewrite Hts in H0.
  red_task. destruct (result_ ts), (frame ts); try done; arith.
Qed.

Ltac inv_worker Hf Hm Hq Hl Ht Hth :=
  inv_split;
  [ solve_mutex Hm Hth
  | solve_queue Hm Hq Hth
  | solve_log Hl
  | let t0 := fresh "t0" in
    intros t0; solve_task Hth Ht t0;
    try match goal with H : tasks ?s !! ?t = Some _ |- _ =>
      pose proof (lookup_lt_Some _ _ _ H) end;
    repeat case_decide; destruct_and?; simplify_eq;
    repeat match goal with
    | H : tasks ?s !! ?t = _, H0 : context [tasks ?s !! ?t] |- _ => rewrite H in H0
    | H : tasks ?s !! ?t = _ |- context [tasks ?s !! ?t] => rewrite H
    end;
    repeat match goal with
    | |- context [tasks ?s !! ?t] => destruct (tasks s !! t)
    end;
    red_census; red_task; arith ].

Lemma worker_step_inv s w c stop ph s' :
  inv s → threads s !! w = Some (Worker stop ph) →
  worker_step w c stop ph s = Some s' → inv s'.
Proof.
  intros (Hf & Hm & Hq & Hl & Ht) Hth Hstep.
  destruct ph; simpl in Hstep.
  - (* WTop *)
    destruct (mutex_ s) eqn:Hmx; simplify_eq. inv_worker Hf Hm Hq Hl Ht Hth.
  - (* WLocked *)
    simplify_eq. destruct (queue_ s) eqn:Hqs; inv_worker Hf Hm Hq Hl Ht Hth.
  - (* WWaitEntry *)
    destruct stop; [|destruct (queue_ s) eqn:Hqs]; simplify_eq;
      inv_worker Hf Hm Hq Hl Ht Hth.
  - done.
  - (* WWoken *)
    destruct (mutex_ s) eqn:Hmx; simplify_eq. inv_worker Hf Hm Hq Hl Ht Hth.
  - (* WAfterWait *)
    destruct stop; simplify_eq; inv_worker Hf Hm Hq Hl Ht Hth.
  - (* WPop *)
    destruct (queue_ s) as [|t q] eqn:Hqs; [by destruct (Hq _ _ _ Hth)|].
    simplify_eq. inv_worker Hf Hm Hq Hl Ht Hth.
  - (* WUnlock *)
    simplify_eq. inv_worker Hf Hm Hq Hl Ht Hth.
  - (* WExecute *)
    destruct (execute_ok s next w stop (Ht next) Hth) as (r & body & u & o & Hts).
    unfold execute in Hstep. rewrite Hts in Hstep. simplify_eq.
    inv_worker Hf Hm Hq Hl Ht Hth.
  - (* WRunning *)
    destruct (running_ok s next w stop a (Ht next) Hth) as (ts & Hts & Hgs & Hr).
    destruct a as [p|sp t k]; [destruct p|].
    1: { unfold return_value in Hstep. rewrite Hgs, Hr in Hstep. simplify_eq/=.
         inv_worker Hf Hm Hq Hl Ht Hth. }
    1: { unfold unhandled_exception in Hstep. rewrite Hgs, Hr in Hstep. simplify_eq/=.
         inv_worker Hf Hm Hq Hl Ht Hth. }
    all: destruct (act_step w c _ s) as [[a' s1]|] eqn:Hact; [|done];
      cbn in Hstep; injection Hstep as <-;
      eapply (act_step_inv s w c (λ a, Worker stop (WRunning next a)));
      [right; eauto | done | exact Hth | exact Hact].
  - (* WFinalSuspend *)
    destruct (get_state_ok s next w _ (Ht next) Hth) as (ts & Hts & Hgs);
      [red_census; arith|].
    unfold final_suspend in Hstep. rewrite Hgs in Hstep. simplify_eq.
    inv_worker Hf Hm Hq Hl Ht Hth.
  - (* WRelease *)
    destruct (get_state_ok s next w _ (Ht next) Hth) as (ts & Hts & Hgs);
      [red_census; arith|].
    rewrite Hts in Hstep. simplify_eq/=.
    inv_worker Hf Hm Hq Hl Ht Hth.
  - done.
Qed.

Lemma inv_step s l s' : inv s → step l s = Some s' → inv s'.
Proof.
  intros Hinv Hstep. unfold step in Hstep.
  destruct (failed s) eqn:Hfail; [done|].
  destruct l as [i c|w|w].
  - destruct (threads s !! i) as [[a|stop ph]|] eqn:Hth; simplify_eq/=.
    + destruct (act_step i c a s) as [[a' s1]|] eqn:Hact; simplify_eq/=.
      eapply (act_step_inv s i c Client); [by left|done|exact Hth|exact Hact].
    + by eapply worker_step_inv.
  - destruct (threads s !! w) as [[a|stop []]|] eqn:Hth; simplify_eq.
    destruct Hinv as (Hf & Hm & Hq & Hl & Ht).
    inv_worker Hf Hm Hq Hl Ht Hth.
  - destruct (threads s !! w) as [[a|[] ph]|] eqn:Hth; simplify_eq.
    destruct Hinv as (Hf & Hm & Hq & Hl & Ht).
    destruct ph; cbn [wake]; inv_worker Hf Hm Hq Hl Ht Hth.
Qed.

Lemma inv_init n mains : inv (init n mains).
Proof.
  assert (∀ f : thread → nat,
    (∀ p, f (Client (Run p)) = 0) → f (Worker false WTop) = 0 →
    tsum f (threads (init n mains)) = 0) as Hz.
  { intros f Hc Hw. unfold init; cbn [threads]. rewrite tsum_app.
    assert (tsum f (Client ∘ Run <$> mains) = 0) as ->.
    { induction mains as [|p ps IH]; [done|]. unfold tsum in *. simpl. rewrite Hc. exact IH. }
    induction n as [|n IH]; [done|]. unfold tsum in *. simpl. rewrite Hw. exact IH. }
  inv_split.
  - intros j th Hj. cbn [init threads mutex_] in *.
    apply list_elem_of_lookup_2, elem_of_app in Hj as [Hj|Hj].
    + apply list_elem_of_fmap in Hj as (p & -> & _). done.
    + apply elem_of_replicate in Hj as [-> _]. done.
  - intros w stop ph Hw. cbn [init threads] in Hw.
    apply list_elem_of_lookup_2, elem_of_app in Hw as [Hw|Hw].
    + apply list_elem_of_fmap in Hw as (p & ? & _). done.
    + apply elem_of_replicate in Hw as [? _]. by simplify_eq.
  - split; [done|]. intros t. unfold slot. cbn. by rewrite lookup_nil.
  - intros t. unfold task_inv. rewrite !Hz by done.
    cbn [init tasks queue_ log]. rewrite lookup_nil. done.
Qed.

Lemma reachable_inv s0 s : inv s0 → reachable s0 s → inv s.
Proof. induction 2; eauto using inv_step. Qed.


(** ** What one step does to the log and the tasks *)

Ltac step_inv Hstep :=
  unfold step, worker_step, act_step, return_value, unhandled_exception, final_suspend,
    execute, notify_one, get_state in Hstep;
  repeat (simplify_option_eq || case_match); norm.

Lemma step_event s l s' :
  step l s = Some s' →
  log s' = log s ∨ ∃ e, log s' = log s ++ [e] ∧ event_sem s e s'.
Proof.
  intros Hstep. step_inv Hstep; first [by left | right; eexists; split; [done|]];
    unfold event_sem, slot; norm; cbn [holds act_of]; eauto 10.
  all: unfold Promise.get, Promise.set_value, Promise.set_exception in *;
    repeat case_match; simplify_eq;
    repeat match goal with H : tasks _ !! _ = Some _ |- _ =>
      rewrite H; pose proof (lookup_lt_Some _ _ _ H); clear H end;
    rewrite ?list_lookup_insert_eq by done; cbn; repeat split; try done;
    intros; by rewrite list_lookup_insert_ne.
Qed.

Lemma step_log s l s' :
  step l s = Some s' → log s' = log s ∨ ∃ e, log s' = log s ++ [e].
Proof. intros [?|[e [? _]]]%step_event; eauto. Qed.

Lemma reachable_trans s0 s s' : reachable s0 s → reachable s s' → reachable s0 s'.
Proof. induction 2; eauto using reachable. Qed.

Lemma exec_reachable ls s s' : exec ls s = Some s' → reachable s s'.
Proof.
  revert s. induction ls as [|l ls IH]; intros s H; simplify_eq/=.
  - constructor.
  - destruct (step l s) as [s1|] eqn:Hs; simplify_eq/=.
    eapply reachable_trans; [|by apply IH]. by econstructor; [constructor|].
Qed.

Lemma reachable_exec s s' : reachable s s' → ∃ ls, exec ls s = Some s'.
Proof.
  induction 1 as [|s1 l s2 _ [ls IH] Hs].
  - by exists [].
  - exists (ls ++ [l]). revert IH. generalize s. clear -Hs.
    induction ls as [|l' ls IH]; intros s0 H; simplify_eq/=.
    + by rewrite Hs.
    + destruct (step l' s0); simplify_eq/=. by apply IH.
Qed.

Lemma exec_inv n mains ls s : exec ls (init n mains) = Some s → inv s.
Proof. intros H. eapply reachable_inv; [apply inv_init|by eapply exec_reachable]. Qed.

Lemma exec_app ls1 ls2 s : exec (ls1 ++ ls2) s = exec ls1 s ≫= exec ls2.
Proof.
  revert s. induction ls1 as [|l ls1 IH]; intros s; simpl; [done|].
  destruct (step l s); simpl; [apply IH|done].
Qed.

Lemma exec_snoc ls l s s1 s2 :
  exec ls s = Some s1 → step l s1 = Some s2 → exec (ls ++ [l]) s = Some s2.
Proof. intros H1 H2. rewrite exec_app, H1. simpl. by rewrite H2. Qed.

Lemma reachable_log s s' : reachable s s' → ∃ es, log s' = log s ++ es.
Proof.
  induction 1 as [|s1 l s2 _ [es IH] Hs].
  - exists []. by rewrite app_nil_r.
  - destruct (step_log _ _ _ Hs) as [E|[e E]]; rewrite E, IH.
    + by exists es.
    + exists (es ++ [e]). by rewrite app_assoc.
Qed.

Lemma written_app t l k : written t (l ++ k) = written t l ++ written t k.
Proof. apply omap_app. Qed.

(** A slot that holds an outcome keeps it. *)
Lemma slot_stable s s' t o :
  inv s → reachable s s' → slot s t = Some o → slot s' t = Some o.
Proof.
  intros Hinv Hr Hs. pose proof (reachable_inv _ _ Hinv Hr) as Hinv'.
  destruct Hinv as (_ & _ & _ & [_ Hw] & _), Hinv' as (_ & _ & _ & [_ Hw'] & _).
  destruct (reachable_log _ _ Hr) as [es E].
  specialize (Hw t). specialize (Hw' t). rewrite E, written_app, Hw, Hs in Hw'.
  destruct (slot s' t); simplify_eq/=. done.
Qed.

Lemma reads_step s l s' : inv s → reads_inv s → step l s = Some s' → reads_inv s'.
Proof.
  intros Hinv Hr Hstep i t o Hin.
  assert (reachable s s') as Hreach by (econstructor; [constructor|done]).
  destruct (step_event _ _ _ Hstep) as [E|(e & E & He)]; rewrite E in Hin.
  - eapply slot_stable; eauto.
  - apply elem_of_app in Hin as [Hin|Hin%list_elem_of_singleton].
    + eapply slot_stable; eauto.
    + subst e. destruct He as [Hs Ht]. unfold slot in *. by rewrite Ht.
Qed.

Lemma exec_reads n mains ls s : exec ls (init n mains) = Some s → reads_inv s.
Proof.
  intros H%exec_reachable.
  assert (inv s ∧ reads_inv s) as [_ ?]; [|done].
  induction H as [|s1 l s2 Hr [IH1 IH2] Hs].
  - split; [apply inv_init|]. intros i t o Hin. by apply elem_of_nil in Hin.
  - split; [by eapply inv_step|by eapply reads_step].
Qed.

Lemma tsum_elem {A} (f : A → nat) l x : x ∈ l → f x ≤ tsum f l.
Proof. apply sum_list_with_in. Qed.

Lemma tsum_zero_elem {A} (f : A → nat) l x : tsum f l = 0 → x ∈ l → f x = 0.
Proof. intros H Hin. pose proof (tsum_elem f l x Hin). lia. Qed.

Lemma order_step s l s' t : inv s → order_inv s t → step l s = Some s' → order_inv s' t.
Proof.
  intros Hinv Ho Hstep pre post w E.
  pose proof (inv_step _ _ _ Hinv Hstep) as Hinv'.
  destruct (step_log _ _ _ Hstep) as [E'|[e E']]; rewrite E' in E; [by eapply Ho|].
  destruct post as [|e' post' _] using rev_ind.
  { apply not_elem_of_nil. }
  rewrite app_comm_cons, app_assoc in E. apply app_inj_tail in E as [E Ee]. subst e'.
  intros [Hin|Hin%list_elem_of_singleton]%elem_of_app; [by eapply Ho|]. subst e.
  destruct Hinv as (_ & _ & _ & _ & Ht), Hinv' as (_ & _ & _ & _ & Ht').
  specialize (Ht t). specialize (Ht' t). unfold task_inv in *.
  rewrite E', E in Ht'. rewrite E in Ht.
  rewrite ?tsum_app, ?tsum_cons, ?tsum_nil in Ht, Ht'.
  cbn [is_resume is_invalidate] in *.
  unfold ind in *. repeat case_decide; try done.
  destruct (tasks s !! t) as [[? ? [] ? ?]|], (tasks s' !! t) as [[? ? [] ? ?]|];
    red_task; lia.
Qed.


Lemma exec_order n mains ls s t : exec ls (init n mains) = Some s → order_inv s t.
Proof.
  intros H%exec_reachable.
  assert (inv s ∧ order_inv s t) as [_ ?]; [|done].
  induction H as [|s1 l s2 Hr [IH1 IH2] Hs].
  - split; [apply inv_init|]. intros pre post w E. by destruct pre.
  - split; [by eapply inv_step|by eapply order_step].
Qed.

Lemma step_return s w c stop t v :
  inv s → threads s !! w = Some (Worker stop (WRunning t (Run (Ret v)))) →
  ∃ ts, tasks s !! t = Some ts ∧ result_ ts = None ∧
    step (Step w c) s =
      Some (add_log (EvWrite t (Value v))
             (set_thread w (Worker stop (WFinalSuspend t))
               (set_task t (TaskState (handle_ ts) (Some (Value v)) (frame ts)
                                      (use_count ts) (owners ts)) s))).
Proof.
  intros (Hf & _ & _ & _ & Ht) Hth.
  destruct (running_ok s t w stop _ (Ht t) Hth) as (ts & Hts & Hgs & Hr).
  exists ts. split; [done|]. split; [done|].
  unfold step. rewrite Hf, Hth. simpl. unfold return_value. by rewrite Hgs, Hr.
Qed.

Lemma step_throw s w c stop t e :
  inv s → threads s !! w = Some (Worker stop (WRunning t (Run (Throw e)))) →
  ∃ ts, tasks s !! t = Some ts ∧ result_ ts = None ∧
    step (Step w c) s =
      Some (add_log (EvWrite t (Failure e))
             (set_thread w (Worker stop (WFinalSuspend t))
               (set_task t (TaskState (handle_ ts) (Some (Failure e)) (frame ts)
                                      (use_count ts) (owners ts)) s))).
Proof.
  intros (Hf & _ & _ & _ & Ht) Hth.
  destruct (running_ok s t w stop _ (Ht t) Hth) as (ts & Hts & Hgs & Hr).
  exists ts. split; [done|]. split; [done|].
  unfold step. rewrite Hf, Hth. simpl. unfold unhandled_exception. by rewrite Hgs, Hr.
Qed.

Lemma get_step s i c t kv ke a' s' :
  act_step i c (Run (Get t kv ke)) s = Some (a', s') →
  tasks s' = tasks s ∧
  ∃ o, slot s t = Some o ∧ a' = Run (match o with Value v => kv v | Failure e => ke e end).
Proof.
  unfold slot. simpl. intros H.
  destruct (tasks s !! t) as [ts|]; simplify_eq/=. case_decide; [done|].
  unfold Promise.get in H. destruct (result_ ts) as [[v|e]|]; simplify_eq/=; eauto.
Qed.

Lemma get_blocks s i c t kv ke :
  slot s t = None → act_step i c (Run (Get t kv ke)) s = None.
Proof.
  unfold slot. simpl. intros H.
  destruct (tasks s !! t) as [ts|]; simplify_eq/=; [|done]. case_decide; [done|].
  unfold Promise.get. by rewrite H.
Qed.

(** C1. Single delivery: the history of a slot has exactly the write
    that filled it, by [co_return] or by an escaping exception; a finished
    task has been written exactly once; a read blocks while the slot is
    empty, returns its content without changing any task state, and every
    read, then and later, sees the same outcome. *)
Theorem single_delivery n mains ls s t :
  exec ls (init n mains) = Some s →
  written t (log s) = option_list (slot s t)
  ∧ (∀ ts, tasks s !! t = Some ts → frame ts = FDestroyed →
       ∃ o, written t (log s) = [o] ∧ slot s t = Some o)
  ∧ (∀ w c stop v, threads s !! w = Some (Worker stop (WRunning t (Run (Ret v)))) →
       slot s t = None ∧
       ∃ s', step (Step w c) s = Some s' ∧ slot s' t = Some (Value v)
             ∧ written t (log s') = [Value v])
  ∧ (∀ w c stop e, threads s !! w = Some (Worker stop (WRunning t (Run (Throw e)))) →
       slot s t = None ∧
       ∃ s', step (Step w c) s = Some s' ∧ slot s' t = Some (Failure e)
             ∧ written t (log s') = [Failure e])
  ∧ (∀ i o, EvRead i t o ∈ log s → slot s t = Some o)
  ∧ (slot s t = None → ∀ i c kv ke, act_step i c (Run (Get t kv ke)) s = None)
  ∧ (∀ i c kv ke a' s', act_step i c (Run (Get t kv ke)) s = Some (a', s') →
       tasks s' = tasks s ∧
       ∃ o, slot s t = Some o
            ∧ a' = Run (match o with Value v => kv v | Failure e => ke e end))
  ∧ (∀ ls' s' o, exec ls' s = Some s' → slot s t = Some o → slot s' t = Some o).
Proof.
  intros Hexec. pose proof (exec_inv _ _ _ _ Hexec) as Hinv.
  pose proof Hinv as (Hf & _ & _ & [_ Hw] & Ht).
  split; [done|]. split; [|split; [|split; [|split; [|split; [|split]]]]].
  - intros ts Hts Hfr. specialize (Ht t). unfold task_inv in Ht. rewrite Hts in Ht.
    specialize (Hw t). unfold slot in *. rewrite Hts in *. red_task. rewrite Hfr in Ht.
    destruct (result_ ts) as [o|]; [by exists o|lia].
  - intros w c stop v Hth.
    destruct (step_return s w c stop t v Hinv Hth) as (ts & Hts & Hr & Hs).
    split; [by unfold slot; rewrite Hts|].
    eexists. split; [exact Hs|].
    assert (slot (add_log (EvWrite t (Value v))
              (set_thread w (Worker stop (WFinalSuspend t))
                 (set_task t (TaskState (handle_ ts) (Some (Value v)) (frame ts)
                    (use_count ts) (owners ts)) s))) t = Some (Value v)) as Hslot.
    { unfold slot. norm. rewrite list_lookup_insert_eq; [done|by eapply lookup_lt_Some]. }
    split; [done|].
    assert (inv (add_log (EvWrite t (Value v))
              (set_thread w (Worker stop (WFinalSuspend t))
                 (set_task t (TaskState (handle_ ts) (Some (Value v)) (frame ts)
                    (use_count ts) (owners ts)) s)))) as (_ & _ & _ & [_ Hw'] & _)
      by (by eapply inv_step).
    by rewrite Hw', Hslot.
  - intros w c stop e Hth.
    destruct (step_throw s w c stop t e Hinv Hth) as (ts & Hts & Hr & Hs).
    split; [by unfold slot; rewrite Hts|].
    eexists. split; [exact Hs|].
    assert (slot (add_log (EvWrite t (Failure e))
              (set_thread w (Worker stop (WFinalSuspend t))
                 (set_task t (TaskState (handle_ ts) (Some (Failure e)) (frame ts)
                    (use_count ts) (owners ts)) s))) t = Some (Failure e)) as Hslot.
    { unfold slot. norm. rewrite list_lookup_insert_eq; [done|by eapply lookup_lt_Some]. }
    split; [done|].
    assert (inv (add_log (EvWrite t (Failure e))
              (set_thread w (Worker stop (WFinalSuspend t))
                 (set_task t (TaskState (handle_ ts) (Some (Failure e)) (frame ts)
                    (use_count ts) (owners ts)) s)))) as (_ & _ & _ & [_ Hw'] & _)
      by (by eapply inv_step).
    by rewrite Hw', Hslot.
  - intros i o. by apply (exec_reads _ _ _ _ Hexec).
  - intros Hs i c kv ke. by apply get_blocks.
  - intros i c kv ke a' s'. apply get_step.
  - intros ls' s' o Hexec' Hs. eapply slot_stable; eauto using exec_reachable.
Qed.

Lemma single_delivery_witness :
  written 0 (log (run 14 (init 2 [add_main]))) = [Value 7]
  ∧ EvRead 0 0 (Value 7) ∈ log (run 14 (init 2 [add_main])).
Proof.
  destruct (single_delivery 2 [add_main] (run_trace 14 (init 2 [add_main]))
              (run 14 (init 2 [add_main])) 0) as (Hw & _).
  - vm_compute. reflexivity.
  - split; [exact Hw|]. vm_compute. repeat constructor.
Defined.

Lemma q_occ_zero t q : q_occ t q = 0 → t ∉ q.
Proof.
  intros H Hin. pose proof (tsum_elem (λ t', ind (t' = t)) q t Hin) as Hle.
  unfold q_occ in H. rewrite H in Hle. unfold ind in Hle.
  rewrite decide_True in Hle by done. lia.
Qed.

(** C2. No double-resume: a finished task has a null handle and only a
    finished task has; a task is resumed at most once; in the history no
    resumption of a task follows the nulling of its handle; [execute] is
    only ever called on a suspended task with a valid handle; and nothing
    that names a finished task is left in the queue or about to be
    executed. *)
Theorem no_double_resume n mains ls s t :
  exec ls (init n mains) = Some s →
  (∀ ts, tasks s !! t = Some ts → (frame ts = FDestroyed ↔ handle_ ts = false))
  ∧ (tsum (is_resume t) (log s) ≤ 1)%nat
  ∧ (∀ pre post w, log s = pre ++ EvInvalidate t :: post → EvResume w t ∉ post)
  ∧ (∀ w stop, threads s !! w = Some (Worker stop (WExecute t)) →
       ∃ r body u o, tasks s !! t = Some (TaskState true r (FSuspended body) u o))
  ∧ (∀ ts, tasks s !! t = Some ts → handle_ ts = false →
       (t ∉ queue_ s)
       ∧ ∀ w stop ph, threads s !! w = Some (Worker stop ph) →
           ph ≠ WUnlock t ∧ ph ≠ WExecute t ∧ resumed_task ph ≠ Some t)
  ∧ failed s = None.
Proof.
  intros Hexec. pose proof (exec_inv _ _ _ _ Hexec) as Hinv.
  pose proof Hinv as (Hf & _ & _ & _ & Ht).
  pose proof (Ht t) as H0. unfold task_inv in H0.
  split; [|split; [|split; [|split; [|split]]]].
  - intros ts Hts. rewrite Hts in H0. red_task.
    destruct (frame ts), (handle_ ts); split; intros; try done; lia.
  - destruct (tasks s !! t) as [[? ? [] ? ?]|]; red_task; lia.
  - apply (exec_order _ _ _ _ t Hexec).
  - intros w stop Hth. by eapply execute_ok.
  - intros ts Hts Hh. rewrite Hts in H0. red_task. rewrite Hh in H0.
    assert (frame ts = FDestroyed) as Hfr by (destruct (frame ts); [lia|lia|done]).
    rewrite Hfr in H0. split; [apply q_occ_zero; lia|].
    intros w stop ph Hth. split_census Hth H0. red_census.
    destruct ph; cbn [resumed_task]; repeat split; try done;
      intros ?; simplify_eq; unfold ind in *; rewrite decide_True in H0 by done; lia.
  - done.
Qed.

Lemma no_double_resume_witness :
  (tsum (is_resume 0) (log (run 14 (init 2 [add_main]))) ≤ 1)%nat.
Proof.
  destruct (no_double_resume 2 [add_main] (run_trace 14 (init 2 [add_main]))
              (run 14 (init 2 [add_main])) 0) as (_ & H & _).
  - vm_compute. reflexivity.
  - exact H.
Defined.

(** C3. Failure isolation and re-raise: when the body of task [t] ends in
    an exception [e], the next step of its worker stores [e] in the slot
    of [t] and changes no other task (nor faults the pool); from then on
    the slot holds [e], and every [get_result] on [t] continues in the
    reader with the same [e] raised. *)
Theorem failure_isolation n mains ls s w stop t e c :
  exec ls (init n mains) = Some s →
  threads s !! w = Some (Worker stop (WRunning t (Run (Throw e)))) →
  ∃ s', step (Step w c) s = Some s'
    ∧ slot s' t = Some (Failure e)
    ∧ (∀ t', t' ≠ t → tasks s' !! t' = tasks s !! t')
    ∧ failed s' = None
    ∧ ∀ ls' s'', exec ls' s' = Some s'' →
        slot s'' t = Some (Failure e)
        ∧ ∀ i c' kv ke a' s3,
            act_step i c' (Run (Get t kv ke)) s'' = Some (a', s3) → a' = Run (ke e).
Proof.
  intros Hexec Hth. pose proof (exec_inv _ _ _ _ Hexec) as Hinv.
  destruct (step_throw s w c stop t e Hinv Hth) as (ts & Hts & Hr & Hs).
  eexists. split; [exact Hs|].
  pose proof (inv_step _ _ _ Hinv Hs) as Hinv'.
  assert (slot (add_log (EvWrite t (Failure e))
            (set_thread w (Worker stop (WFinalSuspend t))
               (set_task t (TaskState (handle_ ts) (Some (Failure e)) (frame ts)
                  (use_count ts) (owners ts)) s))) t = Some (Failure e)) as Hslot.
  { unfold slot. norm. rewrite list_lookup_insert_eq; [done|by eapply lookup_lt_Some]. }
  split; [done|]. split; [|split].
  - intros t' Hne. norm. by rewrite list_lookup_insert_ne.
  - apply Hinv'.
  - intros ls' s'' Hexec'.
    assert (slot s'' t = Some (Failure e)) as Hs''
      by (eapply slot_stable; eauto using exec_reachable).
    split; [done|]. intros i c' kv ke a' s3 Hget.
    apply get_step in Hget as (_ & o & Ho & ->). rewrite Hs'' in Ho. by simplify_eq.
Qed.

Lemma failure_isolation_witness :
  ∃ s', step (Step 1 0) (run 11 (init 2 [throw_main])) = Some s'
        ∧ slot s' 0 = Some (Failure (user_exception 1)).
Proof.
  destruct (failure_isolation 2 [throw_main] (run_trace 11 (init 2 [throw_main]))
              (run 11 (init 2 [throw_main])) 1 false 0 (user_exception 1) 0)
    as (s' & Hs & Hslot & _).
  - vm_compute. reflexivity.
  - vm_compute. reflexivity.
  - exists s'. by split.
Defined.

(** C9. The state outlives its resumption: while a worker is inside the
    coroutine of [t] (its body, or final_suspend), [get_state] finds the
    state alive, because the strong count exceeds the number of user
    handles by the worker's own reference; so the calls of [get_state] in
    return_value, unhandled_exception and final_suspend do not fail their
    assertion. *)
Theorem get_state_succeeds n mains ls s w stop ph t :
  exec ls (init n mains) = Some s →
  threads s !! w = Some (Worker stop ph) →
  resumed_task ph = Some t →
  (∃ ts, get_state t s = Some ts ∧ tasks s !! t = Some ts
         ∧ (owners ts < use_count ts)%nat)
  ∧ (∀ v, failed (return_value w stop t v s) ≠ Some AssertState)
  ∧ (∀ e, failed (unhandled_exception w stop t e s) ≠ Some AssertState)
  ∧ failed (final_suspend w stop t s) ≠ Some AssertState
  ∧ failed s = None.
Proof.
  intros Hexec Hth Hph. pose proof (exec_inv _ _ _ _ Hexec) as Hinv.
  pose proof Hinv as (Hf & _ & _ & _ & Ht).
  destruct (get_state_ok s t w _ (Ht t) Hth) as (ts & Hts & Hgs).
  { destruct ph; simplify_eq/=; unfold ind; rewrite decide_True by done; lia. }
  split; [|split; [|split; [|split]]].
  - exists ts. split; [done|]. split; [done|].
    specialize (Ht t). unfold task_inv in Ht. split_census Hth Ht. rewrite Hts in Ht.
    red_task. destruct ph; simplify_eq/=; red_census; unfold ind in *;
      rewrite decide_True in Ht by done; lia.
  - intros v. unfold return_value. rewrite Hgs.
    destruct (Promise.set_value v (result_ ts)); norm; by rewrite Hf.
  - intros e. unfold unhandled_exception. rewrite Hgs.
    destruct (Promise.set_exception e (result_ ts)); norm; [done|by rewrite Hf].
  - unfold final_suspend. rewrite Hgs. norm. by rewrite Hf.
  - done.
Qed.

Lemma get_state_succeeds_witness :
  ∃ ts, get_state 0 (run 15 (init 2 [add_main])) = Some ts
        ∧ owners ts = 0%nat ∧ use_count ts = 1%nat.
Proof.
  destruct (get_state_succeeds 2 [add_main] (run_trace 15 (init 2 [add_main]))
              (run 15 (init 2 [add_main])) 1 false (WFinalSuspend 0) 0)
    as ((ts & Hgs & _) & _).
  - vm_compute. reflexivity.
  - vm_compute. reflexivity.
  - reflexivity.
  - exists ts. split; [exact Hgs|]. vm_compute in Hgs. by simplify_eq.
Defined.


(** C10. A second write is rejected: on a satisfied promise [set_value]
    and [set_exception] raise [promise_already_satisfied] and store
    nothing; so [return_value] leaves every task as it is and continues
    with that error raised in the coroutine, [unhandled_exception] leaves
    every task as it is while the error escapes, and readers still get
    the first outcome. *)
Theorem second_write_rejected w stop t v e o ts s :
  get_state t s = Some ts → result_ ts = Some o →
  Promise.set_value v (result_ ts) = inl (future_error promise_already_satisfied)
  ∧ Promise.set_exception e (result_ ts) = inl (future_error promise_already_satisfied)
  ∧ return_value w stop t v s =
      set_thread w (Worker stop (WRunning t
        (Run (Throw (future_error promise_already_satisfied))))) s
  ∧ unhandled_exception w stop t e s = set_failed Terminate s
  ∧ tasks (return_value w stop t v s) = tasks s
  ∧ tasks (unhandled_exception w stop t e s) = tasks s
  ∧ Promise.get (slot (return_value w stop t v s) t) = Some o
  ∧ Promise.get (slot (unhandled_exception w stop t e s) t) = Some o.
Proof.
  intros Hgs Hr.
  assert (slot s t = Some o) as Hslot.
  { unfold get_state in Hgs. unfold slot. destruct (tasks s !! t) as [ts'|]; simplify_eq/=.
    case_decide; by simplify_eq. }
  unfold return_value, unhandled_exception. rewrite Hgs, Hr. simpl. by repeat split.
Qed.

Lemma second_write_rejected_witness :
  Promise.get (slot (return_value 0 false 0 9
    (State [TaskState true (Some (Value 7)) FRunning 1 0] [] None
           [Worker false (WRunning 0 (Run (Ret 9)))] [] [] None)) 0) = Some (Value 7).
Proof.
  apply (second_write_rejected 0 false 0 9 (user_exception 0) (Value 7)
           (TaskState true (Some (Value 7)) FRunning 1 0)); reflexivity.
Defined.


Lemma step_in_ctx s i c ctx a :
  is_ctx ctx → failed s = None → threads s !! i = Some (ctx a) →
  (∀ v, a ≠ Run (Ret v)) → (∀ e, a ≠ Run (Throw e)) →
  step (Step i c) s =
    act_step i c a s ≫= λ '(a', s'), Some (set_thread i (ctx a') s').
Proof.
  intros Hctx Hf Hth Hr He. unfold step. rewrite Hf, Hth.
  destruct Hctx as [-> | (stop & t & ->)]; simpl; [done|].
  destruct a as [[]|]; try done; [by destruct (Hr v)|by destruct (He e)].
Qed.

Lemma first_blocked_lookup ths :
  match ths !! first_blocked ths with
  | Some th => is_blocked th = true
  | None => existsb is_blocked ths = false
  end.
Proof.
  induction ths as [|th ths IH]; simpl; [done|].
  destruct (is_blocked th) eqn:E; simpl; [done|exact IH].
Qed.

Lemma first_blocked_insert ths i th th' :
  ths !! i = Some th → is_blocked th = false → is_blocked th' = false →
  first_blocked (<[i:=th']> ths) = first_blocked ths.
Proof.
  revert i. induction ths as [|x ths IH]; intros [|i] H Hb Hb'; simplify_eq/=.
  - by rewrite Hb, Hb'.
  - destruct (is_blocked x); [done|]. f_equal. by eapply IH.
Qed.

(** [notify_one] with the scheduler's choice: it wakes the first blocked
    worker, if there is one, and has no other effect on the threads. *)
Lemma notify_first s i :
  ∃ s', notify_one i (first_blocked (threads s)) s = Some s'
    ∧ tasks s' = tasks s ∧ queue_ s' = queue_ s ∧ mutex_ s' = mutex_ s
    ∧ failed s' = failed s ∧ out s' = out s
    ∧ log s' = log s ++ [EvNotifyOne i]
    ∧ threads s' = <[first_blocked (threads s) :=
                      default (Client (Run (Ret 0)))
                        (wake <$> threads s !! first_blocked (threads s))]> (threads s).
Proof.
  unfold notify_one. pose proof (first_blocked_lookup (threads s)) as H.
  destruct (threads s !! first_blocked (threads s)) as [[a|stop ph]|] eqn:E.
  - done.
  - destruct ph; try done. eexists. split; [done|]. norm. by repeat split.
  - rewrite H. eexists. split; [done|]. norm. repeat split; try done.
    symmetry. apply list_insert_ge. by apply lookup_ge_None.
Qed.

(** The four steps of [thread_pool::schedule], lines 35-41, taken by
    thread [i] in a state where it can take them. *)
Lemma step_lock s i c ctx t k :
  is_ctx ctx → failed s = None → threads s !! i = Some (ctx (Sched SLock t k)) →
  mutex_ s = None →
  ∃ s1, step (Step i c) s = Some s1
    ∧ tasks s1 = tasks s ∧ queue_ s1 = queue_ s ∧ mutex_ s1 = Some i
    ∧ threads s1 = <[i:=ctx (Sched SPush t k)]> (threads s)
    ∧ log s1 = log s ++ [EvLock i] ∧ failed s1 = None ∧ out s1 = out s.
Proof.
  intros Hctx Hf Hth Hmx. eexists. split.
  { rewrite (step_in_ctx s i c ctx _ Hctx Hf Hth) by done. simpl. by rewrite Hmx. }
  by repeat split.
Qed.

Lemma step_push s i c ctx t k :
  is_ctx ctx → failed s = None → threads s !! i = Some (ctx (Sched SPush t k)) →
  ∃ s1, step (Step i c) s = Some s1
    ∧ tasks s1 = tasks s ∧ queue_ s1 = queue_ s ++ [t] ∧ mutex_ s1 = mutex_ s
    ∧ threads s1 = <[i:=ctx (Sched SUnlock t k)]> (threads s)
    ∧ log s1 = log s ++ [EvSubmit i t] ∧ failed s1 = None ∧ out s1 = out s.
Proof.
  intros Hctx Hf Hth. eexists. split.
  { by rewrite (step_in_ctx s i c ctx _ Hctx Hf Hth) by done. }
  by repeat split.
Qed.

Lemma step_unlock s i c ctx t k :
  is_ctx ctx → failed s = None → threads s !! i = Some (ctx (Sched SUnlock t k)) →
  ∃ s1, step (Step i c) s = Some s1
    ∧ tasks s1 = tasks s ∧ queue_ s1 = queue_ s ∧ mutex_ s1 = None
    ∧ threads s1 = <[i:=ctx (Sched SNotify t k)]> (threads s)
    ∧ log s1 = log s ++ [EvUnlock i] ∧ failed s1 = None ∧ out s1 = out s.
Proof.
  intros Hctx Hf Hth. eexists. split.
  { by rewrite (step_in_ctx s i c ctx _ Hctx Hf Hth) by done. }
  by repeat split.
Qed.

Lemma step_notify s i ctx t k ts :
  is_ctx ctx → failed s = None → threads s !! i = Some (ctx (Sched SNotify t k)) →
  tasks s !! t = Some ts →
  ∃ s1, step (Step i (first_blocked (threads s))) s = Some s1
    ∧ tasks s1 = <[t:=TaskState (handle_ ts) (result_ ts) (frame ts) (use_count ts)
                                (S (owners ts))]> (tasks s)
    ∧ queue_ s1 = queue_ s ∧ mutex_ s1 = mutex_ s
    ∧ threads s1 =
        <[i:=ctx (Run k)]>
          (<[first_blocked (threads s):=
               default (Client (Run (Ret 0)))
                 (wake <$> threads s !! first_blocked (threads s))]> (threads s))
    ∧ log s1 = log s ++ [EvNotifyOne i] ∧ failed s1 = None ∧ out s1 = out s.
Proof.
  intros Hctx Hf Hth Hts.
  destruct (notify_first s i) as (s' & Hn & Htk & Hq & Hm & Hfl & Ho & Hl & Hths).
  eexists. split.
  { rewrite (step_in_ctx s i _ ctx _ Hctx Hf Hth) by done. simpl. rewrite Hn. simpl.
    rewrite Htk, Hts. simpl. reflexivity. }
  norm. rewrite Htk, Hq, Hm, Hl, Hths, Hfl, Ho. by repeat split.
Qed.

(** The body of [thread_pool::schedule] run by thread [i] without
    interference, from the acquisition of the free mutex on. *)
Lemma sched_sequence s i ctx t k :
  inv s → is_ctx ctx → threads s !! i = Some (ctx (Sched SLock t k)) →
  mutex_ s = None →
  ∃ s1 s2 s3 s4 ts,
    step (Step i (first_blocked (threads s))) s = Some s1
    ∧ step (Step i (first_blocked (threads s))) s1 = Some s2
    ∧ step (Step i (first_blocked (threads s))) s2 = Some s3
    ∧ step (Step i (first_blocked (threads s))) s3 = Some s4
    ∧ (mutex_ s1 = Some i ∧ queue_ s1 = queue_ s)
    ∧ (mutex_ s2 = Some i ∧ queue_ s2 = queue_ s ++ [t])
    ∧ (mutex_ s3 = None ∧ queue_ s3 = queue_ s ++ [t])
    ∧ (mutex_ s4 = None ∧ queue_ s4 = queue_ s ++ [t])
    ∧ log s4 = log s ++ [EvLock i; EvSubmit i t; EvUnlock i; EvNotifyOne i]
    ∧ tasks s !! t = Some ts
    ∧ tasks s4 = <[t:=TaskState (handle_ ts) (result_ ts) (frame ts) (use_count ts)
                                (S (owners ts))]> (tasks s)
    ∧ threads s4 =
        <[i:=ctx (Run k)]>
          (<[first_blocked (threads s):=
               default (Client (Run (Ret 0)))
                 (wake <$> threads s !! first_blocked (threads s))]> (threads s))
    ∧ failed s4 = None ∧ out s4 = out s.
Proof.
  intros Hinv Hctx Hth Hmx. set (c := first_blocked (threads s)).
  pose proof Hinv as (Hf & _ & _ & _ & Ht).
  pose proof (lookup_lt_Some _ _ _ Hth) as Hlen.
  assert (∀ a, is_blocked (ctx a) = false) as Hnb
    by (intros a; by destruct Hctx as [-> | (? & ? & ->)]).
  destruct (get_state_ok s t i _ (Ht t) Hth) as (ts & Hts & _).
  { destruct Hctx as [-> | (? & ? & ->)]; red_census; unfold ind;
      rewrite decide_True by done; lia. }
  destruct (step_lock s i c ctx t k Hctx Hf Hth Hmx)
    as (s1 & H1 & Htk1 & Hq1 & Hm1 & Hth1 & Hl1 & Hf1 & Ho1).
  assert (threads s1 !! i = Some (ctx (Sched SPush t k))) as Hi1
    by (rewrite Hth1; by apply list_lookup_insert_eq).
  destruct (step_push s1 i c ctx t k Hctx Hf1 Hi1)
    as (s2 & H2 & Htk2 & Hq2 & Hm2 & Hth2 & Hl2 & Hf2 & Ho2).
  assert (threads s2 = <[i:=ctx (Sched SUnlock t k)]> (threads s)) as Hths2
    by (by rewrite Hth2, Hth1, list_insert_insert_eq).
  assert (threads s2 !! i = Some (ctx (Sched SUnlock t k))) as Hi2
    by (rewrite Hths2; by apply list_lookup_insert_eq).
  destruct (step_unlock s2 i c ctx t k Hctx Hf2 Hi2)
    as (s3 & H3 & Htk3 & Hq3 & Hm3 & Hth3 & Hl3 & Hf3 & Ho3).
  assert (threads s3 = <[i:=ctx (Sched SNotify t k)]> (threads s)) as Hths3
    by (by rewrite Hth3, Hths2, list_insert_insert_eq).
  assert (threads s3 !! i = Some (ctx (Sched SNotify t k))) as Hi3
    by (rewrite Hths3; by apply list_lookup_insert_eq).
  assert (first_blocked (threads s3) = c) as Hc.
  { rewrite Hths3. eapply first_blocked_insert; eauto. }
  assert (tasks s3 !! t = Some ts) as Hts3 by (by rewrite Htk3, Htk2, Htk1).
  destruct (step_notify s3 i ctx t k ts Hctx Hf3 Hi3 Hts3)
    as (s4 & H4 & Htk4 & Hq4 & Hm4 & Hth4 & Hl4 & Hf4 & Ho4).
  rewrite Hc in H4, Hth4.
  assert (c ≠ i) as Hci.
  { intros E. pose proof (first_blocked_lookup (threads s3)) as Hb. rewrite Hc, E, Hi3 in Hb.
    by rewrite Hnb in Hb. }
  exists s1, s2, s3, s4, ts.
  rewrite Hq4, Hm4, Hl4, Htk4, Hth4, Hq3, Hm3, Hl3, Htk3, Hths3, Hq2, Hm2, Hl2, Htk2,
    Hq1, Hm1, Hl1, Htk1, Ho4, Ho3, Ho2, Ho1.
  repeat split; try done.
  - by rewrite <- !app_assoc.
  - rewrite list_lookup_insert_ne by done.
    rewrite (list_insert_insert_ne _ c i) by done. by rewrite list_insert_insert_eq.
Qed.


Lemma submit_once s t i :
  inv s → EvSubmit i t ∈ log s → tsum (is_submit t) (log s) = 1%nat.
Proof.
  intros (_ & _ & _ & _ & Ht) Hin. specialize (Ht t). unfold task_inv in Ht.
  pose proof (tsum_elem (is_submit t) _ _ Hin) as Hle. simpl in Hle. unfold ind in Hle.
  rewrite decide_True in Hle by done.
  destruct (tasks s !! t) as [[? ? [] ? ?]|]; red_task; lia.
Qed.

(** C7. Submit contract: a thread inside [schedule] waits only for the
    mutex; once the mutex is free its next four steps are enabled one
    after the other and are lock, push, unlock, notify: the push appends
    exactly the submitted item behind the items already queued, and is
    done with the mutex held; one notification is issued, after the
    unlock, and it changes no thread but a blocked worker; nothing is
    returned but the new state, in which the item has been submitted
    exactly once. *)
Theorem submit_contract n mains ls s i ctx t k :
  exec ls (init n mains) = Some s → is_ctx ctx →
  threads s !! i = Some (ctx (Sched SLock t k)) →
  (∀ c, mutex_ s ≠ None → step (Step i c) s = None)
  ∧ queue_ (schedule_push i t s) = queue_ s ++ [t]
  ∧ (mutex_ s = None →
     ∃ s1 s2 s3 s4,
       step (Step i (first_blocked (threads s))) s = Some s1
       ∧ step (Step i (first_blocked (threads s))) s1 = Some s2
       ∧ step (Step i (first_blocked (threads s))) s2 = Some s3
       ∧ step (Step i (first_blocked (threads s))) s3 = Some s4
       ∧ (mutex_ s1 = Some i ∧ queue_ s1 = queue_ s)
       ∧ (mutex_ s2 = Some i ∧ queue_ s2 = queue_ s ++ [t])
       ∧ (mutex_ s3 = None ∧ queue_ s3 = queue_ s ++ [t])
       ∧ (mutex_ s4 = None ∧ queue_ s4 = queue_ s ++ [t])
       ∧ log s4 = log s ++ [EvLock i; EvSubmit i t; EvUnlock i; EvNotifyOne i]
       ∧ threads s4 !! i = Some (ctx (Run k))
       ∧ (∀ j, j ≠ i → threads s4 !! j = threads s !! j
                       ∨ ∃ stop, threads s !! j = Some (Worker stop WBlocked)
                                 ∧ threads s4 !! j = Some (Worker stop WWoken)
                                 ∧ j = first_blocked (threads s))
       ∧ tsum (is_submit t) (log s4) = 1%nat).
Proof.
  intros Hexec Hctx Hth. pose proof (exec_inv _ _ _ _ Hexec) as Hinv.
  pose proof Hinv as (Hf & _). split; [|split; [done|]].
  - intros c Hmx. rewrite (step_in_ctx s i c ctx _ Hctx Hf Hth) by done. simpl.
    by destruct (mutex_ s).
  - intros Hmx.
    destruct (sched_sequence s i ctx t k Hinv Hctx Hth Hmx)
      as (s1 & s2 & s3 & s4 & ts & H1 & H2 & H3 & H4 & P1 & P2 & P3 & P4 & Hl & Hts
          & Htk & Hths & Hf4 & Ho4).
    exists s1, s2, s3, s4. do 9 (split; [done|]).
    pose proof (lookup_lt_Some _ _ _ Hth) as Hlen.
    split; [|split].
    + rewrite Hths. apply list_lookup_insert_eq. by rewrite length_insert.
    + intros j Hj. rewrite Hths. rewrite list_lookup_insert_ne by done.
      destruct (decide (j = first_blocked (threads s))) as [->|Hne];
        [|left; by rewrite list_lookup_insert_ne].
      pose proof (first_blocked_lookup (threads s)) as Hb.
      destruct (threads s !! first_blocked (threads s)) as [th|] eqn:E.
      * destruct th as [|stop []]; try done. right. exists stop.
        split; [done|]. split; [|done].
        apply list_lookup_insert_eq. by eapply lookup_lt_Some.
      * left. rewrite list_insert_ge; [done|]. by apply lookup_ge_None.
    + apply (submit_once s4 t i).
      * do 4 (eapply inv_step; [|eassumption]). exact Hinv.
      * rewrite Hl. apply elem_of_app. right. apply list_elem_of_further, list_elem_of_here.
Qed.

Lemma submit_contract_witness :
  queue_ (schedule_push 0 0 (run 2 (init 2 [add_main]))) = [0%nat].
Proof.
  destruct (submit_contract 2 [add_main] (run_trace 2 (init 2 [add_main]))
              (run 2 (init 2 [add_main])) 0 Client 0
              (Get 0 (λ r, Printf [r] (Drop 0 (Ret 0))) (λ e, Drop 0 (Throw e))))
    as (_ & H & _).
  - vm_compute. reflexivity.
  - left. reflexivity.
  - vm_compute. reflexivity.
  - exact H.
Defined.

Lemma step_call s i c ctx body k :
  is_ctx ctx → failed s = None → threads s !! i = Some (ctx (Run (Call body k))) →
  ∃ s1, step (Step i c) s = Some s1
    ∧ tasks s1 = tasks s ++ [new_task body] ∧ queue_ s1 = queue_ s ∧ mutex_ s1 = mutex_ s
    ∧ threads s1 =
        <[i:=ctx (Sched SGetState (length (tasks s)) (k (length (tasks s))))]> (threads s)
    ∧ log s1 = log s ∧ failed s1 = None ∧ out s1 = out s.
Proof.
  intros Hctx Hf Hth. eexists. split.
  { by rewrite (step_in_ctx s i c ctx _ Hctx Hf Hth) by done. }
  by repeat split.
Qed.

Lemma step_getstate s i c ctx t k ts :
  is_ctx ctx → failed s = None → threads s !! i = Some (ctx (Sched SGetState t k)) →
  tasks s !! t = Some ts → use_count ts ≠ 0%nat →
  ∃ s1, step (Step i c) s = Some s1
    ∧ tasks s1 = <[t:=TaskState (handle_ ts) (result_ ts) (frame ts) (S (use_count ts))
                                (owners ts)]> (tasks s)
    ∧ queue_ s1 = queue_ s ∧ mutex_ s1 = mutex_ s
    ∧ threads s1 = <[i:=ctx (Sched SLock t k)]> (threads s)
    ∧ log s1 = log s ∧ failed s1 = None ∧ out s1 = out s.
Proof.
  intros Hctx Hf Hth Hts Hu. eexists. split.
  { rewrite (step_in_ctx s i c ctx _ Hctx Hf Hth) by done. simpl. unfold get_state.
    rewrite Hts. simpl. rewrite decide_False by done. simpl. reflexivity. }
  by repeat split.
Qed.

Lemma insert_snoc {A} (l : list A) x y : <[length l:=x]> (l ++ [y]) = l ++ [x].
Proof. rewrite <- (Nat.add_0_r (length l)). by rewrite insert_app_r. Qed.

(** No step of caller code resumes a coroutine or writes a slot. *)
Lemma act_step_frames s i c a a' s' :
  act_step i c a s = Some (a', s') →
  ∀ t ts, tasks s !! t = Some ts →
    ∃ ts', tasks s' !! t = Some ts' ∧ frame ts' = frame ts ∧ result_ ts' = result_ ts.
Proof.
  intros Hstep t ts Hts.
  assert (∀ t0 ts0 ts1, tasks s !! t0 = Some ts0 → frame ts1 = frame ts0 →
            result_ ts1 = result_ ts0 →
            ∃ ts', <[t0:=ts1]> (tasks s) !! t = Some ts' ∧ frame ts' = frame ts
                   ∧ result_ ts' = result_ ts) as Hins.
  { intros t0 ts0 ts1 H0 Hfr Hr. destruct (decide (t0 = t)) as [->|Hne].
    - rewrite list_lookup_insert_eq by (by eapply lookup_lt_Some). exists ts1.
      rewrite Hts in H0. by simplify_eq.
    - rewrite list_lookup_insert_ne by done. by exists ts. }
  destruct a as [[]|[]]; simplify_eq/=.
  - exists ts. split; [|done]. by apply lookup_app_l_Some.
  - destruct (tasks s !! h) as [ts0|] eqn:E; simplify_eq/=. case_decide; [done|].
    unfold Promise.get in Hstep. destruct (result_ ts0) as [[]|]; simplify_eq/=; by exists ts.
  - destruct (tasks s !! h) as [ts0|] eqn:E; simplify_eq/=. case_decide; [done|].
    simplify_eq. norm. by eapply Hins.
  - by exists ts.
  - unfold get_state in Hstep. destruct (tasks s !! t0) as [ts0|] eqn:E; simplify_eq/=.
    + case_decide; simplify_eq/=; [by exists ts|]. norm. by eapply Hins.
    + by exists ts.
  - destruct (mutex_ s); simplify_eq. by exists ts.
  - by exists ts.
  - by exists ts.
  - destruct (notify_one i c s) as [s2|] eqn:Hn; simplify_eq/=.
    assert (tasks s2 = tasks s) as Htk.
    { unfold notify_one in Hn. repeat case_match; by simplify_eq. }
    rewrite Htk in Hstep. destruct (tasks s !! t0) as [ts0|] eqn:E; simplify_eq/=.
    norm. rewrite Htk. by eapply Hins.
Qed.

(** C5. Immediate scheduling at creation: calling a coroutine function
    is always enabled and creates the task state with the whole body
    suspended in its frame and an empty slot; without contention on the
    mutex the call is six steps of the caller, after which the task sits
    once at the tail of the queue, its frame still suspended at the start
    of the body, and the caller continues with the handle; no step of
    caller code changes a frame or a slot (bodies only start in
    [execute] on a worker); and no task is ever submitted twice. *)
Theorem immediate_scheduling n mains ls s i ctx body k :
  exec ls (init n mains) = Some s → is_ctx ctx →
  threads s !! i = Some (ctx (Run (Call body k))) →
  (∀ c, ∃ s1, step (Step i c) s = Some s1
      ∧ tasks s1 = tasks s ++ [TaskState true None (FSuspended body) 1 0]
      ∧ threads s1 !! i
        = Some (ctx (Sched SGetState (length (tasks s)) (k (length (tasks s)))))
      ∧ queue_ s1 = queue_ s ∧ log s1 = log s ∧ out s1 = out s)
  ∧ (mutex_ s = None →
     ∃ s', exec (replicate 6 (Step i (first_blocked (threads s)))) s = Some s'
       ∧ tasks s' = tasks s ++ [TaskState true None (FSuspended body) 2 1]
       ∧ queue_ s' = queue_ s ++ [length (tasks s)]
       ∧ threads s' !! i = Some (ctx (Run (k (length (tasks s)))))
       ∧ log s' = log s ++ [EvLock i; EvSubmit i (length (tasks s)); EvUnlock i;
                            EvNotifyOne i]
       ∧ out s' = out s
       ∧ tsum (is_submit (length (tasks s))) (log s') = 1%nat
       ∧ tsum (is_resume (length (tasks s))) (log s') = 0%nat)
  ∧ (∀ j c a a' s1, act_step j c a s = Some (a', s1) →
       ∀ t ts, tasks s !! t = Some ts →
         ∃ ts', tasks s1 !! t = Some ts' ∧ frame ts' = frame ts
                ∧ result_ ts' = result_ ts)
  ∧ (∀ t, tsum (is_submit t) (log s) ≤ 1)%nat.
Proof.
  intros Hexec Hctx Hth. pose proof (exec_inv _ _ _ _ Hexec) as Hinv.
  pose proof Hinv as (Hf & _ & _ & _ & Ht).
  pose proof (lookup_lt_Some _ _ _ Hth) as Hlen.
  assert (∀ a, is_blocked (ctx a) = false) as Hnb
    by (intros a; by destruct Hctx as [-> | (? & ? & ->)]).
  split; [|split; [|split]].
  - intros c.
    destruct (step_call s i c ctx body k Hctx Hf Hth)
      as (s1 & H1 & Htk1 & Hq1 & Hm1 & Hth1 & Hl1 & Hf1 & Ho1).
    exists s1. repeat split; try done. rewrite Hth1. by apply list_lookup_insert_eq.
  - intros Hmx. set (c := first_blocked (threads s)). set (t := length (tasks s)).
    destruct (step_call s i c ctx body k Hctx Hf Hth)
      as (s1 & H1 & Htk1 & Hq1 & Hm1 & Hth1 & Hl1 & Hf1 & Ho1).
    pose proof (inv_step _ _ _ Hinv H1) as Hinv1.
    assert (threads s1 !! i = Some (ctx (Sched SGetState t (k t)))) as Hi1
      by (rewrite Hth1; by apply list_lookup_insert_eq).
    assert (tasks s1 !! t = Some (new_task body)) as Hts1
      by (rewrite Htk1; subst t; by rewrite lookup_snoc_decide, decide_True).
    destruct (step_getstate s1 i c ctx t (k t) _ Hctx Hf1 Hi1 Hts1)
      as (s2 & H2 & Htk2 & Hq2 & Hm2 & Hth2 & Hl2 & Hf2 & Ho2); [done|].
    pose proof (inv_step _ _ _ Hinv1 H2) as Hinv2.
    assert (threads s2 = <[i:=ctx (Sched SLock t (k t))]> (threads s)) as Hths2
      by (by rewrite Hth2, Hth1, list_insert_insert_eq).
    assert (threads s2 !! i = Some (ctx (Sched SLock t (k t)))) as Hi2
      by (rewrite Hths2; by apply list_lookup_insert_eq).
    assert (first_blocked (threads s2) = c) as Hc.
    { rewrite Hths2. eapply first_blocked_insert; eauto. }
    assert (mutex_ s2 = None) as Hmx2 by (by rewrite Hm2, Hm1).
    destruct (sched_sequence s2 i ctx t (k t) Hinv2 Hctx Hi2 Hmx2)
      as (s3 & s4 & s5 & s6 & ts & H3 & H4 & H5 & H6 & P3 & P4 & P5 & P6 & Hl6 & Hts
          & Htk6 & Hths6 & Hf6 & Ho6).
    rewrite Hc in H3, H4, H5, H6, Hths6.
    assert (inv s6) as Hinv6 by (do 4 (eapply inv_step; [|eassumption]); exact Hinv2).
    assert (tasks s2 = tasks s ++ [TaskState true None (FSuspended body) 2 0]) as Htk2'.
    { rewrite Htk2, Htk1. subst t. by rewrite insert_snoc. }
    rewrite Htk2', lookup_snoc_decide, decide_True in Hts by done. simplify_eq.
    subst t. exists s6. split.
    { simpl. rewrite H1. simpl. rewrite H2. simpl. rewrite H3. simpl. rewrite H4. simpl.
      rewrite H5. simpl. by rewrite H6. }
    destruct P6 as [_ Hq6]. rewrite Htk6, Htk2', Hq6, Hq2, Hq1, Hl6, Hl2, Hl1, Ho6, Ho2, Ho1.
    split; [by rewrite insert_snoc|]. split; [done|]. split.
    { rewrite Hths6. apply list_lookup_insert_eq.
      by rewrite length_insert, Hths2, length_insert. }
    split; [done|]. split; [done|].
    assert (tsum (is_submit (length (tasks s))) (log s6) = 1%nat) as Hsub.
    { apply (submit_once s6 _ i Hinv6). rewrite Hl6. apply elem_of_app. right.
      apply list_elem_of_further, list_elem_of_here. }
    rewrite Hl6, Hl2, Hl1 in Hsub. split; [done|].
    destruct Hinv6 as (_ & _ & _ & _ & Ht6). specialize (Ht6 (length (tasks s))).
    unfold task_inv in Ht6.
    rewrite Htk6, Htk2', insert_snoc, lookup_snoc_decide, decide_True in Ht6 by done.
    rewrite Hl6, Hl2, Hl1 in Ht6. red_task. lia.
  - intros j c a a' s1. apply act_step_frames.
  - intros t. specialize (Ht t). unfold task_inv in Ht.
    destruct (tasks s !! t) as [[? ? [] ? ?]|]; red_task; lia.
Qed.

Lemma immediate_scheduling_witness :
  ∃ s', exec (replicate 6 (Step 0 3)) (init 2 [add_main]) = Some s'
        ∧ tasks s' = [TaskState true None (FSuspended (async_add 3 4)) 2 1]
        ∧ queue_ s' = [0%nat].
Proof.
  destruct (immediate_scheduling 2 [add_main] [] (init 2 [add_main]) 0 Client
              (async_add 3 4)
              (λ c, Get c (λ r, Printf [r] (Drop c (Ret 0))) (λ e, Drop c (Throw e))))
    as (_ & H & _).
  - reflexivity.
  - left. reflexivity.
  - reflexivity.
  - destruct (H eq_refl) as (s' & He & Htk & Hq & _). exists s'. by repeat split.
Defined.

(** A worker leaves its loop only by its own step at line 59-60, with a
    stop requested. *)
Lemma exit_step s l s' w :
  step l s = Some s' → exits_loop w s s' →
  (∃ c, l = Step w c) ∧ threads s !! w = Some (Worker true WAfterWait).
Proof.
  intros Hstep [(stop & ph & Hw & Hph) (stop' & Hw')].
  step_inv Hstep;
    repeat match goal with
    | H : <[?i:=_]> _ !! w = Some _ |- _ =>
        destruct (decide (w = i)) as [->|?];
        [rewrite list_lookup_insert_eq in H by
           (rewrite ?length_insert; by eapply lookup_lt_Some)
        |rewrite list_lookup_insert_ne in H by done]
    end; simplify_eq; eauto.
Qed.

Lemma own_step s w c stop ph :
  failed s = None → threads s !! w = Some (Worker stop ph) →
  step (Step w c) s = worker_step w c stop ph s.
Proof. intros Hf Hth. unfold step. by rewrite Hf, Hth. Qed.

Ltac moved Hth :=
  repeat split; norm;
  rewrite ?list_lookup_insert_eq by (by eapply lookup_lt_Some);
  try match goal with E : queue_ ?s = _ |- _ => rewrite ?E end;
  first [done | match goal with H : _ ↔ mutex_ _ = _ |- _ => by apply H end].

(** C4 (amended). The worker loop: a worker acquires the mutex; waits
    only if it finds the queue empty, until an item is queued or its stop
    is requested; leaves the loop exactly when such a wait has returned
    and the stop is requested then, whether or not the queue is empty;
    and otherwise pops exactly the front item with the mutex held,
    releases the mutex, executes the item without the mutex and starts
    over. *)
Theorem worker_loop n mains ls s w stop ph :
  exec ls (init n mains) = Some s →
  threads s !! w = Some (Worker stop ph) →
  (∀ c, worker_loop_spec w c stop ph s)
  ∧ (∀ l s', step l s = Some s' → exits_loop w s s' →
       (∃ c, l = Step w c) ∧ ph = WAfterWait ∧ stop = true).
Proof.
  intros Hexec Hth. pose proof (exec_inv _ _ _ _ Hexec) as Hinv.
  pose proof Hinv as (Hf & Hm & Hq & _ & Ht).
  pose proof (Hm _ _ Hth) as Hmw. pose proof (Hq _ _ _ Hth) as Hqw.
  split.
  - intros c. unfold worker_loop_spec, moves_to.
    destruct ph; cbn [holds act_of] in Hmw; cbn beta iota in Hqw;
      rewrite ?(own_step s w c stop _ Hf Hth); simpl.
    + split; [by destruct (mutex_ s)|]. intros E. rewrite E. eexists. by moved Hth.
    + split; [by apply Hmw|]. eexists. by moved Hth.
    + split; [by apply Hmw|]. destruct stop; simpl.
      * eexists. by moved Hth.
      * destruct (queue_ s) eqn:E; eexists; by moved Hth.
    + split; [done|]. intros E. by apply Hmw in E.
    + split; [by destruct (mutex_ s)|]. intros E. rewrite E. eexists. by moved Hth.
    + split; [by apply Hmw|]. split; [done|]. destruct stop; eexists; by moved Hth.
    + split; [by apply Hmw|]. destruct (queue_ s) as [|t q] eqn:E; [done|].
      exists t, q. eexists. by moved Hth.
    + split; [by apply Hmw|]. eexists. by moved Hth.
    + split; [intros E; by apply Hmw in E|].
      destruct (execute_ok s next w stop (Ht next) Hth) as (r & body & u & o & Hts).
      exists body. unfold execute. rewrite Hts. eexists. by moved Hth.
    + done.
    + done.
    + split; [intros E; by apply Hmw in E|].
      destruct (get_state_ok s next w _ (Ht next) Hth) as (ts & Hts & _).
      { red_census. unfold ind. rewrite decide_True by done. lia. }
      rewrite Hts. simpl. eexists. by moved Hth.
    + done.
  - intros l s' Hstep Hex. destruct (exit_step _ _ _ _ Hstep Hex) as [Hl Hw].
    rewrite Hth in Hw. by simplify_eq.
Qed.

Lemma worker_loop_witness :
  ∃ body s', tasks (run 10 (init 2 [add_main])) !! 0%nat ≫= (Some ∘ frame)
               = Some (FSuspended body)
             ∧ moves_to 1 0 false (run 10 (init 2 [add_main])) (WRunning 0 (Run body)) s'.
Proof.
  destruct (worker_loop 2 [add_main] (run_trace 10 (init 2 [add_main]))
              (run 10 (init 2 [add_main])) 1 false (WExecute 0)) as [H _].
  - vm_compute. reflexivity.
  - vm_compute. reflexivity.
  - destruct (H 0%nat) as (_ & body & s' & Hb & Hm & _). by exists body, s'.
Defined.

(** C4, as claimed, fails: the only worker is woken for a queued item
    and then stopped, and leaves the loop with the item still queued. *)
Lemma worker_exit_counterexample :
  exec stop_trace (init 1 [forget_main]) = Some stop_state
  ∧ (∃ s', step (Step 1 0) stop_state = Some s' ∧ exits_loop 1 stop_state s'
           ∧ queue_ s' = [0%nat])
  ∧ stop_requested 1 stop_state = true
  ∧ queue_ stop_state = [0%nat]
  ∧ ¬ (stop_requested 1 stop_state = true ∧ queue_ stop_state = []).
Proof.
  split; [vm_compute; reflexivity|]. split.
  - eexists. split; [vm_compute; reflexivity|]. split; [|reflexivity].
    split; [exists true, WAfterWait|exists true]; by vm_compute.
  - split; [reflexivity|]. split; [reflexivity|]. intros [_ H]. by vm_compute in H.
Qed.


Lemma destroyed_f_des s t : destroyed s t ↔ f_des (tasks s !! t) = 1%nat.
Proof.
  unfold destroyed. split.
  - intros (ts & -> & Hfr). red_task. by rewrite Hfr.
  - destruct (tasks s !! t) as [ts|]; red_task; [|done].
    destruct (frame ts) eqn:E; try done. by exists ts.
Qed.

Lemma tsum_mono_app {A} (f : A → nat) l k : (tsum f l ≤ tsum f (l ++ k))%nat.
Proof. rewrite tsum_app. lia. Qed.

(** A finished task stays finished. *)
Lemma destroyed_step s l s' t : inv s → step l s = Some s' → destroyed s t → destroyed s' t.
Proof.
  intros Hinv Hstep Hd. pose proof (inv_step _ _ _ Hinv Hstep) as Hinv'.
  apply destroyed_f_des in Hd. apply destroyed_f_des.
  destruct Hinv as (_ & _ & _ & _ & Ht), Hinv' as (_ & _ & _ & _ & Ht').
  specialize (Ht t). specialize (Ht' t). unfold task_inv in *.
  assert (tsum (is_invalidate t) (log s) ≤ tsum (is_invalidate t) (log s'))%nat as Hle.
  { destruct (step_log _ _ _ Hstep) as [E|[e E]]; rewrite E; [done|apply tsum_mono_app]. }
  destruct (tasks s' !! t) as [[? ? [] ? ?]|]; red_task; lia.
Qed.

(** How a step moves the only worker and the list of popped items. *)
Lemma step_single s l s' w stop ph :
  step l s = Some s' → single_worker s w → threads s !! w = Some (Worker stop ph) →
  single_worker s' w
  ∧ ∃ stop' ph', threads s' !! w = Some (Worker stop' ph')
    ∧ ((current_task ph' = current_task ph ∧ popped (log s') = popped (log s))
       ∨ (∃ t, current_task ph = None ∧ current_task ph' = Some t
               ∧ popped (log s') = popped (log s) ++ [t])
       ∨ (∃ t, current_task ph = Some t ∧ current_task ph' = None
               ∧ popped (log s') = popped (log s) ∧ destroyed s' t)).
Proof.
  intros Hstep Hsw Hw.
  step_inv Hstep.
  all: try match goal with H : threads _ !! ?i = Some (Worker _ _) |- _ =>
         pose proof (Hsw _ _ _ H); subst i end.
  all: simplify_eq.
  all: split;
    [ intros j st' p' Hj; norm;
      repeat match type of Hj with
      | <[?i:=_]> _ !! ?i = Some _ =>
          rewrite list_lookup_insert_eq in Hj by
             (rewrite ?length_insert; by eapply lookup_lt_Some); simplify_eq
      | <[?i:=_]> _ !! j = Some _ =>
          destruct (decide (j = i)) as [->|?];
          [rewrite list_lookup_insert_eq in Hj by
             (rewrite ?length_insert; by eapply lookup_lt_Some); simplify_eq
          |rewrite list_lookup_insert_ne in Hj by done]
      end; eauto
    | norm; rewrite ?popped_snoc; cbn [app]; rewrite ?app_nil_r;
      repeat match goal with
      | |- context [<[?i:=_]> _ !! ?i] =>
          rewrite list_lookup_insert_eq by
            (rewrite ?length_insert; by eapply lookup_lt_Some)
      | |- context [<[?i:=_]> _ !! ?w0] =>
          destruct (decide (w0 = i)) as [->|?];
          [rewrite list_lookup_insert_eq by
             (rewrite ?length_insert; by eapply lookup_lt_Some)
          |rewrite list_lookup_insert_ne by done]
      end; simplify_eq; try congruence;
      do 2 eexists; (split; [first [reflexivity | eassumption]|]);
      first
        [ by left
        | right; left; eexists; by repeat split
        | right; right; eexists; repeat split; try done;
          eexists; split;
          [apply list_lookup_insert_eq; by eapply lookup_lt_Some|done]
        | idtac ] ].
Qed.

Lemma fifo_step w s l s' : inv s → fifo_inv w s → step l s = Some s' → fifo_inv w s'.
Proof.
  intros Hinv [Hsw (stop & ph & Hw & Hcur)] Hstep.
  destruct (step_single _ _ _ _ _ _ Hstep Hsw Hw) as (Hsw' & stop' & ph' & Hw' & Hcase).
  assert (∀ l0, Forall (destroyed s) l0 → Forall (destroyed s') l0) as Hst.
  { intros l0. apply Forall_impl. intros t. by apply (destroyed_step s l s'). }
  split; [done|]. exists stop', ph'. split; [done|].
  destruct Hcase as [[Hc Hp]|[(t & Hc & Hc' & Hp)|(t & Hc & Hc' & Hp & Hd)]].
  - rewrite Hc, Hp. destruct (current_task ph); [|by apply Hst].
    destruct Hcur as (pre & ? & ?). exists pre. split; [done|by apply Hst].
  - rewrite Hc', Hp. rewrite Hc in Hcur. exists (popped (log s)). split; [done|by apply Hst].
  - rewrite Hc', Hp. rewrite Hc in Hcur. destruct Hcur as (pre & -> & Hpre).
    apply Forall_app. split; [by apply Hst|]. by apply Forall_singleton.
Qed.

Lemma fifo_init mains : fifo_inv (length mains) (init 1 mains).
Proof.
  split.
  - intros j stop ph Hj. cbn [init threads] in Hj.
    apply lookup_app_Some in Hj as [Hj|[Hlen Hj]].
    + rewrite list_lookup_fmap in Hj. by destruct (mains !! j).
    + rewrite length_fmap in Hlen, Hj. destruct (j - length mains) as [|k] eqn:E; [lia|].
      by destruct k.
  - exists false, WTop. split; [|by apply Forall_nil].
    cbn [init threads]. rewrite lookup_app_r by (by rewrite length_fmap).
    by rewrite length_fmap, Nat.sub_diag.
Qed.

Lemma exec_fifo mains ls s : exec ls (init 1 mains) = Some s → fifo_inv (length mains) s.
Proof.
  intros H%exec_reachable.
  assert (inv s ∧ fifo_inv (length mains) s) as [_ ?]; [|done].
  induction H as [|s1 l s2 Hr [IH1 IH2] Hs].
  - split; [apply inv_init|apply fifo_init].
  - split; [by eapply inv_step|by eapply fifo_step].
Qed.

Lemma submit_count t l : tsum (is_submit t) l = q_occ t (submitted l).
Proof.
  induction l as [|e l IH]; [done|]. rewrite tsum_cons, IH.
  unfold submitted. destruct e; simpl; try done.
Qed.

Lemma q_occ_le_cons t x l : (q_occ t l ≤ q_occ t (x :: l))%nat.
Proof. rewrite q_occ_cons. lia. Qed.

Lemma q_occ_elem t l : t ∈ l → (1 ≤ q_occ t l)%nat.
Proof.
  intros Hin. pose proof (tsum_elem (λ t', ind (t' = t)) l t Hin) as Hle.
  unfold q_occ. cbn beta in Hle. unfold ind in Hle at 1. by rewrite decide_True in Hle.
Qed.

Lemma q_occ_NoDup (l : list nat) : (∀ t, q_occ t l ≤ 1)%nat → NoDup l.
Proof.
  induction l as [|x l IH]; intros H; constructor.
  - intros Hin%q_occ_elem. specialize (H x). rewrite q_occ_cons in H.
    unfold ind in H. rewrite decide_True in H by done. lia.
  - apply IH. intros t. specialize (H t). pose proof (q_occ_le_cons t x l). lia.
Qed.

Lemma submitted_NoDup s : inv s → NoDup (submitted (log s)).
Proof.
  intros (_ & _ & _ & _ & Ht). apply q_occ_NoDup. intros t. rewrite <- submit_count.
  specialize (Ht t). unfold task_inv in Ht.
  destruct (tasks s !! t) as [[? ? [] ? ?]|]; red_task; lia.
Qed.

Lemma NoDup_split_inj {A} (x1 x2 y1 y2 : list A) b :
  NoDup (x1 ++ b :: y1) → x1 ++ b :: y1 = x2 ++ b :: y2 → x1 = x2 ∧ y1 = y2.
Proof.
  revert x2. induction x1 as [|a x1 IH]; intros [|a' x2] Hnd E; simplify_eq/=.
  - done.
  - inversion_clear Hnd as [|? ? Hn _]. destruct Hn. apply elem_of_app.
    right. by left.
  - inversion_clear Hnd as [|? ? Hn _]. destruct Hn. apply elem_of_app.
    right. by left.
  - inversion_clear Hnd as [|? ? _ Hnd']. destruct (IH x2 Hnd') as [-> ->]; done.
Qed.

Lemma before_prefix {A} (a b : A) l l' :
  NoDup (l ++ l') → b ∈ l → before a b (l ++ l') → before a b l.
Proof.
  intros Hnd Hb (l1 & l2 & l3 & E).
  apply list_elem_of_split in Hb as (m1 & m2 & ->).
  rewrite <- app_assoc in E, Hnd. simpl in E, Hnd.
  replace (l1 ++ a :: l2 ++ b :: l3) with ((l1 ++ a :: l2) ++ b :: l3) in E
    by (by rewrite <- app_assoc).
  destruct (NoDup_split_inj _ _ _ _ _ Hnd E) as [-> _].
  exists l1, l2, m2. by rewrite <- app_assoc.
Qed.

Lemma tsum_pos_elem {A} (f : A → nat) l : (0 < tsum f l)%nat → ∃ x, x ∈ l ∧ (0 < f x)%nat.
Proof.
  induction l as [|y l IH]; [rewrite tsum_nil; lia|]. rewrite tsum_cons. intros H.
  destruct (decide (0 < f y)%nat).
  - exists y. split; [by left|done].
  - destruct IH as (x & Hx & Hfx); [lia|]. exists x. split; [by right|done].
Qed.

Lemma q_occ_pos_elem t l : (0 < q_occ t l)%nat → t ∈ l.
Proof.
  intros (x & Hx & Hfx)%tsum_pos_elem. unfold ind in Hfx. case_decide; [by subst|lia].
Qed.

Lemma started_f_sus s t :
  started s t ↔ (f_run (tasks s !! t) + f_des (tasks s !! t) = 1)%nat.
Proof.
  unfold started. split.
  - intros (ts & -> & Hfr). red_task. destruct (frame ts) as [body| |]; [by destruct (Hfr body)|done|done].
  - destruct (tasks s !! t) as [ts|]; red_task; [|done].
    intros H. exists ts. split; [done|]. intros body E. rewrite E in H. lia.
Qed.

(** With one worker: if [a] was submitted before [b] and [b] has begun,
    then [a] has run to completion. *)
Lemma fifo_state w s a b :
  inv s → fifo_inv w s → before a b (submitted (log s)) → started s b → destroyed s a.
Proof.
  intros Hinv [Hsw (stop & ph & Hw & Hcur)] Hbef Hst.
  pose proof (submitted_NoDup s Hinv) as Hnd.
  destruct Hinv as (_ & _ & _ & [Hl _] & Ht).
  assert (b ∈ popped (log s)) as Hb.
  { assert (b ∈ submitted (log s)) as Hin.
    { destruct Hbef as (l1 & l2 & l3 & ->). rewrite !elem_of_app, !elem_of_cons,
        !elem_of_app, !elem_of_cons. naive_solver. }
    rewrite Hl in Hin. apply elem_of_app in Hin as [Hin|Hin]; [done|].
    apply q_occ_elem in Hin. apply started_f_sus in Hst.
    specialize (Ht b). unfold task_inv in Ht.
    destruct (tasks s !! b) as [[? ? [] ? ?]|]; red_task; lia. }
  rewrite Hl in Hbef, Hnd.
  destruct (before_prefix _ _ _ _ Hnd Hb Hbef) as (m1 & m2 & m3 & Hp).
  assert (∀ pre t, popped (log s) = pre ++ [t] → a ∈ pre) as Hlast.
  { intros pre t E. rewrite Hp in E.
    destruct (m2 ++ b :: m3) as [|x r _] eqn:E' using rev_ind; [by destruct m2|].
    rewrite app_comm_cons, app_assoc in E. apply app_inj_tail in E as [<- _].
    apply elem_of_app. right. by left. }
  destruct (current_task ph).
  - destruct Hcur as (pre & E & Hpre). eapply list.Forall_forall; [exact Hpre|]. by eapply Hlast.
  - eapply list.Forall_forall; [exact Hcur|]. rewrite Hp. apply elem_of_app. right. by left.
Qed.

(** An event of the log was appended by a step from a reachable state
    whose log is the part before it. *)
Lemma log_prefix s0 s pre e post :
  log s0 = [] → reachable s0 s → log s = pre ++ e :: post →
  ∃ l sp sp', reachable s0 sp ∧ step l sp = Some sp' ∧ log sp = pre
              ∧ log sp' = pre ++ [e] ∧ event_sem sp e sp' ∧ reachable sp' s.
Proof.
  intros H0 Hr. revert post. induction Hr as [|s1 l s2 Hr IH Hs]; intros post E.
  { rewrite H0 in E. by destruct pre. }
  destruct (step_event _ _ _ Hs) as [E'|(e' & E' & He')]; rewrite E' in E.
  - destruct (IH _ E) as (l0 & sp & sp' & ? & ? & ? & ? & ? & Hr').
    exists l0, sp, sp'. repeat split; try done. by econstructor.
  - destruct post as [|x post _] using rev_ind.
    + apply app_inj_tail in E as [E ->]. exists l, s1, s2.
      rewrite E' , E. repeat split; try done. constructor.
    + rewrite app_comm_cons, app_assoc in E. apply app_inj_tail in E as [E ->].
      destruct (IH _ E) as (l0 & sp & sp' & ? & ? & ? & ? & ? & Hr').
      exists l0, sp, sp'. repeat split; try done. by econstructor.
Qed.

Lemma submitted_app l k : submitted (l ++ k) = submitted l ++ submitted k.
Proof. apply omap_app. Qed.

(** C6. FIFO service under a single worker: when [A] was submitted
    before [B], [B] has begun to run only if [A] has run to completion;
    in the history, the handle of [A] is nulled (the last act of its
    coroutine) before [B] is resumed. *)
Theorem fifo_single_worker mains ls s A B :
  exec ls (init 1 mains) = Some s →
  before A B (submitted (log s)) →
  (started s B → destroyed s A)
  ∧ (∀ pre post w, log s = pre ++ EvResume w B :: post → EvInvalidate A ∈ pre).
Proof.
  intros Hexec Hbef. pose proof (exec_inv _ _ _ _ Hexec) as Hinv.
  pose proof (exec_fifo _ _ _ Hexec) as Hfifo.
  split; [by eapply fifo_state|].
  intros pre post w E.
  destruct (log_prefix (init 1 mains) s pre _ post eq_refl (exec_reachable _ _ _ Hexec) E)
    as (l & sp & sp' & Hrp & Hstep & Hlp & Hlp' & _ & Hr').
  destruct (reachable_exec _ _ Hrp) as [ls1 Hexec1].
  pose proof (exec_snoc _ _ _ _ _ Hexec1 Hstep) as Hexec'.
  pose proof (exec_inv _ _ _ _ Hexec') as Hinv'.
  pose proof (exec_fifo _ _ _ Hexec') as Hfifo'.
  pose proof Hinv' as (_ & _ & _ & _ & Ht').
  assert (started sp' B) as Hst.
  { apply started_f_sus. specialize (Ht' B). unfold task_inv in Ht'.
    rewrite Hlp', !tsum_snoc in Ht'.
    cbn [is_submit is_resume is_invalidate is_write] in Ht'. unfold ind in Ht'.
    rewrite decide_True in Ht' by done.
    destruct (tasks sp' !! B) as [[? ? [] ? ?]|]; red_task; lia. }
  assert (before A B (submitted (log sp'))) as Hbef'.
  { destruct (reachable_log _ _ Hr') as [es Hes].
    rewrite Hes, submitted_app in Hbef. eapply before_prefix; [| |exact Hbef].
    - rewrite <- submitted_app, <- Hes. by apply submitted_NoDup.
    - apply q_occ_pos_elem. rewrite <- submit_count.
      apply started_f_sus in Hst. specialize (Ht' B). unfold task_inv in Ht'.
      destruct (tasks sp' !! B) as [[? ? [] ? ?]|]; red_task; lia. }
  pose proof (fifo_state _ _ _ _ Hinv' Hfifo' Hbef' Hst) as Hd.
  apply destroyed_f_des in Hd. specialize (Ht' A). unfold task_inv in Ht'.
  assert (0 < tsum (is_invalidate A) (log sp'))%nat as Hpos by lia.
  apply tsum_pos_elem in Hpos as (x & Hx & Hfx). rewrite Hlp' in Hx.
  apply elem_of_app in Hx as [Hx|Hx%list_elem_of_singleton].
  - destruct x; simpl in Hfx; try lia. unfold ind in Hfx. case_decide; [by subst|lia].
  - subst x. simpl in Hfx. lia.
Qed.

Lemma fifo_single_worker_witness : destroyed (run 60 (init 1 [two_main])) 0.
Proof.
  destruct (fifo_single_worker [two_main] (run_trace 60 (init 1 [two_main]))
              (run 60 (init 1 [two_main])) 0 1) as [H _].
  - vm_compute. reflexivity.
  - exists [], [], []. vm_compute. reflexivity.
  - apply H. eexists. split; [vm_compute; reflexivity|]. intros body E. discriminate E.
Defined.


(** ** Outcomes do not depend on the schedule *)

Lemma yields_mono Q p : ∀ Π Π' outs o,
  Π `prefix_of` Π' → yields Q p Π outs o → yields Q p Π' outs o.
Proof.
  induction p as [v|e|body IHb k IHk|h kv IHv ke IHe|h k IHk|args k IHk];
    intros Π Π' outs o Hpre; cbn [yields]; try done.
  - intros (ob & HQ & Hb & Hk). exists ob. split; [done|]. split; [by eapply IHb|].
    intros Π'' t Hpre' Ht. apply Hk; [by etrans|done].
  - intros (oh & Hh & Hc). exists oh. split; [by eapply prefix_lookup_Some|].
    destruct oh; [by eapply IHv|by eapply IHe].
  - by apply IHk.
  - intros (outs' & -> & Hk). exists outs'. split; [done|by eapply IHk].
Qed.

Lemma act_yields_mono Q a Π Π' outs o :
  Π `prefix_of` Π' → act_yields Q a Π outs o → act_yields Q a Π' outs o.
Proof. destruct a; apply yields_mono. Qed.

Lemma task_sem_mono Q Π Π' t ts :
  Π `prefix_of` Π' → task_sem Q Π t ts → task_sem Q Π' t ts.
Proof.
  intros Hpre (o & Ho & Hb & Hr). exists o. split; [by eapply prefix_lookup_Some|].
  split; [|done]. intros body Hf. eapply yields_mono; eauto.
Qed.

Lemma thread_sem_mono Q Π Π' printed total om th :
  Π `prefix_of` Π' → thread_sem Q Π printed total om th → thread_sem Q Π' printed total om th.
Proof.
  intros Hpre. destruct th as [a|stop ph]; cbn [thread_sem].
  - intros (rest & ? & ?). exists rest. split; [done|by eapply act_yields_mono].
  - destruct ph; try done. intros (o & ? & ?). exists o.
    split; [by eapply prefix_lookup_Some|by eapply act_yields_mono].
Qed.

Lemma thread_sem_worker Q Π printed printed' total om stop ph :
  thread_sem Q Π printed total om (Worker stop ph) →
  thread_sem Q Π printed' total om (Worker stop ph).
Proof. done. Qed.

(** Changing the counters of a task, or ending its suspension, keeps what
    is known of its outcome. *)
Lemma task_sem_update Q Π (l : list task_state) t ts ts' :
  l !! t = Some ts →
  (∀ body, frame ts' = FSuspended body → frame ts = FSuspended body) →
  (∀ o, result_ ts' = Some o → result_ ts = Some o ∨ Π !! t = Some o) →
  (∀ t0 ts0, l !! t0 = Some ts0 → task_sem Q Π t0 ts0) →
  ∀ t0 ts0, <[t:=ts']> l !! t0 = Some ts0 → task_sem Q Π t0 ts0.
Proof.
  intros Ht Hf Hr Hall t0 ts0 [(-> & <- & _)|[? ?]]%list_lookup_insert_Some; [|by apply Hall].
  destruct (Hall _ _ Ht) as (o & Ho & Hb & Hres). exists o. split; [done|]. split.
  - intros body Hb'. apply Hb. by apply Hf.
  - intros o' [Ho'|Ho']%Hr; [by apply Hres|congruence].
Qed.

Lemma act_step_sem Q s i c a a' s' Π outs o :
  length Π = length (tasks s) → Forall Q Π →
  (∀ t ts, tasks s !! t = Some ts → task_sem Q Π t ts) →
  act_yields Q a Π outs o →
  act_step i c a s = Some (a', s') →
  ∃ Π' pr outs',
    Π `prefix_of` Π' ∧ length Π' = length (tasks s') ∧ Forall Q Π'
    ∧ (∀ t ts, tasks s' !! t = Some ts → task_sem Q Π' t ts)
    ∧ act_yields Q a' Π' outs' o
    ∧ out s' = out s ++ pr ∧ outs = pr ++ outs'
    ∧ (∀ j th, threads s' !! j = Some th →
         threads s !! j = Some th ∨ ∃ stop, th = Worker stop WWoken).
Proof.
  intros Hlen HQ Hts Hy Hstep.
  assert (∀ s1 : state, out s1 = out s1 ++ []) as Hnil by (intros; by rewrite app_nil_r).
  destruct a as [[v|e|body k|h kv ke|h k|args k]|[] t k]; cbn [act_step act_yields yields] in *.
  - done.
  - done.
  - (* Call *)
    destruct Hy as (ob & Hob & Hb & Hk). simplify_eq.
    exists (Π ++ [ob]), [], outs. norm.
    split; [by apply prefix_app_r|]. split; [by rewrite !length_app, Hlen|].
    split; [apply Forall_app; split; [done|by apply Forall_singleton]|].
    split; [|split; [|split; [by rewrite app_nil_r|split; [done|by left]]]].
    + intros t ts [Ht|[Hle Ht]]%lookup_app_Some.
      * eapply task_sem_mono; [by apply prefix_app_r|by apply Hts].
      * apply list_lookup_singleton_Some in Ht as [E <-].
        assert (t = length Π) as -> by lia. exists ob.
        split; [by rewrite list_lookup_middle|]. split; [|done].
        cbn. intros body' [= <-]. eapply yields_mono; [by apply prefix_app_r|done].
    + cbn [act_yields]. apply Hk; [by apply prefix_app_r|].
      by rewrite <- Hlen, list_lookup_middle.
  - (* Get *)
    destruct Hy as (oh & Hoh & Hc).
    destruct (tasks s !! h) as [ts|] eqn:Hh; simplify_eq/=. case_decide; [done|].
    destruct (Hts _ _ Hh) as (o' & Ho' & _ & Hr). simplify_eq.
    unfold Promise.get in Hstep.
    destruct (result_ ts) as [[v|e]|] eqn:Hres; simplify_eq;
      specialize (Hr _ eq_refl) as <-; exists Π, [], outs; norm; eauto 10.
  - (* Drop *)
    destruct (tasks s !! h) as [ts|] eqn:Hh; simplify_eq/=. case_decide; [done|]. simplify_eq.
    exists Π, [], outs. norm. rewrite length_insert. repeat split; eauto.
    eapply task_sem_update; eauto.
  - (* Printf *)
    destruct Hy as (outs' & -> & Hk). simplify_eq.
    exists Π, [args], outs'. norm. eauto 10.
  - (* get_state *)
    unfold get_state in Hstep.
    destruct (tasks s !! t) as [ts|] eqn:Ht; cbn in Hstep;
      [case_decide|]; simplify_eq; exists Π, [], outs; norm;
      rewrite ?length_insert; repeat split; eauto.
    eapply task_sem_update; eauto.
  - destruct (mutex_ s); simplify_eq. exists Π, [], outs. norm. eauto 10.
  - simplify_eq. exists Π, [], outs. norm. eauto 10.
  - simplify_eq. exists Π, [], outs. norm. eauto 10.
  - (* notify_one *)
    destruct (notify_one i c s) as [s1|] eqn:Hn; simplify_eq/=.
    destruct (tasks s1 !! t) as [ts|] eqn:Ht; simplify_eq/=.
    assert (tasks s1 = tasks s ∧ out s1 = out s
            ∧ ∀ j th, threads s1 !! j = Some th →
                threads s !! j = Some th ∨ ∃ stop, th = Worker stop WWoken) as (E1 & E2 & E3).
    { unfold notify_one in Hn. repeat case_match; simplify_eq; norm; eauto.
      repeat split; try done.
      intros j th [(-> & <- & _)|[? ?]]%list_lookup_insert_Some; eauto. }
    rewrite E1 in Ht. exists Π, [], outs. norm. rewrite E1, E2, length_insert.
    repeat split; eauto. eapply task_sem_update; eauto.
Qed.

(** A step of a thread that leaves the outcomes as they are. *)
Lemma sem_inv_same Q total om s s' Π :
  length (tasks s') = length (tasks s) → out s' = out s →
  length Π = length (tasks s) → Forall Q Π →
  (∀ t ts, tasks s' !! t = Some ts → task_sem Q Π t ts) →
  (∀ i th, threads s' !! i = Some th →
     threads s !! i = Some th
     ∨ (∃ th0, threads s !! i = Some th0 ∧ thread_sem Q Π (out s) total om th
               ∧ ∀ a, th = Client a → ∃ a0, th0 = Client a0)) →
  (∀ i th, threads s !! i = Some th → thread_sem Q Π (out s) total om th) →
  (∀ i a, threads s !! i = Some (Client a) → i = 0%nat) →
  sem_inv Q total om s'.
Proof.
  intros Hl Ho Hlen HQ Hts Hth Hths Hcl. exists Π. rewrite Hl, Ho.
  repeat split; try done.
  - intros i th [H|(th0 & H0 & H & _)]%Hth; [by eapply Hths|done].
  - intros i a [H|(th0 & H0 & _ & H)]%Hth; [by eapply Hcl|].
    destruct (H a eq_refl) as [a0 ->]. by eapply Hcl.
Qed.

Ltac same_outcomes Hth :=
  match goal with
  | Hlen : length ?Π = length (tasks ?s), Hts : ∀ t ts, tasks ?s !! t = Some ts → _
    |- sem_inv ?Q ?total ?om _ =>
      eapply (sem_inv_same Q total om s _ Π); norm; rewrite ?length_insert; try done;
      [ .. |
        intros j th Hj;
        first
          [ apply list_lookup_insert_Some in Hj as [(-> & <- & _)|[_ Hj]];
            [right; eexists; split; [exact Hth|split; [|by intros ? [=]]]; try done
            |by left]
          | by left ] ]
  end.

Lemma sem_step Q total om s l s' :
  inv s → sem_inv Q total om s → step l s = Some s' → sem_inv Q total om s'.
Proof.
  intros Hinv (Π & Hlen & HQ & Hts & Hths & Hcl) Hstep.
  pose proof Hinv as (Hf & _).
  unfold step in Hstep. rewrite Hf in Hstep.
  destruct l as [i c|w|w].
  - destruct (threads s !! i) as [[a|stop ph]|] eqn:Hth; simplify_eq/=.
    + (* a caller thread *)
      destruct (act_step i c a s) as [[a' s1]|] eqn:Hact; simplify_eq/=.
      destruct (Hths _ _ Hth) as (rest & Htot & Hy).
      destruct (act_step_sem Q _ _ _ _ _ _ _ _ _ Hlen HQ Hts Hy Hact)
        as (Π' & pr & outs' & Hpre & Hlen' & HQ' & Hts' & Hy' & Hout & Houts & Hthr).
      exists Π'. norm. repeat split; try done.
      * intros j th [(-> & <- & _)|[Hne Hj]]%list_lookup_insert_Some.
        -- exists outs'. split; [|done]. by rewrite Hout, <- app_assoc, <- Houts.
        -- destruct (Hthr _ _ Hj) as [Hj'|[stop ->]]; [|done].
           destruct th as [a0|stop ph].
           ++ pose proof (Hcl _ _ Hj'). pose proof (Hcl _ _ Hth). congruence.
           ++ eapply thread_sem_mono; [done|].
              eapply thread_sem_worker, (Hths _ _ Hj').
      * intros j a0 [(-> & _ & _)|[Hne Hj]]%list_lookup_insert_Some; [by eapply Hcl|].
        destruct (Hthr _ _ Hj) as [Hj'|[stop ?]]; [by eapply Hcl|done].
    + (* a worker *)
      pose proof (Hths _ _ Hth) as Hw.
      destruct ph as [| | | | | | |t|t|t a|t|t|]; cbn [worker_step] in Hstep.
      all: try (repeat case_match; simplify_eq; same_outcomes Hth; fail).
      * (* execute *)
        unfold execute in Hstep. repeat case_match; simplify_eq; same_outcomes Hth.
        -- eapply task_sem_update; eauto; cbn; congruence.
        -- cbn. match goal with H : tasks s !! _ = Some _ |- _ =>
             destruct (Hts _ _ H) as (o & Ho & Hb & _) end.
           exists o. split; [done|]. by apply Hb.
      * (* inside the coroutine *)
        destruct Hw as (o & Ho & Hy).
        assert ((∃ v, a = Run (Ret v)) ∨ (∃ e, a = Run (Throw e))
                ∨ worker_step i c stop (WRunning t a) s
                  = '(a', s') ← act_step i c a s;
                    Some (set_thread i (Worker stop (WRunning t a')) s'))
          as [[v ->]|[[e ->]|E]].
        { destruct a as [[]|]; eauto. }
        -- (* co_return *)
           destruct (step_return s i c stop t v Hinv Hth) as (ts & Hts0 & Hr & Hs).
           unfold step in Hs. rewrite Hf, Hth in Hs. cbn in Hs. simplify_eq.
           rewrite Hs. same_outcomes Hth.
           eapply task_sem_update; eauto; cbn.
           intros o' [= <-]. right. cbn in Hy. by destruct Hy as [_ ->].
        -- (* an exception leaves the body *)
           destruct (step_throw s i c stop t e Hinv Hth) as (ts & Hts0 & Hr & Hs).
           unfold step in Hs. rewrite Hf, Hth in Hs. cbn in Hs. simplify_eq.
           rewrite Hs. same_outcomes Hth.
           eapply task_sem_update; eauto; cbn.
           intros o' [= <-]. right. cbn in Hy. by destruct Hy as [_ ->].
        -- cbn [worker_step] in E. rewrite E in Hstep. clear E.
           destruct (act_step i c a s) as [[a' s1]|] eqn:Hact; simplify_eq/=.
           destruct (act_step_sem Q _ _ _ _ _ _ _ _ _ Hlen HQ Hts Hy Hact)
             as (Π' & pr & outs' & Hpre & Hlen' & HQ' & Hts' & Hy' & Hout & Houts & Hthr).
           symmetry in Houts. apply app_eq_nil in Houts as [-> ->].
           rewrite app_nil_r in Hout.
           exists Π'. norm. rewrite Hout. repeat split; try done.
           ++ intros j th [(-> & <- & _)|[Hne Hj]]%list_lookup_insert_Some.
              ** exists o. split; [by eapply prefix_lookup_Some|done].
              ** destruct (Hthr _ _ Hj) as [Hj'|[stop' ->]]; [|done].
                 eapply thread_sem_mono; [done|]. by eapply Hths.
           ++ intros j a0 [(-> & ? & _)|[Hne Hj]]%list_lookup_insert_Some; [done|].
              destruct (Hthr _ _ Hj) as [Hj'|[stop' ?]]; [by eapply Hcl|done].
      * (* final_suspend *)
        unfold final_suspend, get_state in Hstep.
        repeat (case_match || simplify_option_eq); same_outcomes Hth.
        eapply task_sem_update; eauto; cbn; congruence.
      * (* the item is released *)
        destruct (tasks s !! t) as [ts|] eqn:Ht; simplify_eq/=. same_outcomes Hth.
        eapply task_sem_update; eauto.
  - repeat case_match; simplify_eq. same_outcomes H.
  - repeat case_match; simplify_eq.
    match goal with |- context [wake (Worker true ?ph)] => destruct ph end;
      cbn [wake]; same_outcomes H. exact (Hths _ _ H).
Qed.

Lemma client_step s l s' i a :
  step l s = Some s' → threads s !! i = Some (Client a) →
  ∃ a', threads s' !! i = Some (Client a').
Proof.
  intros Hstep Hi.
  assert (∀ j th (l0 : list thread), (∃ a0, l0 !! i = Some (Client a0)) →
            (j = i → ∃ a0, th = Client a0) →
            ∃ a', <[j:=th]> l0 !! i = Some (Client a')) as Hins.
  { intros j th l0 [a0 Hl] He. destruct (decide (j = i)) as [->|Hji].
    - destruct (He eq_refl) as [a1 ->]. exists a1.
      apply list_lookup_insert_eq. by eapply lookup_lt_Some.
    - exists a0. by rewrite list_lookup_insert_ne. }
  step_inv Hstep; eauto.
  all: repeat (apply Hins; [|intros ->; simplify_eq; eauto]); eauto.
Qed.

Lemma sem_init Q n main total om :
  yields Q main [] total om → sem_inv Q total om (init n [main]).
Proof.
  intros Hy. exists []. cbn [init tasks threads out]. repeat split; try done.
  - intros [|i] th Hi; simplify_eq/=; [by exists total|].
    apply lookup_replicate in Hi as [-> _]. done.
  - intros [|i] a Hi; [done|]. simplify_eq/=. by apply lookup_replicate in Hi as [? _].
Qed.

Lemma exec_sem Q n main total om ls s :
  yields Q main [] total om → exec ls (init n [main]) = Some s → sem_inv Q total om s.
Proof.
  intros Hy H%exec_reachable.
  assert (inv s ∧ sem_inv Q total om s) as [_ ?]; [|done].
  induction H as [|s1 l s2 Hr [IH1 IH2] Hs].
  - split; [apply inv_init|by apply sem_init].
  - split; [by eapply inv_step|by eapply sem_step].
Qed.

Lemma exec_client n main ls s :
  exec ls (init n [main]) = Some s → ∃ a, threads s !! 0%nat = Some (Client a).
Proof.
  intros H%exec_reachable. induction H as [|s1 l s2 Hr [a IH] Hs]; [by eexists|].
  by eapply client_step.
Qed.

(** What every run of a caller that [yields] has in common. *)
Lemma sem_result Q n main total om ls s :
  yields Q main [] total om → exec ls (init n [main]) = Some s →
  failed s = None
  ∧ (∀ t o, slot s t = Some o → Q o)
  ∧ (∀ i t o, EvRead i t o ∈ log s → Q o)
  ∧ out s `prefix_of` total
  ∧ (∀ v, threads s !! 0%nat = Some (Client (Run (Ret v))) → out s = total ∧ om = Value v).
Proof.
  intros Hy Hexec.
  destruct (exec_sem Q _ _ _ _ _ _ Hy Hexec) as (Π & Hlen & HQ & Hts & Hths & Hcl).
  pose proof (exec_inv _ _ _ _ Hexec) as (Hf & _).
  assert (∀ t o, slot s t = Some o → Q o) as Hslot.
  { intros t o Hs. unfold slot in Hs.
    destruct (tasks s !! t) as [ts|] eqn:Ht; simplify_eq/=.
    destruct (Hts _ _ Ht) as (o' & Ho' & _ & Hr). rewrite (Hr _ Hs).
    eapply list.Forall_forall; [exact HQ|by eapply list_elem_of_lookup_2]. }
  split; [done|]. split; [done|]. split; [|split].
  - intros i t o Hin. apply (exec_reads _ _ _ _ Hexec) in Hin. by eapply Hslot.
  - destruct (exec_client _ _ _ _ Hexec) as [a Ha].
    destruct (Hths _ _ Ha) as (rest & -> & _). by eexists.
  - intros v Hv. destruct (Hths _ _ Hv) as (rest & -> & [-> ->]).
    by rewrite app_nil_r.
Qed.

(** ** The example *)

Lemma yields_fib_loop Q m : ∀ a b Π,
  (∀ v, Q (Value v)) → yields Q (fib_loop m a b) Π [] (Value (fib_iter m a b)).
Proof.
  induction m as [|m IH]; intros a b Π HQ; cbn [fib_loop fib_iter yields]; [done|].
  exists (Value (int_add a b)). split; [done|]. split; [done|].
  intros Π' t _ Ht. exists (Value (int_add a b)). split; [done|]. by apply IH.
Qed.

Lemma yields_async_fib Q n Π :
  (∀ v, Q (Value v)) → yields Q (async_fib n) Π [] (Value (fib_value n)).
Proof.
  intros HQ. unfold async_fib, fib_value. case_match; [done|by apply yields_fib_loop].
Qed.

Lemma yields_test_loop Q m : ∀ i Π,
  (∀ v, Q (Value v)) → yields Q (test_loop m i) Π (fib_lines m i) (Value 0%Z).
Proof.
  induction m as [|m IH]; intros i Π HQ; cbn [test_loop fib_lines yields]; [done|].
  exists (Value (fib_value i)). split; [done|]. split; [by apply yields_async_fib|].
  intros Π' t _ Ht. exists (Value (fib_value i)). split; [done|].
  eexists. split; [done|]. by apply IH.
Qed.

Lemma yields_add_main :
  yields (λ o, o = Value 7%Z) add_main [] [[7%Z]] (Value 0%Z).
Proof.
  cbn [add_main yields]. exists (Value 7%Z). split; [done|]. split; [done|].
  intros Π' t _ Ht. exists (Value 7%Z). split; [done|]. by exists [].
Qed.


(** C8. The example scenario.  Whatever the number of workers and the
    schedule, in a run of the caller of [async_add (3, 4)] a slot is
    written at most once and with 7, every read returns 7, and 7 is what
    the caller prints; in a run of [test_async_fib] no task fails, the
    lines printed so far are the first of (1, 1), (2, 1), (3, 2), (4, 3),
    (5, 5), (6, 8), (7, 13), (8, 21), (9, 34), and all of them once the
    caller is at its end.  With the eight workers of the default pool
    both callers do get to their end. *)
Theorem example_scenario n ls s :
  (exec ls (init n [add_main]) = Some s →
     failed s = None
     ∧ (∀ t o, slot s t = Some o → o = Value 7%Z)
     ∧ (∀ t, written t (log s) = [] ∨ written t (log s) = [Value 7%Z])
     ∧ (∀ i t o, EvRead i t o ∈ log s → o = Value 7%Z)
     ∧ out s `prefix_of` [[7%Z]]
     ∧ (∀ v, threads s !! 0%nat = Some (Client (Run (Ret v))) → out s = [[7%Z]]))
  ∧ (exec ls (init n [test_async_fib]) = Some s →
     failed s = None
     ∧ (∀ t o, slot s t = Some o → ∃ v, o = Value v)
     ∧ out s `prefix_of`
         ([[1; 1]; [2; 1]; [3; 2]; [4; 3]; [5; 5]; [6; 8]; [7; 13]; [8; 21]; [9; 34]])%Z
     ∧ (∀ v, threads s !! 0%nat = Some (Client (Run (Ret v))) →
          out s = ([[1; 1]; [2; 1]; [3; 2]; [4; 3]; [5; 5]; [6; 8]; [7; 13]; [8; 21];
                    [9; 34]])%Z))
  ∧ (let s1 := run 100 (init DEFAULT_CONCURRENCY_LEVEL [add_main]) in
     exec (run_trace 100 (init DEFAULT_CONCURRENCY_LEVEL [add_main]))
          (init DEFAULT_CONCURRENCY_LEVEL [add_main]) = Some s1
     ∧ written 0 (log s1) = [Value 7%Z]
     ∧ EvRead 0 0 (Value 7%Z) ∈ log s1
     ∧ threads s1 !! 0%nat = Some (Client (Run (Ret 0%Z))))
  ∧ (let s2 := run 1000 (init DEFAULT_CONCURRENCY_LEVEL [test_async_fib]) in
     exec (run_trace 1000 (init DEFAULT_CONCURRENCY_LEVEL [test_async_fib]))
          (init DEFAULT_CONCURRENCY_LEVEL [test_async_fib]) = Some s2
     ∧ threads s2 !! 0%nat = Some (Client (Run (Ret 0%Z)))).
Proof.
  split; [|split; [|split]].
  - intros Hexec.
    destruct (sem_result _ _ _ _ _ _ _ yields_add_main Hexec) as (Hf & Hs & Hr & Hp & He).
    pose proof (exec_inv _ _ _ _ Hexec) as (_ & _ & _ & [_ Hw] & _).
    repeat split; try done.
    + intros t. rewrite Hw. destruct (slot s t) as [o|] eqn:E; [|by left].
      right. by rewrite (Hs _ _ E).
    + intros v Hv. by destruct (He _ Hv).
  - intros Hexec.
    assert (∀ v, is_value (Value v)) as HQ by (intros v; by exists v).
    destruct (sem_result is_value _ _ _ _ _ _ (yields_test_loop _ 9 1%Z [] HQ) Hexec)
      as (Hf & Hs & _ & Hp & He).
    repeat split; try done. intros v Hv. by destruct (He _ Hv).
  - cbv zeta. split; [|split; [|split]]; try (vm_compute; reflexivity).
    vm_compute. repeat constructor.
  - cbv zeta. split; vm_compute; reflexivity.
Qed.

Lemma example_scenario_witness :
  out (run 100 (init DEFAULT_CONCURRENCY_LEVEL [add_main])) = [[7%Z]]
  ∧ out (run 1000 (init DEFAULT_CONCURRENCY_LEVEL [test_async_fib])) =
      ([[1; 1]; [2; 1]; [3; 2]; [4; 3]; [5; 5]; [6; 8]; [7; 13]; [8; 21]; [9; 34]])%Z.
Proof.
  split.
  - destruct (example_scenario DEFAULT_CONCURRENCY_LEVEL
                (run_trace 100 (init DEFAULT_CONCURRENCY_LEVEL [add_main]))
                (run 100 (init DEFAULT_CONCURRENCY_LEVEL [add_main]))) as [H _].
    destruct H as (_ & _ & _ & _ & _ & H); [vm_compute; reflexivity|].
    apply (H 0%Z). vm_compute. reflexivity.
  - destruct (example_scenario DEFAULT_CONCURRENCY_LEVEL
                (run_trace 1000 (init DEFAULT_CONCURRENCY_LEVEL [test_async_fib]))
                (run 1000 (init DEFAULT_CONCURRENCY_LEVEL [test_async_fib]))) as (_ & H & _).
    destruct H as (_ & _ & _ & H); [vm_compute; reflexivity|].
    apply (H 0%Z). vm_compute. reflexivity.
Defined.


(** ** The mutex and the queue *)

(** X1. Mutual exclusion: a thread is between acquiring and releasing
    [mutex_] exactly when it is the holder, so two threads never are at
    once; and the queue changes only in a step of the holder, which
    still holds the mutex afterwards. *)
Theorem mutual_exclusion n mains ls s :
  exec ls (init n mains) = Some s →
  (∀ i th, threads s !! i = Some th → (holds th = true ↔ mutex_ s = Some i))
  ∧ (∀ i j thi thj, threads s !! i = Some thi → threads s !! j = Some thj →
       holds thi = true → holds thj = true → i = j)
  ∧ (∀ l s', step l s = Some s' → queue_ s' ≠ queue_ s →
       ∃ i c, l = Step i c ∧ mutex_ s = Some i ∧ mutex_ s' = Some i).
Proof.
  intros Hexec. pose proof (exec_inv _ _ _ _ Hexec) as (Hf & Hm & _).
  split; [exact Hm|]. split.
  - intros i j thi thj Hi Hj Hhi Hhj.
    apply (Hm _ _ Hi) in Hhi. apply (Hm _ _ Hj) in Hhj. congruence.
  - intros l s' Hstep Hq. step_inv Hstep; try done.
    all: match goal with H : threads _ !! ?i = Some _ |- _ =>
           exists i; eexists; split; [done|]; split; [|by apply (Hm _ _ H)];
           by apply (Hm _ _ H) end.
Qed.

Lemma mutual_exclusion_witness :
  mutex_ (run 4 (init 2 [add_main])) = Some 0%nat.
Proof.
  destruct (mutual_exclusion 2 [add_main] (run_trace 4 (init 2 [add_main]))
              (run 4 (init 2 [add_main]))) as (H & _).
  - vm_compute. reflexivity.
  - apply (H 0%nat (Client (Sched SUnlock 0%nat
             (Get 0%nat (λ r, Printf [r] (Drop 0%nat (Ret 0%Z)))
                (λ e, Drop 0%nat (Throw e)))))); vm_compute; reflexivity.
Defined.

(** X2. Order of service, for any number of workers: the items are
    dequeued in the order they were queued, none twice and none lost:
    what was submitted is what was dequeued followed by what is queued;
    and everything in the queue is a task that has not begun. *)
Theorem dequeue_order n mains ls s :
  exec ls (init n mains) = Some s →
  submitted (log s) = popped (log s) ++ queue_ s
  ∧ NoDup (submitted (log s))
  ∧ (∀ t, t ∈ queue_ s →
       ∃ ts body, tasks s !! t = Some ts ∧ frame ts = FSuspended body
                  ∧ result_ ts = None ∧ handle_ ts = true).
Proof.
  intros Hexec. pose proof (exec_inv _ _ _ _ Hexec) as Hinv.
  pose proof (submitted_NoDup _ Hinv) as Hnd.
  destruct Hinv as (_ & _ & _ & [Hl _] & Ht).
  split; [done|]. split; [done|].
  intros t Hin%q_occ_elem. specialize (Ht t). unfold task_inv in Ht.
  destruct (tasks s !! t) as [[h r [body| |] u o]|]; red_task; try lia.
  exists (TaskState h r (FSuspended body) u o), body.
  repeat split; [destruct r; [lia|done]|destruct h; [done|lia]].
Qed.

Lemma dequeue_order_witness :
  submitted (log (run 12 (init 2 [two_main])))
  = popped (log (run 12 (init 2 [two_main]))) ++ queue_ (run 12 (init 2 [two_main])).
Proof.
  apply (dequeue_order 2 [two_main] (run_trace 12 (init 2 [two_main]))).
  vm_compute. reflexivity.
Defined.

(** X4. Lifetime of a task state: it is owned by the handles of user
    code and by the pool's own references, and by nothing else.  So it
    outlives every handle ([owners] never exceeds the strong count), a
    task that has not finished is alive even when no handle is left, and
    once it has finished it is kept only by the handles, by a creator that
    has not returned from [schedule] and by the worker that is about to
    drop the item: no reference is leaked. *)
Theorem state_lifetime n mains ls s t ts :
  exec ls (init n mains) = Some s → tasks s !! t = Some ts →
  (owners ts ≤ use_count ts)%nat
  ∧ (frame ts ≠ FDestroyed → (owners ts < use_count ts)%nat)
  ∧ (frame ts = FDestroyed →
       use_count ts = (owners ts + tsum (c_s2 t) (threads s)
                       + tsum (c_rel t) (threads s))%nat)
  ∧ (use_count ts = 0%nat →
       frame ts = FDestroyed ∧ owners ts = 0%nat ∧ handle_ ts = false
       ∧ (∃ o, result_ ts = Some o) ∧ t ∉ queue_ s).
Proof.
  intros Hexec Hts. pose proof (exec_inv _ _ _ _ Hexec) as (_ & _ & _ & _ & Ht).
  specialize (Ht t). unfold task_inv in Ht. rewrite Hts in Ht. red_task.
  destruct Ht as (H1 & H2 & H3 & H4 & H5 & _).
  split; [lia|]. split; [|split].
  - intros Hfr. destruct (frame ts); [lia|lia|done].
  - intros Hfr. rewrite Hfr in *. lia.
  - intros Hu. assert (frame ts = FDestroyed) as Hfr by (destruct (frame ts); [lia|lia|done]).
    rewrite Hfr in *. split; [done|]. split; [lia|]. split; [|split].
    + destruct (handle_ ts); [lia|done].
    + destruct (result_ ts) as [o|]; [by exists o|lia].
    + intros Hin%q_occ_elem. lia.
Qed.

Lemma state_lifetime_witness :
  use_count (TaskState false (Some (Value 7%Z)) FDestroyed 0 0) = 0%nat.
Proof.
  destruct (state_lifetime 2 [add_main] (run_trace 100 (init 2 [add_main]))
              (run 100 (init 2 [add_main])) 0%nat
              (TaskState false (Some (Value 7%Z)) FDestroyed 0 0)) as (_ & _ & H & _).
  - vm_compute. reflexivity.
  - vm_compute. reflexivity.
  - rewrite H by reflexivity. vm_compute. reflexivity.
Defined.

(** ** The life of a task in the history of a run *)

Lemma step_current s l s' w stop' ph' t :
  step l s = Some s' → threads s' !! w = Some (Worker stop' ph') →
  current_task ph' = Some t →
  (∃ stop ph, threads s !! w = Some (Worker stop ph) ∧ current_task ph = Some t)
  ∨ log s' = log s ++ [EvPop w t].
Proof.
  intros Hstep Hw Hc.
  step_inv Hstep;
    repeat match goal with
    | H : <[?i:=_]> _ !! w = Some _ |- _ =>
        destruct (decide (w = i)) as [->|?];
        [rewrite list_lookup_insert_eq in H by
           (rewrite ?length_insert; by eapply lookup_lt_Some)
        |rewrite list_lookup_insert_ne in H by done]
    end; simplify_eq/=; eauto.
  all: try (destruct ph; simplify_eq/=; eauto).
Qed.

Lemma exec_current n mains ls s w stop ph t :
  exec ls (init n mains) = Some s → threads s !! w = Some (Worker stop ph) →
  current_task ph = Some t → EvPop w t ∈ log s.
Proof.
  intros H%exec_reachable. revert stop ph.
  induction H as [|s1 l s2 Hr IH Hs]; intros stop ph Hw Hc.
  - cbn [init threads] in Hw. apply lookup_app_Some in Hw as [Hw|[_ Hw]].
    + rewrite list_lookup_fmap in Hw. by destruct (mains !! w).
    + apply lookup_replicate in Hw as [? _]. by simplify_eq.
  - destruct (step_current _ _ _ _ _ _ _ Hs Hw Hc) as [(stop0 & ph0 & Hw0 & Hc0)|E].
    + destruct (step_log _ _ _ Hs) as [->|[e ->]]; [by eapply IH|].
      apply elem_of_app. left. by eapply IH.
    + rewrite E. apply elem_of_app. right. by left.
Qed.

Lemma tsum_pos_event (f : event → nat) pre e :
  f e = 0%nat → (0 < tsum f (pre ++ [e]))%nat → ∃ x, x ∈ pre ∧ (0 < f x)%nat.
Proof. rewrite tsum_snoc. intros -> H. apply tsum_pos_elem. lia. Qed.

(** X5. The life of a task, as the history of every run shows it: it is
    dequeued after it was submitted, resumed after it was dequeued and
    by the worker that dequeued it, its outcome is stored after it was
    resumed, its handle is nulled after the outcome is stored, and a
    [get_result] returns after the outcome it returns was stored. *)
Theorem life_cycle n mains ls s t pre post :
  exec ls (init n mains) = Some s →
  (∀ w, log s = pre ++ EvPop w t :: post → ∃ i, EvSubmit i t ∈ pre)
  ∧ (∀ w, log s = pre ++ EvResume w t :: post → EvPop w t ∈ pre)
  ∧ (∀ o, log s = pre ++ EvWrite t o :: post → ∃ w, EvResume w t ∈ pre)
  ∧ (log s = pre ++ EvInvalidate t :: post → ∃ o, EvWrite t o ∈ pre)
  ∧ (∀ i o, log s = pre ++ EvRead i t o :: post → EvWrite t o ∈ pre).
Proof.
  intros Hexec. pose proof (exec_reachable _ _ _ Hexec) as Hr.
  assert (∀ e, log s = pre ++ e :: post →
            ∃ l sp sp', inv sp ∧ inv sp' ∧ (∃ ls0, exec ls0 (init n mains) = Some sp)
              ∧ step l sp = Some sp' ∧ log sp = pre ∧ log sp' = pre ++ [e]
              ∧ event_sem sp e sp') as Hcut.
  { intros e E. destruct (log_prefix (init n mains) _ _ _ _ eq_refl Hr E)
      as (l & sp & sp' & Hr0 & Hs & E0 & E1 & Hsem & _).
    pose proof (reachable_inv _ _ (inv_init n mains) Hr0) as Hinv.
    exists l, sp, sp'. split; [done|]. split; [by eapply inv_step|].
    split; [by apply reachable_exec|done]. }
  split; [|split; [|split; [|split]]].
  - intros w (l & sp & sp' & Hinv & Hinv' & _ & Hs & E0 & E1 & Hsem)%Hcut.
    destruct Hinv' as (_ & _ & _ & [Hl _] & _). rewrite E1 in Hl.
    rewrite submitted_app, popped_snoc in Hl. cbn in Hl. rewrite app_nil_r in Hl.
    assert (t ∈ submitted pre) as Hin.
    { rewrite Hl. rewrite !elem_of_app, list_elem_of_singleton. auto. }
    unfold submitted in Hin. apply list_elem_of_omap in Hin as (e & He & Ht).
    destruct e; simplify_eq. eauto.
  - intros w (l & sp & sp' & Hinv & Hinv' & [ls0 Hex] & Hs & E0 & E1 & [stop Hw])%Hcut.
    rewrite <- E0. by eapply exec_current.
  - intros o (l & sp & sp' & Hinv & Hinv' & _ & Hs & E0 & E1 & Hsem)%Hcut.
    destruct Hinv' as (_ & _ & _ & _ & Ht). specialize (Ht t). unfold task_inv in Ht.
    rewrite E1 in Ht. destruct Hsem as (_ & Hslot & _). unfold slot in Hslot.
    destruct (tsum_pos_event (is_resume t) pre (EvWrite t o)) as (x & Hx & Hfx); [done| |].
    { destruct (tasks sp' !! t) as [[? ? [] ? ?]|]; simplify_eq/=; red_task; lia. }
    destruct x; cbn in Hfx; try lia. unfold ind in Hfx. case_decide; [subst; eauto|lia].
  - intros (l & sp & sp' & Hinv & Hinv' & _ & Hs & E0 & E1 & Hsem)%Hcut.
    destruct Hinv' as (_ & _ & _ & _ & Ht). specialize (Ht t). unfold task_inv in Ht.
    rewrite E1 in Ht.
    destruct (tsum_pos_event (is_write t) pre (EvInvalidate t)) as (x & Hx & Hfx); [done| |].
    { rewrite (tsum_snoc (is_invalidate t)) in Ht. cbn [is_invalidate] in Ht.
      unfold ind in Ht at 1. rewrite decide_True in Ht by done.
      destruct (tasks sp' !! t) as [[? ? [] ? ?]|]; simplify_eq/=; red_task; lia. }
    destruct x; cbn in Hfx; try lia. unfold ind in Hfx. case_decide; [subst; eauto|lia].
  - intros i o (l & sp & sp' & Hinv & Hinv' & _ & Hs & E0 & E1 & [Hslot _])%Hcut.
    destruct Hinv as (_ & _ & _ & [_ Hw] & _). specialize (Hw t).
    rewrite E0, Hslot in Hw. cbn in Hw.
    assert (o ∈ written t pre) as Hin by (rewrite Hw; by left).
    unfold written in Hin. apply list_elem_of_omap in Hin as (e & He & Ht).
    destruct e; simplify_eq. case_decide; by simplify_eq.
Qed.

Lemma life_cycle_witness :
  EvPop 1 0 ∈ [EvLock 0; EvSubmit 0 0; EvUnlock 0; EvNotifyOne 0; EvLock 1; EvPop 1 0;
               EvUnlock 1].
Proof.
  destruct (life_cycle 2 [add_main] (run_trace 100 (init 2 [add_main]))
              (run 100 (init 2 [add_main])) 0%nat
              [EvLock 0; EvSubmit 0 0; EvUnlock 0; EvNotifyOne 0; EvLock 1; EvPop 1 0;
               EvUnlock 1]
              [EvWrite 0 (Value 7%Z); EvRead 0 0 (Value 7%Z); EvInvalidate 0; EvLock 1;
               EvWait 1; EvLock 2; EvWait 2]) as (_ & H & _).
  - vm_compute. reflexivity.
  - apply (H 1%nat). vm_compute. reflexivity.
Defined.

(** ** Starvation of the pool *)

Lemma starved_spec s :
  starved s = true ↔
  ∀ w stop ph, threads s !! w = Some (Worker stop ph) →
    ph = WExited ∨ ∃ t c kv ke, ph = WRunning t (Run (Get c kv ke)) ∧ slot s c = None.
Proof.
  unfold starved. rewrite List.forallb_forall. split.
  - intros H w stop ph Hw. apply list_elem_of_lookup_2, list_elem_of_In, H in Hw.
    cbn in Hw.
    destruct ph as [| | | | | | | | |t [[]|]| | |]; try done; [|by left].
    right. destruct (slot s h) eqn:E; [done|]. eauto 10.
  - intros H th [w Hw]%list_elem_of_In%list_elem_of_lookup_1.
    destruct th as [a|stop ph]; [done|].
    destruct (H _ _ _ Hw) as [->|(t & c & kv & ke & -> & E)]; [done|].
    cbn. by rewrite E.
Qed.

Lemma act_step_slots s i c a a' s' :
  act_step i c a s = Some (a', s') →
  (∀ t, slot s' t = slot s t)
  ∧ (threads s' = threads s
     ∨ ∃ stop, threads s !! c = Some (Worker stop WBlocked)
               ∧ threads s' = <[c:=Worker stop WWoken]> (threads s)).
Proof.
  intros Hstep.
  assert (∀ t0 ts0 ts1 t, tasks s !! t0 = Some ts0 → result_ ts1 = result_ ts0 →
            <[t0:=ts1]> (tasks s) !! t ≫= result_ = slot s t) as Hins.
  { intros t0 ts0 ts1 t H0 Hr. unfold slot. destruct (decide (t0 = t)) as [->|Hne].
    - rewrite list_lookup_insert_eq by (by eapply lookup_lt_Some). rewrite H0. done.
    - by rewrite list_lookup_insert_ne. }
  unfold slot in *.
  destruct a as [[]|[]]; simplify_eq/=.
  - split; [|by left]. intros t. destruct (decide (t < length (tasks s))%nat).
    + by rewrite lookup_app_l.
    + rewrite (lookup_ge_None_2 (tasks s)) by lia.
      rewrite lookup_app_r by lia. by destruct (t - length (tasks s))%nat.
  - destruct (tasks s !! h) as [ts0|] eqn:E; simplify_eq/=. case_decide; [done|].
    unfold Promise.get in Hstep. destruct (result_ ts0) as [[]|]; simplify_eq/=; auto.
  - destruct (tasks s !! h) as [ts0|] eqn:E; simplify_eq/=. case_decide; [done|].
    simplify_eq. norm. split; [|by left]. intros t. by eapply Hins.
  - auto.
  - unfold get_state in Hstep. destruct (tasks s !! t) as [ts0|] eqn:E; simplify_eq/=; [|auto].
    case_decide; simplify_eq/=; [auto|]. norm. split; [|by left]. intros t'. by eapply Hins.
  - destruct (mutex_ s); simplify_eq. auto.
  - auto.
  - auto.
  - destruct (notify_one i c s) as [s2|] eqn:Hn; simplify_eq/=.
    assert (tasks s2 = tasks s
            ∧ (threads s2 = threads s
               ∨ ∃ stop, threads s !! c = Some (Worker stop WBlocked)
                         ∧ threads s2 = <[c:=Worker stop WWoken]> (threads s))) as [Htk Hth].
    { unfold notify_one in Hn. repeat case_match; simplify_eq; norm; eauto. }
    rewrite Htk in Hstep. destruct (tasks s !! t) as [ts0|] eqn:E; simplify_eq/=.
    norm. rewrite Htk. split; [|done]. intros t'. by eapply Hins.
Qed.

Lemma starved_step s l s' :
  starved s = true → step l s = Some s' →
  starved s' = true
  ∧ (∀ t, slot s' t = slot s t)
  ∧ (∀ w stop ph, threads s !! w = Some (Worker stop ph) →
       ∃ stop', threads s' !! w = Some (Worker stop' ph))
  ∧ (∀ i c kv ke, threads s !! i = Some (Client (Run (Get c kv ke))) → slot s c = None →
       threads s' !! i = Some (Client (Run (Get c kv ke)))).
Proof.
  intros Hst Hstep.
  assert ((∀ t, slot s' t = slot s t)
    ∧ (∀ j, threads s' !! j = threads s !! j
         ∨ (∃ stop ph, threads s !! j = Some (Worker stop ph)
                       ∧ threads s' !! j = Some (Worker true ph))
         ∨ (∃ a a', threads s !! j = Some (Client a) ∧ threads s' !! j = Some (Client a')
                    ∧ ∀ c kv ke, a = Run (Get c kv ke) → slot s c ≠ None))) as [Hsl Hth].
  { pose proof (proj1 (starved_spec s) Hst) as Hsp.
    unfold step in Hstep. destruct (failed s); [done|]. destruct l as [i c|w|w].
    - destruct (threads s !! i) as [[a|stop ph]|] eqn:Hi; simplify_eq/=.
      + destruct (act_step i c a s) as [[a' s1]|] eqn:Hact; simplify_eq/=.
        destruct (act_step_slots _ _ _ _ _ _ Hact) as [Hsl [Hth|(stop & Hc & Hth)]].
        2:{ destruct (Hsp _ _ _ Hc) as [?|(? & ? & ? & ? & ? & _)]; done. }
        split; [done|]. intros j. norm. rewrite Hth.
        destruct (decide (j = i)) as [->|Hne]; [|left; by rewrite list_lookup_insert_ne].
        right. right. exists a, a'. split; [done|].
        split; [apply list_lookup_insert_eq; by eapply lookup_lt_Some|].
        intros c0 kv ke -> Hnone. cbn in Hact. unfold slot in Hnone.
        destruct (tasks s !! c0) as [ts|]; simplify_eq/=. case_decide; [done|].
        unfold Promise.get in Hact. by rewrite Hnone in Hact.
      + destruct (Hsp _ _ _ Hi) as [->|(t & c0 & kv & ke & -> & Hnone)]; [done|].
        cbn in Hstep. unfold slot in Hnone.
        destruct (tasks s !! c0) as [ts|]; simplify_eq/=. case_decide; [done|].
        unfold Promise.get in Hstep. by rewrite Hnone in Hstep.
    - destruct (threads s !! w) as [[a|stop ph]|] eqn:Hw; simplify_eq/=.
      destruct (Hsp _ _ _ Hw) as [->|(? & ? & ? & ? & -> & _)]; done.
    - destruct (threads s !! w) as [[a|[] ph]|] eqn:Hw; simplify_eq/=.
      split; [done|]. intros j. norm.
      destruct (decide (j = w)) as [->|Hne]; [|left; by rewrite list_lookup_insert_ne].
      right. left. exists false, ph. split; [done|].
      rewrite list_lookup_insert_eq by (by eapply lookup_lt_Some).
      destruct (Hsp _ _ _ Hw) as [->|(? & ? & ? & ? & -> & _)]; done. }
  split; [|split; [done|split]].
  - apply starved_spec. intros w stop ph Hw.
    pose proof (proj1 (starved_spec s) Hst) as Hsp.
    destruct (Hth w) as [E|[(stop0 & ph0 & E0 & E)|(a & a' & _ & E & _)]].
    + rewrite E in Hw. destruct (Hsp _ _ _ Hw) as [?|(t & c & kv & ke & ? & ?)]; [by left|].
      right. exists t, c, kv, ke. by rewrite Hsl.
    + rewrite E in Hw. simplify_eq.
      destruct (Hsp _ _ _ E0) as [?|(t & c & kv & ke & ? & ?)]; [by left|].
      right. exists t, c, kv, ke. by rewrite Hsl.
    + rewrite E in Hw. done.
  - intros w stop ph Hw.
    destruct (Hth w) as [E|[(stop0 & ph0 & E0 & E)|(a & a' & E0 & _)]].
    + exists stop. by rewrite E.
    + rewrite Hw in E0. simplify_eq. by exists true.
    + rewrite Hw in E0. done.
  - intros i c kv ke Hi Hnone.
    destruct (Hth i) as [E|[(stop0 & ph0 & E0 & E)|(a & a' & E0 & _ & Hget)]].
    + by rewrite E.
    + rewrite Hi in E0. done.
    + rewrite Hi in E0. simplify_eq. by destruct (Hget _ _ _ eq_refl).
Qed.

(** X6. Starvation: once every worker of the pool is inside a coroutine
    that waits in [get_result] for an outcome not yet stored (or has left
    its loop), nothing is ever stored again: in whatever way the run goes
    on, every slot is as it was, every worker is where it was, and a
    caller that waits for an empty slot waits for ever. *)
Theorem pool_starvation s ls s' :
  starved s = true → exec ls s = Some s' →
  starved s' = true
  ∧ (∀ t, slot s' t = slot s t)
  ∧ (∀ w stop ph, threads s !! w = Some (Worker stop ph) →
       ∃ stop', threads s' !! w = Some (Worker stop' ph))
  ∧ (∀ i c kv ke, threads s !! i = Some (Client (Run (Get c kv ke))) → slot s c = None →
       threads s' !! i = Some (Client (Run (Get c kv ke)))).
Proof.
  revert s. induction ls as [|l ls IH]; intros s Hst Hexec; simplify_eq/=.
  { repeat split; eauto. }
  destruct (step l s) as [s1|] eqn:Hs; simplify_eq/=.
  destruct (starved_step _ _ _ Hst Hs) as (Hst1 & Hsl1 & Hw1 & Hc1).
  destruct (IH _ Hst1 Hexec) as (Hst' & Hsl' & Hw' & Hc').
  split; [done|]. split; [|split].
  - intros t. by rewrite Hsl', Hsl1.
  - intros w stop ph [stop1 Hw]%Hw1. by eapply Hw'.
  - intros i c kv ke Hi Hnone. eapply Hc'; [by eapply Hc1|]. by rewrite Hsl1.
Qed.

Lemma pool_starvation_witness :
  starved (run 51 (init 1 [test_async_fib])) = true.
Proof.
  apply (pool_starvation (run 51 (init 1 [test_async_fib])) []
           (run 51 (init 1 [test_async_fib]))).
  - vm_compute. reflexivity.
  - reflexivity.
Defined.

(** ** No wake-up is lost *)

Ltac lookup_insert_all :=
  repeat match goal with
  | H : <[?i:=_]> _ !! ?i = Some _ |- _ =>
      rewrite list_lookup_insert_eq in H by
        (rewrite ?length_insert; by eapply lookup_lt_Some)
  | H : <[?i:=_]> _ !! ?j = Some _ |- _ =>
      destruct (decide (j = i)) as [->|?];
      [rewrite list_lookup_insert_eq in H by
         (rewrite ?length_insert; by eapply lookup_lt_Some)
      |rewrite list_lookup_insert_ne in H by done]
  | |- context [<[?i:=_]> _ !! ?i] =>
      rewrite list_lookup_insert_eq by
        (rewrite ?length_insert; by eapply lookup_lt_Some)
  | |- context [<[?i:=_]> _ !! ?j] =>
      destruct (decide (j = i)) as [->|?];
      [rewrite list_lookup_insert_eq by
         (rewrite ?length_insert; by eapply lookup_lt_Some)
      |rewrite list_lookup_insert_ne by done]
  end.

Lemma step_thread_worker s l s' j stop ph :
  step l s = Some s' → threads s !! j = Some (Worker stop ph) →
  ∃ stop' ph', threads s' !! j = Some (Worker stop' ph')
    ∧ (ph' = WExited → stop' = true ∨ (ph = WExited ∧ stop' = stop))
    ∧ (ph' = WBlocked → ph = WBlocked ∨ queue_ s' = []).
Proof.
  intros Hstep Hj. step_inv Hstep; lookup_insert_all; simplify_eq/=;
    try (do 2 eexists; split; [done|]; split; intros; simplify_eq; eauto; fail).
  all: try (match goal with |- context [wake (Worker true ?ph)] => destruct ph end;
            cbn [wake]; do 2 eexists; split; [done|]; split; intros; simplify_eq; eauto; fail).
Qed.

Lemma attending_insert (l : list thread) i th :
  (i < length l)%nat → attending th = true →
  ∃ j th', <[i:=th]> l !! j = Some th' ∧ attending th' = true.
Proof. intros Hi Hth. exists i, th. by rewrite list_lookup_insert_eq. Qed.

Lemma not_blocked_attending (l : list thread) w stop ph :
  existsb is_blocked l = false → l !! w = Some (Worker stop ph) →
  attending (Worker stop ph) = true.
Proof.
  intros He Hw. destruct ph; try done.
  assert (existsb is_blocked l = true) as E; [|congruence].
  apply List.existsb_exists. exists (Worker stop WBlocked).
  split; [|done]. by eapply list_elem_of_In, list_elem_of_lookup_2.
Qed.

(** A thread that attends to the queue keeps doing so, or hands over to
    the worker its [notify_one] wakes, or to one that was not blocked. *)
Lemma step_thread_client s l s' j a :
  (∃ w stop ph, threads s !! w = Some (Worker stop ph)) →
  step l s = Some s' → threads s !! j = Some (Client a) → attending (Client a) = true →
  ∃ i th, threads s' !! i = Some th ∧ attending th = true.
Proof.
  intros (w0 & stop0 & ph0 & Hw0) Hstep Hj Ha.
  assert ((∃ c, l = Step j c) ∨ ¬ ∃ c, l = Step j c) as [[c ->]|Hne].
  { destruct l as [i c| |]; try (right; by intros [? ?]).
    destruct (decide (i = j)) as [->|?]; [left; by eexists|right; intros [? ?]; congruence]. }
  - unfold step in Hstep. destruct (failed s); [done|]. rewrite Hj in Hstep. cbn in Hstep.
    destruct a as [p|[] t k]; try done; cbn in Hstep.
    + simplify_eq. norm. apply attending_insert; [by eapply lookup_lt_Some|done].
    + destruct (notify_one j c s) as [s1|] eqn:Hn; simplify_eq/=.
      destruct (tasks s1 !! t) as [ts|]; simplify_eq/=. norm.
      unfold notify_one in Hn.
      destruct (threads s !! c) as [[a0|stop [ ]]|] eqn:Hc;
        try (destruct (existsb is_blocked (threads s)) eqn:Hb; simplify_eq; norm;
             exists w0, (Worker stop0 ph0);
             split; [rewrite list_lookup_insert_ne by congruence; done
                    |by eapply not_blocked_attending]).
      simplify_eq. norm. exists c, (Worker stop WWoken). split; [|done].
      rewrite list_lookup_insert_ne by congruence.
      apply list_lookup_insert_eq. by eapply lookup_lt_Some.
  - exists j, (Client a). split; [|done].
    step_inv Hstep; try done; lookup_insert_all; simplify_eq/=; try done.
    all: by destruct Hne; eexists.
Qed.

Lemma step_push_attending s l s' :
  step l s = Some s' → queue_ s = [] → queue_ s' ≠ [] →
  ∃ i th, threads s' !! i = Some th ∧ attending th = true.
Proof.
  intros Hstep Hq Hq'. step_inv Hstep; try done.
  all: try (rewrite Hq in *; done).
  all: apply attending_insert; [by eapply lookup_lt_Some|done].
Qed.

Lemma wake_step s l s' : wake_inv s → step l s = Some s' → wake_inv s'.
Proof.
  intros (Hw & He & Hq) Hstep. split; [|split].
  - destruct Hw as (w & stop & ph & Hw).
    destruct (step_thread_worker _ _ _ _ _ _ Hstep Hw) as (stop' & ph' & Hw' & _). eauto.
  - intros w stop Hw'.
    assert (∃ th, threads s !! w = Some th) as [th Hth].
    { destruct (threads s !! w) as [th|] eqn:E; [by eexists|].
      step_inv Hstep; lookup_insert_all; simplify_eq;
        try done; apply lookup_ge_None in E;
        repeat match goal with H : _ !! _ = Some _ |- _ => apply lookup_lt_Some in H end;
        rewrite ?length_insert in *; lia. }
    destruct th as [a|stop0 ph0].
    + destruct (client_step _ _ _ _ _ Hstep Hth) as [a' Ha']. congruence.
    + destruct (step_thread_worker _ _ _ _ _ _ Hstep Hth) as (stop' & ph' & Hw2 & Hex & _).
      rewrite Hw' in Hw2. simplify_eq. destruct (Hex eq_refl) as [?|[-> ->]]; [done|].
      by eapply He.
  - intros Hq'. destruct (decide (queue_ s = [])) as [E|Hne].
    { by eapply step_push_attending. }
    destruct (Hq Hne) as (j & th & Hj & Hatt). destruct th as [a|stop ph].
    + by eapply step_thread_client.
    + destruct (step_thread_worker _ _ _ _ _ _ Hstep Hj) as (stop' & ph' & Hj' & _ & Hb).
      exists j, (Worker stop' ph'). split; [done|]. destruct ph'; try done.
      destruct (Hb eq_refl) as [->|?]; done.
Qed.

Lemma wake_init n mains : (0 < n)%nat → wake_inv (init n mains).
Proof.
  intros Hn. split; [|split].
  - exists (length mains), false, WTop. cbn [init threads].
    rewrite lookup_app_r by (by rewrite length_fmap).
    rewrite length_fmap, Nat.sub_diag. destruct n; [lia|done].
  - intros w stop Hw. cbn [init threads] in Hw. apply lookup_app_Some in Hw as [Hw|[_ Hw]].
    + rewrite list_lookup_fmap in Hw. by destruct (mains !! w).
    + by apply lookup_replicate in Hw as [? _].
  - done.
Qed.

(** X3. No wake-up is lost: in a pool with at least one worker, whenever
    an item is in the queue there is a worker that is not blocked in
    [cva_.wait], or a caller that has pushed and is about to call
    [notify_one]; a worker has left its loop only if its stop was
    requested; so, as long as no stop is requested, an item is never left
    queued with every worker asleep and nobody about to wake one. *)
Theorem no_lost_wakeup n mains ls s :
  (0 < n)%nat → exec ls (init n mains) = Some s →
  (queue_ s ≠ [] →
     (∃ w stop ph, threads s !! w = Some (Worker stop ph) ∧ ph ≠ WBlocked)
     ∨ (∃ i ph t k, threads s !! i = Some (Client (Sched ph t k))
                    ∧ (ph = SUnlock ∨ ph = SNotify)))
  ∧ (∀ w stop, threads s !! w = Some (Worker stop WExited) → stop = true)
  ∧ (queue_ s ≠ [] → (∀ w stop ph, threads s !! w = Some (Worker stop ph) → stop = false) →
     (∃ w ph, threads s !! w = Some (Worker false ph) ∧ ph ≠ WBlocked ∧ ph ≠ WExited)
     ∨ (∃ i ph t k, threads s !! i = Some (Client (Sched ph t k))
                    ∧ (ph = SUnlock ∨ ph = SNotify))).
Proof.
  intros Hn H%exec_reachable.
  assert (wake_inv s) as (Hw & He & Hq).
  { induction H as [|s1 l s2 Hr IH Hs]; [by apply wake_init|by eapply wake_step]. }
  assert (queue_ s ≠ [] →
     (∃ w stop ph, threads s !! w = Some (Worker stop ph) ∧ ph ≠ WBlocked)
     ∨ (∃ i ph t k, threads s !! i = Some (Client (Sched ph t k))
                    ∧ (ph = SUnlock ∨ ph = SNotify))) as Hatt.
  { intros (i & th & Hi & Ha)%Hq. destruct th as [[p|[] t k]|stop ph]; try done.
    - right. exists i, SUnlock, t, k. auto.
    - right. exists i, SNotify, t, k. auto.
    - left. exists i, stop, ph. split; [done|]. by intros ->. }
  split; [done|]. split; [done|].
  intros Hne Hstop. destruct (Hatt Hne) as [(w & stop & ph & Hw' & Hb)|?]; [|by right].
  left. pose proof (Hstop _ _ _ Hw') as ->. exists w, ph. split; [done|]. split; [done|].
  intros ->. by pose proof (He _ _ Hw').
Qed.

Lemma no_lost_wakeup_witness :
  (∃ w ph, threads (run 5 (init 2 [add_main])) !! w = Some (Worker false ph)
           ∧ ph ≠ WBlocked ∧ ph ≠ WExited)
  ∨ (∃ i ph t k, threads (run 5 (init 2 [add_main])) !! i = Some (Client (Sched ph t k))
                 ∧ (ph = SUnlock ∨ ph = SNotify)).
Proof.
  destruct (no_lost_wakeup 2 [add_main] (run_trace 5 (init 2 [add_main]))
              (run 5 (init 2 [add_main]))) as (_ & _ & H).
  - lia.
  - vm_compute. reflexivity.
  - apply H.
    + vm_compute. done.
    + intros [|[|[|w]]] stop ph Hw; vm_compute in Hw; by simplify_eq.
Defined.

(** ** The results of [async_add] and [async_fib] *)

Lemma wrap_int_small z : (- 2 ^ 31 ≤ z < 2 ^ 31)%Z → wrap_int z = z.
Proof. intros H. unfold wrap_int. rewrite Z.mod_small; lia. Qed.

Lemma fibonacci_SS k : fibonacci (S (S k)) = (fibonacci k + fibonacci (S k))%Z.
Proof. done. Qed.

Lemma fibonacci_nonneg k : (0 ≤ fibonacci k)%Z ∧ (0 ≤ fibonacci (S k))%Z.
Proof.
  induction k as [|k [IH1 IH2]]; [done|]. split; [done|]. rewrite fibonacci_SS. lia.
Qed.

Lemma fibonacci_mono j k : (j ≤ k)%nat → (fibonacci (S j) ≤ fibonacci (S k))%Z.
Proof.
  induction 1 as [|k _ IH]; [done|]. rewrite fibonacci_SS.
  pose proof (fibonacci_nonneg k). lia.
Qed.

Lemma fibonacci_iter m :
  Nat.iter m (λ p : Z * Z, (p.2, p.1 + p.2)%Z) (0, 1)%Z = (fibonacci m, fibonacci (S m)).
Proof.
  induction m as [|m IH]; [done|]. rewrite Nat.iter_succ, IH. cbn [fst snd].
  by rewrite <- fibonacci_SS.
Qed.

Lemma fibonacci_46 : fibonacci 46 = 1836311903%Z.
Proof.
  pose proof (fibonacci_iter 46) as H.
  assert (Nat.iter 46 (λ p : Z * Z, (p.2, p.1 + p.2)%Z) (0, 1)%Z
          = (1836311903, 2971215073)%Z) as E by (vm_compute; reflexivity).
  rewrite E in H. congruence.
Qed.

Lemma fib_iter_fibonacci m : ∀ j,
  (fibonacci (S j + m) < 2 ^ 31)%Z →
  fib_iter m (fibonacci j) (fibonacci (S j)) = fibonacci (S j + m).
Proof.
  induction m as [|m IH]; intros j Hlt; cbn [fib_iter].
  - by rewrite Nat.add_0_r.
  - assert (int_add (fibonacci j) (fibonacci (S j)) = fibonacci (S (S j))) as ->.
    { unfold int_add. rewrite <- fibonacci_SS. apply wrap_int_small.
      pose proof (fibonacci_nonneg (S j)) as [_ ?].
      pose proof (fibonacci_mono (S j) (j + S m)). cbn [Nat.add] in Hlt. lia. }
    replace (S j + S m)%nat with (S (S j) + m)%nat in * by lia. by apply IH.
Qed.

Lemma fib_value_fibonacci n :
  (n ≤ 46)%Z →
  fib_value n = if (n <=? 2)%Z then 1%Z else fibonacci (Z.to_nat n).
Proof.
  intros Hn. unfold fib_value. destruct (Z.leb_spec n 2) as [?|Hgt]; [done|].
  replace (Z.to_nat n) with (2 + Z.to_nat (n - 2))%nat by lia.
  apply (fib_iter_fibonacci (Z.to_nat (n - 2)) 1).
  pose proof (fibonacci_mono (1 + Z.to_nat (n - 2)) 45) as Hm.
  rewrite fibonacci_46 in Hm. cbn [Nat.add] in *. lia.
Qed.

(** X7. [async_fib], for every argument up to 46 (beyond, [a + b]
    overflows), every number of workers and every schedule: the caller
    of [async_fib (n)] that prints the result as [test_async_fib] does
    prints the n-th Fibonacci number, and 1 for every n below 3, zero and
    the negative numbers included; nothing else is printed, no task ends
    with an exception and the run leaves defined behaviour nowhere. *)
Theorem async_fib_correct k n ls s :
  (n ≤ 46)%Z → exec ls (init k [test_loop 1 n]) = Some s →
  failed s = None
  ∧ (∀ t o, slot s t = Some o → ∃ v, o = Value v)
  ∧ out s `prefix_of` [[n; if (n <=? 2)%Z then 1%Z else fibonacci (Z.to_nat n)]]
  ∧ (∀ v, threads s !! 0%nat = Some (Client (Run (Ret v))) →
       out s = [[n; if (n <=? 2)%Z then 1%Z else fibonacci (Z.to_nat n)]]).
Proof.
  intros Hn Hexec.
  assert (∀ v, is_value (Value v)) as HQ by (intros v; by exists v).
  destruct (sem_result is_value _ _ _ _ _ _ (yields_test_loop _ 1 n [] HQ) Hexec)
    as (Hf & Hs & _ & Hp & He).
  cbn [fib_lines] in Hp, He. rewrite fib_value_fibonacci in Hp, He by done.
  repeat split; try done. intros v Hv. by destruct (He _ Hv).
Qed.

Lemma async_fib_correct_witness :
  out (run 400 (init 2 [test_loop 1 10%Z])) = [[10; 55]]%Z.
Proof.
  destruct (async_fib_correct 2 10%Z (run_trace 400 (init 2 [test_loop 1 10%Z]))
              (run 400 (init 2 [test_loop 1 10%Z]))) as (_ & _ & _ & H).
  - lia.
  - vm_compute. reflexivity.
  - rewrite (H 0%Z) by (vm_compute; reflexivity). vm_compute. reflexivity.
Defined.

Lemma yields_add_caller a b Π :
  yields (λ o, o = Value (int_add a b)) (add_caller a b) Π [[int_add a b]] (Value 0%Z).
Proof.
  cbn [add_caller yields]. exists (Value (int_add a b)). split; [done|]. split; [done|].
  intros Π' t _ Ht. exists (Value (int_add a b)). split; [done|]. by exists [].
Qed.

(** X8. [async_add], for all arguments whose sum is an [int], every
    number of workers and every schedule: every outcome stored and every
    outcome read is the sum, no slot is written twice, and the caller
    prints the sum and nothing else. *)
Theorem async_add_correct k a b ls s :
  (- 2 ^ 31 ≤ a + b < 2 ^ 31)%Z → exec ls (init k [add_caller a b]) = Some s →
  failed s = None
  ∧ (∀ t o, slot s t = Some o → o = Value (a + b)%Z)
  ∧ (∀ i t o, EvRead i t o ∈ log s → o = Value (a + b)%Z)
  ∧ (∀ t, written t (log s) = [] ∨ written t (log s) = [Value (a + b)%Z])
  ∧ out s `prefix_of` [[(a + b)%Z]]
  ∧ (∀ v, threads s !! 0%nat = Some (Client (Run (Ret v))) → out s = [[(a + b)%Z]]).
Proof.
  intros Hab Hexec.
  destruct (sem_result _ _ _ _ _ _ _ (yields_add_caller a b []) Hexec)
    as (Hf & Hs & Hr & Hp & He).
  pose proof (exec_inv _ _ _ _ Hexec) as (_ & _ & _ & [_ Hw] & _).
  unfold int_add in *. rewrite wrap_int_small in * by done.
  repeat split; try done.
  - intros t. rewrite Hw. destruct (slot s t) as [o|] eqn:E; [|by left].
    right. by rewrite (Hs _ _ E).
  - intros v Hv. by destruct (He _ Hv).
Qed.

Lemma async_add_correct_witness :
  out (run 100 (init 3 [add_caller (-5) 12])) = [[7%Z]].
Proof.
  destruct (async_add_correct 3 (-5) 12 (run_trace 100 (init 3 [add_caller (-5) 12]))
              (run 100 (init 3 [add_caller (-5) 12]))) as (_ & _ & _ & _ & _ & H).
  - lia.
  - vm_compute. reflexivity.
  - rewrite (H 0%Z) by (vm_compute; reflexivity). reflexivity.
Defined.

(** ** Shutdown of an idle pool *)

Lemma request_stops_exec ws : ∀ s,
  failed s = None → NoDup ws →
  (∀ w, w ∈ ws → threads s !! w = Some (Worker false WBlocked)) →
  ∃ s', exec (request_stops ws) s = Some s'
    ∧ (∀ w, w ∈ ws → threads s' !! w = Some (Worker true WWoken))
    ∧ (∀ j, j ∉ ws → threads s' !! j = threads s !! j)
    ∧ tasks s' = tasks s ∧ queue_ s' = queue_ s ∧ mutex_ s' = mutex_ s
    ∧ out s' = out s ∧ log s' = log s ∧ failed s' = None.
Proof.
  induction ws as [|w ws IH]; intros s Hf Hnd Hws.
  { exists s. repeat split; try done. intros w Hw. by apply elem_of_nil in Hw. }
  inversion_clear Hnd as [|? ? Hw Hnd'].
  pose proof (Hws w (list_elem_of_here _ _)) as Hth.
  destruct (IH (set_thread w (Worker true WWoken) s)) as (s' & He & H1 & H2 & H3);
    [done|done| |].
  { intros w' Hw'. norm. rewrite list_lookup_insert_ne by (intros ->; done).
    apply Hws. by right. }
  exists s'. split.
  { cbn [request_stops fmap list_fmap exec]. unfold step at 1. by rewrite Hf, Hth. }
  split; [|split; [|done]].
  - intros w' [->|Hw']%elem_of_cons; [|by apply H1].
    rewrite (H2 _ Hw). norm. apply list_lookup_insert_eq. by eapply lookup_lt_Some.
  - intros j [Hne Hj]%not_elem_of_cons. rewrite (H2 _ Hj). norm.
    by rewrite list_lookup_insert_ne.
Qed.

Lemma join_exec s w :
  failed s = None → mutex_ s = None → threads s !! w = Some (Worker true WWoken) →
  exec [Step w 0; Step w 0; Step w 0]%nat s
  = Some (add_log (EvExit w) (set_thread w (Worker true WExited) s)).
Proof.
  intros Hf Hm Hth. pose proof (lookup_lt_Some _ _ _ Hth) as Hlt.
  destruct s as [tk q m ths o lg f]. cbn in *. subst.
  unfold step. cbn. rewrite Hth. cbn.
  rewrite list_lookup_insert_eq by done. cbn.
  rewrite list_lookup_insert_eq by (by rewrite length_insert). cbn.
  unfold add_log, set_thread, set_mutex. cbn. by rewrite !list_insert_insert_eq.
Qed.

Lemma joins_exec ws : ∀ s,
  failed s = None → mutex_ s = None → NoDup ws →
  (∀ w, w ∈ ws → threads s !! w = Some (Worker true WWoken)) →
  ∃ s', exec (joins ws) s = Some s'
    ∧ (∀ w, w ∈ ws → threads s' !! w = Some (Worker true WExited))
    ∧ (∀ j, j ∉ ws → threads s' !! j = threads s !! j)
    ∧ tasks s' = tasks s ∧ queue_ s' = queue_ s ∧ mutex_ s' = None
    ∧ out s' = out s ∧ log s' = log s ++ (EvExit <$> ws) ∧ failed s' = None.
Proof.
  induction ws as [|w ws IH]; intros s Hf Hm Hnd Hws.
  { exists s. rewrite app_nil_r. repeat split; try done.
    intros w Hw. by apply elem_of_nil in Hw. }
  inversion_clear Hnd as [|? ? Hw Hnd'].
  pose proof (Hws w (list_elem_of_here _ _)) as Hth.
  destruct (IH (add_log (EvExit w) (set_thread w (Worker true WExited) s)))
    as (s' & He & H1 & H2 & H3 & H4 & H5 & H6 & H7 & H8); [done|done|done| |].
  { intros w' Hw'. norm. rewrite list_lookup_insert_ne by (intros ->; done).
    apply Hws. by right. }
  exists s'. split.
  { change (joins (w :: ws)) with ([Step w 0; Step w 0; Step w 0]%nat ++ joins ws).
    rewrite exec_app, (join_exec s w) by done. exact He. }
  split; [|split; [|repeat split; try done]].
  - intros w' [->|Hw']%elem_of_cons; [|by apply H1].
    rewrite (H2 _ Hw). norm. apply list_lookup_insert_eq. by eapply lookup_lt_Some.
  - intros j [Hne Hj]%not_elem_of_cons. rewrite (H2 _ Hj). norm.
    by rewrite list_lookup_insert_ne.
  - rewrite H7. norm. by rewrite <- app_assoc.
Qed.

(** X9. Shutdown of an idle pool: when the workers [ws] are all blocked
    in [cva_.wait] and the mutex is free, the destructor goes through:
    after the stop requests each worker wakes, re-acquires the mutex,
    returns from the wait, sees the stop and leaves [run_thread], and the
    mutex is free again; the queue, the tasks and the output are as they
    were, and what is queued stays queued. *)
Theorem idle_shutdown s ws :
  failed s = None → mutex_ s = None → NoDup ws →
  (∀ w, w ∈ ws → threads s !! w = Some (Worker false WBlocked)) →
  ∃ s', exec (destructor ws) s = Some s'
    ∧ (∀ w, w ∈ ws → threads s' !! w = Some (Worker true WExited))
    ∧ (∀ j, j ∉ ws → threads s' !! j = threads s !! j)
    ∧ tasks s' = tasks s ∧ queue_ s' = queue_ s ∧ mutex_ s' = None
    ∧ out s' = out s ∧ log s' = log s ++ (EvExit <$> ws) ∧ failed s' = None.
Proof.
  intros Hf Hm Hnd Hws.
  destruct (request_stops_exec ws s Hf Hnd Hws)
    as (s1 & He1 & Hw1 & Ho1 & Ht1 & Hq1 & Hm1 & Hout1 & Hl1 & Hf1).
  destruct (joins_exec ws s1 Hf1 (eq_trans Hm1 Hm) Hnd Hw1)
    as (s2 & He2 & Hw2 & Ho2 & Ht2 & Hq2 & Hm2 & Hout2 & Hl2 & Hf2).
  exists s2. split; [unfold destructor; by rewrite exec_app, He1|].
  split; [done|]. split; [intros j Hj; by rewrite Ho2, Ho1|].
  repeat split; congruence.
Qed.

Lemma idle_shutdown_witness :
  ∃ s', exec (destructor (seq 1 DEFAULT_CONCURRENCY_LEVEL))
             (run 1000 (init DEFAULT_CONCURRENCY_LEVEL [test_async_fib])) = Some s'
        ∧ ∀ w, w ∈ seq 1 DEFAULT_CONCURRENCY_LEVEL →
               threads s' !! w = Some (Worker true WExited).
Proof.
  destruct (idle_shutdown (run 1000 (init DEFAULT_CONCURRENCY_LEVEL [test_async_fib]))
              (seq 1 DEFAULT_CONCURRENCY_LEVEL)) as (s' & He & Hw & _).
  - vm_compute. reflexivity.
  - vm_compute. reflexivity.
  - apply NoDup_seq.
  - intros w [H1 H2]%elem_of_seq. unfold DEFAULT_CONCURRENCY_LEVEL in H2.
    do 9 (destruct w as [|w]; [first [lia | vm_compute; reflexivity]|]). lia.
  - exists s'. split; [exact He|exact Hw].
Defined.

(** ** After the stop *)

Lemma exit_final_step s l s' :
  step l s = Some s' →
  (∀ w ph, threads s !! w = Some (Worker true ph) →
     ∃ ph', threads s' !! w = Some (Worker true ph'))
  ∧ (∀ w stop, threads s !! w = Some (Worker stop WExited) →
       ∃ stop', threads s' !! w = Some (Worker stop' WExited))
  ∧ ((∀ j stop ph, threads s !! j = Some (Worker stop ph) → ph = WExited) →
       (∀ j stop ph, threads s' !! j = Some (Worker stop ph) → ph = WExited)
       ∧ queue_ s `prefix_of` queue_ s').
Proof.
  intros Hstep. split; [|split].
  - intros w ph Hw. destruct (step_thread_worker _ _ _ _ _ _ Hstep Hw) as (stop' & ph' & Hw' & _).
    exists ph'. rewrite Hw'. f_equal. f_equal.
    step_inv Hstep; lookup_insert_all; simplify_eq/=; try done.
    all: match goal with H : context [wake (Worker true ?ph)] |- _ =>
           destruct ph; cbn [wake] in H; by simplify_eq end.
  - intros w stop Hw. step_inv Hstep; lookup_insert_all; simplify_eq/=; eauto.
  - intros Hall. split.
    + intros j stop ph Hj.
      step_inv Hstep; lookup_insert_all; simplify_eq/=;
        try (by eapply Hall);
        try match goal with H : threads s !! _ = Some (Worker _ _) |- _ =>
              by pose proof (Hall _ _ _ H) end.
    + step_inv Hstep; try done; try (by apply prefix_app_r);
        match goal with H : threads s !! _ = Some (Worker _ _) |- _ =>
          by pose proof (Hall _ _ _ H) end.
Qed.

(** X10. A stop is final: a stop request is never taken back, a worker
    that has left [run_thread] never runs again, and once all workers
    have left, nothing is dequeued any more: the queue only grows, the
    items in it are abandoned, and no slot is written. *)
Theorem exit_is_final s ls s' :
  exec ls s = Some s' →
  (∀ w ph, threads s !! w = Some (Worker true ph) →
     ∃ ph', threads s' !! w = Some (Worker true ph'))
  ∧ (∀ w stop, threads s !! w = Some (Worker stop WExited) →
       ∃ stop', threads s' !! w = Some (Worker stop' WExited))
  ∧ ((∀ j stop ph, threads s !! j = Some (Worker stop ph) → ph = WExited) →
       (∀ j stop ph, threads s' !! j = Some (Worker stop ph) → ph = WExited)
       ∧ queue_ s `prefix_of` queue_ s'
       ∧ ∀ t, slot s' t = slot s t).
Proof.
  revert s. induction ls as [|l ls IH]; intros s Hexec; simplify_eq/=.
  { repeat split; eauto. }
  destruct (step l s) as [s1|] eqn:Hs; simplify_eq/=.
  destruct (exit_final_step _ _ _ Hs) as (H1 & H2 & H3).
  destruct (IH _ Hexec) as (H1' & H2' & H3').
  split; [|split].
  - intros w ph [ph1 Hw]%H1. by eapply H1'.
  - intros w stop [stop1 Hw]%H2. by eapply H2'.
  - intros Hall. destruct (H3 Hall) as [Hall1 Hq1]. destruct (H3' Hall1) as (Hall' & Hq' & _).
    split; [done|]. split; [by etrans|].
    assert (starved s = true) as Hst.
    { apply starved_spec. intros w stop ph Hw. left. by eapply Hall. }
    assert (exec (l :: ls) s = Some s') as Hex by (cbn; by rewrite Hs).
    destruct (starved_step _ _ _ Hst Hs) as (Hst1 & Hsl1 & _).
    assert (∀ ls0 s0 s2, starved s0 = true → exec ls0 s0 = Some s2 →
              ∀ t, slot s2 t = slot s0 t) as Hgen.
    { clear. intros ls0. induction ls0 as [|l0 ls0 IH0]; intros s0 s2 Hst He t; simplify_eq/=; [done|].
      destruct (step l0 s0) as [s1|] eqn:Hs; simplify_eq/=.
      destruct (starved_step _ _ _ Hst Hs) as (Hst1 & Hsl1 & _).
      by rewrite (IH0 _ _ Hst1 He), Hsl1. }
    by apply (Hgen _ _ _ Hst Hex).
Qed.

Lemma exit_is_final_witness :
  ∃ ph', threads stop_state !! 1%nat = Some (Worker true ph').
Proof.
  destruct (exit_is_final
              (default (init 1 [forget_main])
                 (exec (take 11 stop_trace) (init 1 [forget_main])))
              (drop 11 stop_trace) stop_state) as (H & _).
  - vm_compute. reflexivity.
  - apply (H 1%nat WWoken). vm_compute. reflexivity.
Defined.
